(** * pubsub: a type-keyed publish/subscribe registry

    A shallow embedding of [pubsub.go].  The Go program is concurrent: the
    API calls ([PublishToScope], [SubscribeToScope], the returned [UnsubFn])
    run in the caller's goroutine and are modelled as functions on an
    explicit program state, while the goroutines the package starts (the
    fan-out senders of [PublishToScope] and the [castAndForward] loop of
    every subscription) are modelled by a labelled step function whose
    labels pick which goroutine moves, so that every interleaving of the
    [select] statements is a trace.

    Conventions.  Channels, subscription ids ([uuid.New]) and the cancel
    functions of [context.WithCancel] are named by numbers taken from one
    allocator, so a new one differs from all those in use.  A call of the
    API is one atomic transition.  Line numbers refer to [pubsub.go]. *)

From Stdlib Require Import List Bool Arith ZArith String Lia.
Import ListNotations.
Open Scope string_scope.
Open Scope list_scope.
Open Scope nat_scope.

Set Implicit Arguments.
Set Warnings "-register-all".

(** ** Go types and values

    The type parameter [T] of the generic functions ranges over Go types.
    Only what the package observes of a type is kept: its identity, whether
    it is an interface type, its method set, and whether it is comparable
    (hashable by the runtime). *)

Inductive GoType : Type :=
| TBool
| TInt
| TString
| TPtr (elem : GoType)
| TChan (elem : GoType)
| TSlice (elem : GoType)
| TMap (key elem : GoType)
| TFunc (params results : list GoType)
| TStruct (name : string) (methods : list string) (fields : list GoType)
| TIface (name : string) (methods : list string).

(** Values.  Pointers and channels are addresses (or nil); slices, maps and
    funcs are reference headers; an interface value is either nil or a
    dynamic type together with a value of that type. *)
Inductive Value : Type :=
| VBool (b : bool)
| VInt (z : Z)
| VString (s : string)
| VPtr (addr : option nat)
| VRef (addr : option nat)
| VStruct (fields : list Value)
| VNil
| VBox (dyn : GoType) (v : Value).

(** Values of static type [any] are the interface values [VNil], [VBox]. *)
Definition any := Value.

Definition GoType_eq_dec : forall a b : GoType, {a = b} + {a <> b}.
Proof.
  fix IH 1.
  decide equality;
    try apply string_dec;
    try apply (list_eq_dec string_dec);
    apply (list_eq_dec IH).
Defined.

Definition Value_eq_dec : forall a b : Value, {a = b} + {a <> b}.
Proof.
  fix IH 1.
  decide equality;
    try apply GoType_eq_dec;
    try apply string_dec;
    try apply Z.eq_dec;
    try apply bool_dec;
    try (decide equality; apply Nat.eq_dec);
    apply (list_eq_dec IH).
Defined.

Definition type_eqb (a b : GoType) : bool :=
  if GoType_eq_dec a b then true else false.

(** Go's [==] on interface values whose dynamic type is comparable: the
    dynamic types are identical and the values are equal. *)
Definition any_eqb (a b : any) : bool :=
  if Value_eq_dec a b then true else false.

Lemma type_eqb_refl T : type_eqb T T = true.
Proof. unfold type_eqb. destruct (GoType_eq_dec T T); congruence. Qed.

Lemma type_eqb_eq a b : type_eqb a b = true <-> a = b.
Proof. unfold type_eqb. destruct (GoType_eq_dec a b); split; congruence. Qed.

Lemma any_eqb_refl a : any_eqb a a = true.
Proof. unfold any_eqb. destruct (Value_eq_dec a a); congruence. Qed.

Lemma any_eqb_eq a b : any_eqb a b = true <-> a = b.
Proof. unfold any_eqb. destruct (Value_eq_dec a b); split; congruence. Qed.

Lemma any_eqb_neq a b : any_eqb a b = false <-> a <> b.
Proof. unfold any_eqb. destruct (Value_eq_dec a b); split; congruence. Qed.

Definition is_iface (T : GoType) : bool :=
  match T with TIface _ _ => true | _ => false end.

(** The zero value of a type, [var zero T]. *)
Fixpoint zero_value (T : GoType) : Value :=
  match T with
  | TBool => VBool false
  | TInt => VInt 0
  | TString => VString ""
  | TPtr _ | TChan _ => VPtr None
  | TSlice _ | TMap _ _ | TFunc _ _ => VRef None
  | TStruct _ _ fs => VStruct (map zero_value fs)
  | TIface _ _ => VNil
  end.

(** Comparable types: the runtime can hash a value whose dynamic type is
    comparable and panics ("hash of unhashable type") otherwise. *)
Fixpoint comparable (T : GoType) : bool :=
  match T with
  | TSlice _ | TMap _ _ | TFunc _ _ => false
  | TStruct _ _ fs => forallb comparable fs
  | _ => true
  end.

(** Method sets.  A pointer to a struct type has the methods of the struct. *)
Definition methods_of (T : GoType) : list string :=
  match T with
  | TStruct _ ms _ => ms
  | TPtr (TStruct _ ms _) => ms
  | TIface _ ms => ms
  | _ => []
  end.

Definition has_method (T : GoType) (m : string) : bool :=
  existsb (String.eqb m) (methods_of T).

(** [implements C I]: the method set of [C] contains every method of the
    interface type [I]. *)
Definition implements (C I : GoType) : bool :=
  match I with
  | TIface _ ms => forallb (has_method C) ms
  | _ => false
  end.

(** [has_type v T]: [v] is a value of static type [T]. *)
Fixpoint has_type (v : Value) (T : GoType) {struct v} : bool :=
  match v, T with
  | VBool _, TBool => true
  | VInt _, TInt => true
  | VString _, TString => true
  | VPtr _, TPtr _ => true
  | VPtr _, TChan _ => true
  | VRef _, TSlice _ => true
  | VRef _, TMap _ _ => true
  | VRef _, TFunc _ _ => true
  | VStruct vs, TStruct _ _ ts =>
      (fix fields (vs : list Value) (ts : list GoType) : bool :=
         match vs, ts with
         | [], [] => true
         | v' :: vs', t' :: ts' => has_type v' t' && fields vs' ts'
         | _, _ => false
         end) vs ts
  | VNil, TIface _ _ => true
  | VBox dyn v', TIface _ _ =>
      negb (is_iface dyn) && implements dyn T && has_type v' dyn
  | _, _ => false
  end.

(** Conversion of a value of static type [T] to [any]: a value of a concrete
    type is boxed with [T] as its dynamic type; a value of an interface
    type keeps its dynamic type, and nil stays nil. *)
Definition to_any (T : GoType) (v : Value) : any :=
  if is_iface T then v else VBox T v.

(** The type assertion [val.(T)] of [castAndForward], with its [ok] result
    as [Some]/[None]. *)
Definition type_assert (T : GoType) (val : any) : option Value :=
  match val with
  | VBox dyn v =>
      if is_iface T
      then if implements dyn T then Some val else None
      else if type_eqb dyn T then Some v else None
  | _ => None
  end.

(** The registry key of [T]: [var zero T] converted to [any], as passed to
    [sync.Map.Load] and [sync.Map.LoadOrStore]. *)
Definition key_of (T : GoType) : any := to_any T (zero_value T).

(** Whether the runtime can hash an interface value used as a map key. *)
Definition hashable_key (k : any) : bool :=
  match k with
  | VBox dyn _ => comparable dyn
  | _ => true
  end.

Definition hashable (T : GoType) : bool := hashable_key (key_of T).

(** ** sync.Map

    A [sync.Map] as an association list under a key equality test.  The
    operations are atomic in Go, so each is one function.  Hashing the key
    (and its panic on an unhashable dynamic type) is checked by the callers
    below, where the key type is [any]. *)

Section SyncMap.
Variables K V : Type.
Variable eqb : K -> K -> bool.

Definition SyncMap := list (K * V).

Fixpoint Load (k : K) (m : SyncMap) : option V :=
  match m with
  | [] => None
  | (k', v) :: m' => if eqb k k' then Some v else Load k m'
  end.

(** [LoadOrStore] keeps an existing entry and appends a new one otherwise. *)
Definition LoadOrStore (k : K) (v : V) (m : SyncMap) : SyncMap :=
  match Load k m with
  | Some _ => m
  | None => m ++ [(k, v)]
  end.

Definition Delete (k : K) (m : SyncMap) : SyncMap :=
  filter (fun kv => negb (eqb k (fst kv))) m.

Definition Store (k : K) (v : V) (m : SyncMap) : SyncMap :=
  Delete k m ++ [(k, v)].

(** In-place update of the value stored under [k]: the effect of calling a
    mutating method through the pointer stored under [k]. *)
Definition Alter (k : K) (f : V -> V) (m : SyncMap) : SyncMap :=
  map (fun kv => if eqb k (fst kv) then (fst kv, f (snd kv)) else kv) m.
End SyncMap.

(** ** Program state *)

Definition ChanId := nat.
Definition UUID := nat.
Definition CancelId := nat.
Definition ScopeId := nat.

(** A [context.Context]: the background context or a child made by
    [context.WithCancel], named by its cancel function. *)
Inductive Ctx : Type :=
| Background
| WithCancel (parent : Ctx) (cancel : CancelId).

(** The subscriber set of one type key: subscription id to endpoint. *)
Definition SubMap := SyncMap UUID ChanId.

(** The [subscribers] maps of all event scopes: the [sync.Map] of scope [e]
    is the part whose keys have first component [e]. *)
Definition RegKey := (ScopeId * any)%type.
Definition Registry := SyncMap RegKey SubMap.

Definition regkey_eqb (a b : RegKey) : bool :=
  Nat.eqb (fst a) (fst b) && any_eqb (snd a) (snd b).

(** A fan-out goroutine of [PublishToScope], blocked in its [select].
    [snd_pub] is ghost: the number of the publish call that started it. *)
Record Sender : Type := mkSender {
  snd_dest : ChanId;
  snd_val : any;
  snd_ctx : Ctx;
  snd_pub : nat
}.

(** Where a [castAndForward] goroutine stands: in the outer [select], in
    the inner [select] holding [typedVal], or returned. *)
Inductive ForwardPC : Type :=
| AtSelect
| AtSend (typedVal : Value) (pub : nat)
| Returned.

(** One activation of [SubscribeToScope]: its locals, shared by the
    forwarding goroutine and the [unsub] closure. *)
Record Subscription : Type := mkSub {
  sub_scope : ScopeId;
  sub_T : GoType;
  sub_id : UUID;
  sub_in : ChanId;        (* untypedCh *)
  sub_out : ChanId;       (* ch *)
  sub_ctx : Ctx;          (* forwardCtx *)
  sub_cancel : CancelId;  (* cancel *)
  sub_pc : ForwardPC
}.

Record State : Type := mkState {
  fresh : nat;                  (* supplies channels, uuids and cancel functions *)
  registry : Registry;
  cancelled : list CancelId;
  closed : list ChanId;
  senders : list Sender;
  subs : list Subscription;
  npub : nat;                   (* ghost: number of publish calls so far *)
  crashed : option string       (* an unrecovered panic in a goroutine *)
}.

Definition init : State :=
  mkState 0 [] [] [] [] [] 0 None.

(** The scope [Global] and a fresh scope of [NewEventScope] are scope ids
    with no keys in the registry. *)
Definition Global : ScopeId := 0.

Definition mem (n : nat) (l : list nat) : bool := existsb (Nat.eqb n) l.

Definition add (n : nat) (l : list nat) : list nat :=
  if mem n l then l else n :: l.

(** [<-ctx.Done()] is ready when the context or an ancestor is cancelled. *)
Fixpoint ctx_done (cs : list CancelId) (ctx : Ctx) : bool :=
  match ctx with
  | Background => false
  | WithCancel parent c => mem c cs || ctx_done cs parent
  end.

(** Calling a cancel function; a second call does nothing. *)
Definition cancel (c : CancelId) (s : State) : State :=
  mkState (fresh s) (registry s) (add c (cancelled s)) (closed s)
          (senders s) (subs s) (npub s) (crashed s).

Inductive Outcome (A : Type) : Type :=
| Return (a : A) (s : State)
| Panic (msg : string) (s : State).

Arguments Return {A} a s.
Arguments Panic {A} msg s.

Definition outcome_state {A} (o : Outcome A) : State :=
  match o with Return _ s => s | Panic _ s => s end.

(** ** PublishToScope (lines 48-68) *)

(** Ghost: count a publish call.  No transition reads [npub]; it only
    names the call a sender goroutine was started by. *)
Definition next_publish (s : State) : State :=
  mkState (fresh s) (registry s) (cancelled s) (closed s)
          (senders s) (subs s) (S (npub s)) (crashed s).

Definition PublishToScope (T : GoType) (ctx : Ctx) (e : ScopeId) (val : Value)
    (s : State) : Outcome unit :=
  let zero := key_of T in
  if negb (hashable_key zero) then Panic "hash of unhashable type" (next_publish s)
  else
    match Load regkey_eqb (e, zero) (registry s) with
    | None => Return tt (next_publish s)
    | Some subMap =>
        let spawned :=
          map (fun kv => mkSender (snd kv) (to_any T val) ctx (npub s)) subMap in
        Return tt
          (mkState (fresh s) (registry s) (cancelled s) (closed s)
                   (senders s ++ spawned) (subs s) (S (npub s)) (crashed s))
    end.

(** ** SubscribeToScope (lines 78-100) *)

(** The closure [unsub]: it captures [subMap] (the subscriber set stored
    under the scope and key), [id] and [cancel]. *)
Record UnsubFn : Type := mkUnsub {
  u_scope : ScopeId;
  u_key : any;
  u_id : UUID;
  u_cancel : CancelId
}.

Definition SubscribeToScope (T : GoType) (ctx : Ctx) (e : ScopeId)
    (s : State) : Outcome (ChanId * UnsubFn) :=
  let ch := fresh s in
  let untypedCh := 1 + fresh s in
  let id := 2 + fresh s in
  let zero := key_of T in
  if negb (hashable_key zero) then
    Panic "hash of unhashable type"
      (mkState (3 + fresh s) (registry s) (cancelled s) (closed s)
               (senders s) (subs s) (npub s) (crashed s))
  else
    let stored := LoadOrStore regkey_eqb (e, zero) [] (registry s) in
    let reg := Alter regkey_eqb (e, zero) (Store Nat.eqb id untypedCh) stored in
    let cancel := 3 + fresh s in
    let forwardCtx := WithCancel ctx cancel in
    let task := mkSub e T id untypedCh ch forwardCtx cancel AtSelect in
    Return (ch, mkUnsub e zero id cancel)
      (mkState (4 + fresh s) reg (cancelled s) (closed s)
               (senders s) (subs s ++ [task]) (npub s) (crashed s)).

(** [Publish] and [SubscribeTo] (lines 42-44, 72-74) use the scope [Global]. *)
Definition Publish (T : GoType) (ctx : Ctx) (val : Value) (s : State) : Outcome unit :=
  PublishToScope T ctx Global val s.

Definition SubscribeTo (T : GoType) (ctx : Ctx) (s : State)
    : Outcome (ChanId * UnsubFn) :=
  SubscribeToScope T ctx Global s.

(** Calling the [UnsubFn] (lines 94-97): [subMap.Delete(id); cancel()]. *)
Definition call_unsub (u : UnsubFn) (s : State) : State :=
  cancel (u_cancel u)
    (mkState (fresh s)
             (Alter regkey_eqb (u_scope u, u_key u) (Delete Nat.eqb (u_id u))
                    (registry s))
             (cancelled s) (closed s) (senders s) (subs s) (npub s) (crashed s)).

(** The [UnsubFn] that the subscribe call of a subscription returned. *)
Definition unsub_of (sub : Subscription) : UnsubFn :=
  mkUnsub (sub_scope sub) (key_of (sub_T sub)) (sub_id sub) (sub_cancel sub).

(** ** Goroutine steps *)

Fixpoint remove_nth {A} (i : nat) (l : list A) : list A :=
  match l with
  | [] => []
  | x :: l' => match i with 0 => l' | S i' => x :: remove_nth i' l' end
  end.

Fixpoint update_nth {A} (j : nat) (f : A -> A) (l : list A) : list A :=
  match l with
  | [] => []
  | x :: l' => match j with 0 => f x :: l' | S j' => x :: update_nth j' f l' end
  end.

Definition set_pc (pc : ForwardPC) (sub : Subscription) : Subscription :=
  mkSub (sub_scope sub) (sub_T sub) (sub_id sub) (sub_in sub) (sub_out sub)
        (sub_ctx sub) (sub_cancel sub) pc.

Definition crash (msg : string) (s : State) : State :=
  mkState (fresh s) (registry s) (cancelled s) (closed s)
          (senders s) (subs s) (npub s) (Some msg).

Definition with_senders (l : list Sender) (s : State) : State :=
  mkState (fresh s) (registry s) (cancelled s) (closed s)
          l (subs s) (npub s) (crashed s).

Definition with_subs (l : list Subscription) (s : State) : State :=
  mkState (fresh s) (registry s) (cancelled s) (closed s)
          (senders s) l (npub s) (crashed s).

(** [close(c)]; closing a closed channel panics. *)
Definition close_chan (c : ChanId) (s : State) : State :=
  if mem c (closed s) then crash "close of closed channel" s
  else mkState (fresh s) (registry s) (cancelled s) (c :: closed s)
               (senders s) (subs s) (npub s) (crashed s).

(** [castAndForward] returns: the deferred [close(out)] runs. *)
Definition forward_return (j : nat) (sub : Subscription) (s : State) : State :=
  close_chan (sub_out sub) (with_subs (update_nth j (set_pc Returned) (subs s)) s).

Definition running (pc : ForwardPC) : bool :=
  match pc with Returned => false | _ => true end.

Definition at_select (pc : ForwardPC) : bool :=
  match pc with AtSelect => true | _ => false end.

(** The send of line 60 meets the receive of line 109 on an unbuffered
    channel; the forwarder then asserts the type (lines 113-116).  The
    panic of line 115 unwinds [castAndForward], so the deferred
    [close(out)] runs, and the process is going down. *)
Definition deliver (i j : nat) (s : State) : option State :=
  match nth_error (senders s) i, nth_error (subs s) j with
  | Some sd, Some sub =>
      if Nat.eqb (snd_dest sd) (sub_in sub) && at_select (sub_pc sub)
         && negb (mem (sub_in sub) (closed s))
      then
        let s' := with_senders (remove_nth i (senders s)) s in
        match type_assert (sub_T sub) (snd_val sd) with
        | Some typedVal =>
            Some (with_subs
                    (update_nth j (set_pc (AtSend typedVal (snd_pub sd))) (subs s))
                    s')
        | None => Some (crash "mismatched type" (forward_return j sub s'))
        end
      else None
  | _, _ => None
  end.

(** Line 61: the publisher's context is done, the sender gives up. *)
Definition sender_done (i : nat) (s : State) : option State :=
  match nth_error (senders s) i with
  | Some sd =>
      if ctx_done (cancelled s) (snd_ctx sd)
      then Some (with_senders (remove_nth i (senders s)) s)
      else None
  | None => None
  end.

(** Line 60 on a closed channel. *)
Definition send_on_closed (i : nat) (s : State) : option State :=
  match nth_error (senders s) i with
  | Some sd =>
      if mem (snd_dest sd) (closed s)
      then Some (crash "send on closed channel"
                       (with_senders (remove_nth i (senders s)) s))
      else None
  | None => None
  end.

(** Lines 107 and 119: the forwarding context is done. *)
Definition forward_done (j : nat) (s : State) : option State :=
  match nth_error (subs s) j with
  | Some sub =>
      if running (sub_pc sub) && ctx_done (cancelled s) (sub_ctx sub)
      then Some (forward_return j sub s)
      else None
  | None => None
  end.

(** Lines 109-112: the receive on a closed [in] yields [!ok]. *)
Definition forward_in_closed (j : nat) (s : State) : option State :=
  match nth_error (subs s) j with
  | Some sub =>
      if at_select (sub_pc sub) && mem (sub_in sub) (closed s)
      then Some (forward_return j sub s)
      else None
  | None => None
  end.

(** A reader's [v, ok := <-ch] on the typed channel. *)
Inductive RecvResult : Type :=
| RecvValue (v : Value) (pub : nat) (s : State)   (* ok = true *)
| RecvClosed                                      (* zero value, ok = false *)
| RecvBlocked.

(** The forwarder blocked in line 118 on [ch], if any. *)
Fixpoint find_ready (ch : ChanId) (l : list Subscription)
    : option (nat * Value * nat) :=
  match l with
  | [] => None
  | sub :: l' =>
      match Nat.eqb (sub_out sub) ch, sub_pc sub with
      | true, AtSend v p => Some (0, v, p)
      | _, _ =>
          match find_ready ch l' with
          | Some (j, v, p) => Some (S j, v, p)
          | None => None
          end
      end
  end.

Definition receive (ch : ChanId) (s : State) : RecvResult :=
  if mem ch (closed s) then RecvClosed
  else
    match find_ready ch (subs s) with
    | Some (j, v, p) =>
        RecvValue v p (with_subs (update_nth j (set_pc AtSelect) (subs s)) s)
    | None => RecvBlocked
    end.

Inductive Action : Type :=
| CallPublish (T : GoType) (ctx : Ctx) (e : ScopeId) (val : Value)
| CallSubscribe (T : GoType) (ctx : Ctx) (e : ScopeId)
| CallUnsub (u : UnsubFn)
| CallCancel (c : CancelId)
| Deliver (i j : nat)
| SenderDone (i : nat)
| SendOnClosed (i : nat)
| ForwardDone (j : nat)
| ForwardInClosed (j : nat)
| Receive (ch : ChanId).

(** One step of the program.  A panic of an API call unwinds the caller
    (who may recover, as the tests do).  A panic inside a goroutine of the
    package is recorded in [crashed]: the process is going down.  Until
    the runtime exits, the other goroutines still run (a reader may see
    the channel that the deferred [close(out)] closed), so no step is
    refused in a crashed state; the exit itself is the end of the run,
    and every prefix of a run is a run. *)
Definition step (a : Action) (s : State) : option State :=
  match a with
  | CallPublish T ctx e val => Some (outcome_state (PublishToScope T ctx e val s))
  | CallSubscribe T ctx e => Some (outcome_state (SubscribeToScope T ctx e s))
  | CallUnsub u => Some (call_unsub u s)
  | CallCancel c => Some (cancel c s)
  | Deliver i j => deliver i j s
  | SenderDone i => sender_done i s
  | SendOnClosed i => send_on_closed i s
  | ForwardDone j => forward_done j s
  | ForwardInClosed j => forward_in_closed j s
  | Receive ch =>
      match receive ch s with
      | RecvValue _ _ s' => Some s'
      | RecvClosed => Some s
      | RecvBlocked => None
      end
  end.

Fixpoint run (tr : list Action) (s : State) : option State :=
  match tr with
  | [] => Some s
  | a :: tr' =>
      match step a s with
      | Some s' => run tr' s'
      | None => None
      end
  end.

Definition reachable (s : State) : Prop := exists tr, run tr init = Some s.

(** ** The scenarios of [pubsub_test.go] *)

Definition testStruct : GoType := TStruct "testStruct" [] [TInt; TString].
Definition testInterface : GoType := TIface "testInterface" ["Test"].
Definition testImpl : GoType := TStruct "testImpl" ["Test"] [].
Definition error : GoType := TIface "error" ["Error"].

Definition after (tr : list Action) : State :=
  match run tr init with Some s => s | None => init end.

(** What a reader gets on channel [ch] after the trace [tr] from [init]. *)
Definition received (tr : list Action) (ch : ChanId) : option (option Value) :=
  match receive ch (after tr) with
  | RecvValue v _ _ => Some (Some v)
  | RecvClosed => Some None
  | RecvBlocked => None
  end.

(** ** Predicates and scenarios used in the statements *)

(** The invariants of the program state. *)
Record wf (s : State) : Prop := mkWf {
  (* channels and ids in use were handed out by the allocator *)
  wf_bound : forall sub, In sub (subs s) ->
      sub_in sub < fresh s /\ sub_out sub < fresh s /\ sub_id sub < fresh s;
  (* every subscription has channels of its own *)
  wf_outs : NoDup (map sub_out (subs s));
  wf_ins : NoDup (map sub_in (subs s));
  wf_in_out : forall a b, In a (subs s) -> In b (subs s) -> sub_in a <> sub_out b;
  (* a registered endpoint is the [untypedCh] of the subscription that
     stored it, under that subscription's scope, key and id *)
  wf_reg : forall e k sm id c, In (e, k, sm) (registry s) -> In (id, c) sm ->
      exists sub, In sub (subs s) /\ sub_in sub = c /\ sub_id sub = id
                  /\ sub_scope sub = e /\ key_of (sub_T sub) = k;
  (* only a returned forwarder has closed its [out] *)
  wf_closed : forall c, In c (closed s) ->
      exists sub, In sub (subs s) /\ sub_out sub = c /\ sub_pc sub = Returned;
  (* ... and a returned forwarder has closed it *)
  wf_returned : forall sub, In sub (subs s) -> sub_pc sub = Returned ->
      In (sub_out sub) (closed s);
  (* the forwarding context is done once the subscription's [cancel] ran *)
  wf_ctx : forall sub, In sub (subs s) ->
      ctx_done [sub_cancel sub] (sub_ctx sub) = true;
  (* ghost publish numbers are those of past calls *)
  wf_snd_pub : forall sd, In sd (senders s) -> snd_pub sd < npub s;
  wf_sub_pub : forall sub v p, In sub (subs s) -> sub_pc sub = AtSend v p -> p < npub s
}.

(** A subscription and its copy with another program point. *)
Definition same_sub (a b : Subscription) : Prop :=
  sub_scope a = sub_scope b /\ sub_T a = sub_T b /\ sub_id a = sub_id b /\
  sub_in a = sub_in b /\ sub_out a = sub_out b /\ sub_ctx a = sub_ctx b /\
  sub_cancel a = sub_cancel b.

(** The subscription's entry is in the subscriber set that a publish
    under its key looks up. *)
Definition registered (s : State) (sub : Subscription) : Prop :=
  exists subMap,
    Load regkey_eqb (sub_scope sub, key_of (sub_T sub)) (registry s) = Some subMap
    /\ In (sub_id sub, sub_in sub) subMap.

(** The reader's part of a schedule: a forwarder that holds a value hands
    it over and is back in its outer [select]. *)
Definition drain_trace (sub : Subscription) : list Action :=
  match sub_pc sub with
  | AtSend _ _ => [Receive (sub_out sub)]
  | _ => []
  end.

(** The state a successful [SubscribeToScope] leaves: the new subscription
    is registered under its key and its forwarder waits in the [select]. *)
Definition new_sub (T : GoType) (ctx : Ctx) (e : ScopeId) (s : State) : Subscription :=
  mkSub e T (2 + fresh s) (1 + fresh s) (fresh s)
        (WithCancel ctx (3 + fresh s)) (3 + fresh s) AtSelect.

(** The id of [u] is absent from the subscriber set [u] deletes from, and
    was handed out already (so no later subscription stores it again). *)
Definition unregistered (u : UnsubFn) (s : State) : Prop :=
  u_id u < fresh s
  /\ forall sm c, In ((u_scope u, u_key u), sm) (registry s) -> ~ In (u_id u, c) sm.

(** States that agree but for the order in which the cancelled contexts
    are listed. *)
Definition obs_eq (s1 s2 : State) : Prop :=
  fresh s1 = fresh s2 /\ registry s1 = registry s2
  /\ (forall c, mem c (cancelled s1) = mem c (cancelled s2))
  /\ closed s1 = closed s2 /\ senders s1 = senders s2 /\ subs s1 = subs s2
  /\ npub s1 = npub s2 /\ crashed s1 = crashed s2.

(** Every value on its way to forwarder [j] (in a sender that targets its
    endpoint [c], or held by the forwarder) stems from a publish call whose
    number satisfies [Q]. *)
Definition carries (Q : nat -> Prop) (j : nat) (c : ChanId) (s : State) : Prop :=
  (forall sd, In sd (senders s) -> snd_dest sd = c -> Q (snd_pub sd))
  /\ (forall sub v p, nth_error (subs s) j = Some sub ->
                      sub_pc sub = AtSend v p -> Q p).

Definition userError : GoType := TStruct "userError" ["Error"] [].

(** The cancel functions whose call makes a context done. *)
Fixpoint cancel_ids (ctx : Ctx) : list CancelId :=
  match ctx with
  | Background => []
  | WithCancel parent c => c :: cancel_ids parent
  end.

(** The caller's cancellable context of [TestPubSub_CtxCancelled]. *)
Definition callerCancel : CancelId := 100.

Definition callerCtx : Ctx := WithCancel Background callerCancel.

Definition intSub : Subscription := new_sub TInt callerCtx Global init.

Definition s_intSub : State := after [CallSubscribe TInt callerCtx Global].

(** What holds of a subscription in every state after its [unsub] was
    called: it is still the [j]-th subscription, its entry is gone and stays
    gone, its context is cancelled, and every value on its way to the
    forwarder was published before the call. *)
Definition unsubscribed (j : nat) (sub : Subscription) (n : nat) (x : State) : Prop :=
  wf x
  /\ (exists sub', nth_error (subs x) j = Some sub' /\ same_sub sub' sub)
  /\ unregistered (unsub_of sub) x
  /\ mem (sub_cancel sub) (cancelled x) = true
  /\ carries (fun p => p < n) j (sub_in sub) x.

Definition s_unsub : State := call_unsub (unsub_of intSub) s_intSub.

(** The typed channel [ch] of forwarder [j] is closed, or the forwarder's
    return, whose deferred [close(out)] closes it, is enabled. *)
Definition closes (j : nat) (ch : ChanId) (x : State) : Prop :=
  receive ch x = RecvClosed
  \/ exists x', step (ForwardDone j) x = Some x' /\ receive ch x' = RecvClosed.

(** What holds of a subscription in every state after publish call number
    [p] fanned out without a sender for it: no value on its way to the
    forwarder stems from that call. *)
Definition unobserved (j : nat) (sub : Subscription) (p : nat) (x : State) : Prop :=
  wf x
  /\ (exists sub', nth_error (subs x) j = Some sub' /\ same_sub sub' sub)
  /\ p < npub x
  /\ carries (fun q => q <> p) j (sub_in sub) x.

Definition s_ifaceSub : State := after [CallSubscribe testInterface Background Global].

Definition ifaceSub : Subscription := new_sub testInterface Background Global init.

(** Further invariants: subscription ids are unique, in a subscriber set
    too; senders target endpoints of subscriptions; no channel is closed
    twice; and the only panic a goroutine of the package can end in is
    that of line 115. *)
Record wf_ids (s : State) : Prop := mkWfIds {
  wi_ids : NoDup (map sub_id (subs s));
  wi_cancels : NoDup (map sub_cancel (subs s));
  wi_cancel_bound : forall sub, In sub (subs s) -> sub_cancel sub < fresh s;
  wi_dest : forall sd, In sd (senders s) ->
      exists sub, In sub (subs s) /\ sub_in sub = snd_dest sd;
  wi_keys : forall k sm, In (k, sm) (registry s) -> NoDup (map fst sm);
  wi_closed : NoDup (closed s);
  wi_crash : crashed s = None \/ crashed s = Some "mismatched type"
}.

(** The senders in [l] that publish call number [p] started for the
    endpoint [c]. *)
Definition senders_to (c : ChanId) (p : nat) (l : list Sender) : list Sender :=
  filter (fun sd => Nat.eqb (snd_dest sd) c && Nat.eqb (snd_pub sd) p) l.

(** A publish call as the compiler admits it: the value has the static
    type of the type parameter. *)
Definition well_typed_action (a : Action) : Prop :=
  match a with
  | CallPublish T _ _ val => has_type val T = true
  | _ => True
  end.

(** An interface value that is nil or holds a value of its dynamic type,
    which is a concrete type. *)
Definition well_boxed (a : any) : bool :=
  match a with
  | VNil => true
  | VBox dyn v => negb (is_iface dyn) && has_type v dyn
  | _ => false
  end.

(** Senders carry such interface values, and a forwarder holds a value of
    the subscribed type that is not the nil interface value. *)
Definition typed_state (s : State) : Prop :=
  (forall sd, In sd (senders s) -> well_boxed (snd_val sd) = true)
  /\ (forall sub v p, In sub (subs s) -> sub_pc sub = AtSend v p ->
                      has_type v (sub_T sub) = true /\ v <> VNil).

(** A subscription to [testInterface] whose forwarder holds a published
    [testImpl] value, and a subscription to [*string] whose forwarder holds
    a published nil pointer. *)
Definition tr_ifaceHeld : list Action :=
  [CallSubscribe testInterface Background Global;
   CallPublish testInterface Background Global (VBox testImpl (VStruct []));
   Deliver 0 0].

Definition tr_nilPtrHeld : list Action :=
  [CallSubscribe (TPtr TString) Background Global;
   CallPublish (TPtr TString) Background Global (VPtr None);
   Deliver 0 0].

(** Whether a forwarder holds, at line 119, a value of publish call [p]. *)
Definition holds (p : nat) (pc : ForwardPC) : nat :=
  match pc with
  | AtSend _ q => if Nat.eqb q p then 1 else 0
  | _ => 0
  end.

(** The values of publish call [p] on their way to the subscription at
    index [j] with untyped channel [c]: the senders blocked on [c], and
    the value its forwarder holds. *)
Definition in_flight (p j : nat) (c : ChanId) (s : State) : nat :=
  List.length (senders_to c p (senders s))
  + match nth_error (subs s) j with
    | Some sub => holds p (sub_pc sub)
    | None => 0
    end.

(** Whether the action takes a value of publish call [p] from [ch]. *)
Definition takes (p : nat) (ch : ChanId) (a : Action) (s : State) : nat :=
  match a with
  | Receive ch' =>
      if Nat.eqb ch' ch then
        match receive ch s with
        | RecvValue _ q _ => if Nat.eqb q p then 1 else 0
        | _ => 0
        end
      else 0
  | _ => 0
  end.

(** The number of values of publish call [p] that readers take from [ch]
    along a trace. *)
Fixpoint deliveries (p : nat) (ch : ChanId) (tr : list Action) (s : State) : nat :=
  match tr with
  | [] => 0
  | a :: tr' =>
      match step a s with
      | Some s' => takes p ch a s + deliveries p ch tr' s'
      | None => 0
      end
  end.

(** Two subscriptions to [int] on [Global]; [secondSub] is the later one. *)
Definition s_twoSubs : State :=
  after [CallSubscribe TInt callerCtx Global; CallSubscribe TInt Background Global].

Definition secondSub : Subscription := new_sub TInt Background Global s_intSub.

(** A subscription whose context was cancelled and whose forwarder has
    returned, without [unsub]; then a publish of the subscribed type. *)
Definition s_leak : State :=
  after [CallSubscribe TInt callerCtx Global; CallCancel callerCancel; ForwardDone 0;
         CallPublish TInt Background Global (VInt 1)].

(** A subscription, and a cancelled caller context. *)
Definition s_cancelledCtx : State :=
  after [CallSubscribe TInt Background Global; CallCancel callerCancel].

(** ** Lists and maps: basic facts *)

Lemma mem_In n l : mem n l = true <-> In n l.
Proof.
  unfold mem. rewrite existsb_exists. split.
  - intros [x [Hx He]]. apply Nat.eqb_eq in He. now subst.
  - intros H. exists n. split; [assumption | apply Nat.eqb_refl].
Qed.

Lemma mem_add n c l : mem n (add c l) = Nat.eqb n c || mem n l.
Proof.
  unfold add. destruct (mem c l) eqn:Hc; simpl; [|reflexivity].
  destruct (Nat.eqb n c) eqn:He; simpl; [|reflexivity].
  apply Nat.eqb_eq in He. now subst.
Qed.

Lemma add_idem c l : add c (add c l) = add c l.
Proof.
  unfold add at 1. rewrite mem_add, Nat.eqb_refl. reflexivity.
Qed.

Lemma add_mem c l : mem c l = true -> add c l = l.
Proof. unfold add. now intros ->. Qed.

Lemma add_comm_mem a b l n : mem n (add a (add b l)) = mem n (add b (add a l)).
Proof. rewrite !mem_add. now destruct (Nat.eqb n a), (Nat.eqb n b). Qed.

Lemma ctx_done_mono cs cs' ctx :
  (forall n, mem n cs = true -> mem n cs' = true) ->
  ctx_done cs ctx = true -> ctx_done cs' ctx = true.
Proof.
  intros H. induction ctx as [|p IH c]; simpl; [discriminate|].
  rewrite !orb_true_iff. intros [Hc | Hp]; [left; auto | right; auto].
Qed.

Lemma In_remove_nth {A} (x : A) i l : In x (remove_nth i l) -> In x l.
Proof.
  revert i. induction l as [|y l IH]; intros [|i]; simpl; auto.
  intros [-> | H]; eauto.
Qed.

Lemma nth_error_update_nth {A} (f : A -> A) l j :
  nth_error (update_nth j f l) j = option_map f (nth_error l j).
Proof.
  revert j. induction l as [|x l IH]; intros [|j]; simpl; auto.
Qed.

Lemma nth_error_update_nth_neq {A} (f : A -> A) l j j' :
  j <> j' -> nth_error (update_nth j f l) j' = nth_error l j'.
Proof.
  revert j j'. induction l as [|x l IH]; intros [|j] [|j'] H; simpl; auto;
    congruence.
Qed.

Lemma In_update_nth {A} (f : A -> A) x j l :
  In x (update_nth j f l) ->
  In x l \/ exists y, nth_error l j = Some y /\ x = f y.
Proof.
  revert j. induction l as [|y l IH]; intros [|j]; simpl; auto.
  - intros [<- | H]; eauto.
  - intros [<- | H]; auto. destruct (IH _ H) as [?|?]; auto.
Qed.

Lemma update_nth_In {A} (f : A -> A) y j l :
  In y l ->
  In y (update_nth j f l) \/ (nth_error l j = Some y /\ In (f y) (update_nth j f l)).
Proof.
  revert j. induction l as [|z l IH]; intros [|j]; simpl; auto.
  - intros [-> | H]; auto.
  - intros [-> | H]; auto. destruct (IH j H) as [?|[? ?]]; auto.
Qed.

Lemma map_update_nth {A B} (g : A -> B) (f : A -> A) j l :
  (forall x, g (f x) = g x) -> map g (update_nth j f l) = map g l.
Proof.
  intros H. revert j. induction l as [|y l IH]; intros [|j]; simpl; auto.
  - now rewrite H.
  - now rewrite IH.
Qed.

Lemma NoDup_map_inj {A B} (g : A -> B) l a b :
  NoDup (map g l) -> In a l -> In b l -> g a = g b -> a = b.
Proof.
  induction l as [|x l IH]; simpl; [tauto|].
  intros Hnd Ha Hb Heq. inversion Hnd as [|? ? Hnot Hnd']; subst.
  destruct Ha as [-> | Ha], Hb as [-> | Hb]; auto.
  - exfalso. apply Hnot. rewrite Heq. now apply in_map.
  - exfalso. apply Hnot. rewrite <- Heq. now apply in_map.
Qed.

Lemma NoDup_snoc {A} (l : list A) x : NoDup l -> ~ In x l -> NoDup (l ++ [x]).
Proof.
  induction l as [|y l IH]; simpl; intros Hnd Hx.
  - constructor; [tauto | constructor].
  - inversion Hnd; subst. constructor.
    + rewrite in_app_iff. simpl. intuition congruence.
    + apply IH; tauto.
Qed.

Lemma regkey_eqb_eq a b : regkey_eqb a b = true <-> a = b.
Proof.
  unfold regkey_eqb. destruct a as [e k], b as [e' k']; simpl.
  rewrite andb_true_iff, Nat.eqb_eq, any_eqb_eq. split.
  - intros [-> ->]; reflexivity.
  - intros H; inversion H; auto.
Qed.

Lemma regkey_eqb_refl a : regkey_eqb a a = true.
Proof. now apply regkey_eqb_eq. Qed.

Section SyncMapFacts.
Variables K V : Type.
Variable eqb : K -> K -> bool.
Hypothesis eqb_eq : forall a b, eqb a b = true <-> a = b.

Lemma Load_In k (m : SyncMap K V) v : Load eqb k m = Some v -> In (k, v) m.
Proof.
  induction m as [|[k' v'] m IH]; simpl; [discriminate|].
  destruct (eqb k k') eqn:He.
  - apply eqb_eq in He. intros [= ->]. left. now subst.
  - auto.
Qed.

Lemma Load_None k (m : SyncMap K V) v : Load eqb k m = None -> ~ In (k, v) m.
Proof.
  induction m as [|[k' v'] m IH]; simpl; [tauto|].
  destruct (eqb k k') eqn:He; [discriminate|].
  intros H [Heq | Hin]; [|now apply IH].
  inversion Heq; subst. assert (eqb k k = true) by now apply eqb_eq. congruence.
Qed.

Lemma In_LoadOrStore k v x (m : SyncMap K V) :
  In x (LoadOrStore eqb k v m) -> In x m \/ x = (k, v).
Proof.
  unfold LoadOrStore. destruct (Load eqb k m); auto.
  rewrite in_app_iff. simpl. intuition.
Qed.

Lemma Load_LoadOrStore k v (m : SyncMap K V) :
  exists v', Load eqb k (LoadOrStore eqb k v m) = Some v'
             /\ (Load eqb k m = Some v' \/ (Load eqb k m = None /\ v' = v)).
Proof.
  unfold LoadOrStore. destruct (Load eqb k m) as [v'|] eqn:HL.
  - exists v'. rewrite HL. auto.
  - exists v. split; [|auto].
    induction m as [|[k' w] m IH]; simpl in *.
    + assert (eqb k k = true) as -> by now apply eqb_eq. reflexivity.
    + destruct (eqb k k'); [discriminate | auto].
Qed.

Lemma In_Delete k x (m : SyncMap K V) :
  In x (Delete eqb k m) <-> In x m /\ fst x <> k.
Proof.
  unfold Delete. rewrite filter_In, negb_true_iff. split; intros [H1 H2]; split; auto.
  - intros <-. assert (eqb (fst x) (fst x) = true) by now apply eqb_eq. congruence.
  - destruct (eqb k (fst x)) eqn:He; auto. apply eqb_eq in He. congruence.
Qed.

Lemma In_Store k v x (m : SyncMap K V) :
  In x (Store eqb k v m) <-> (In x m /\ fst x <> k) \/ x = (k, v).
Proof.
  unfold Store. rewrite in_app_iff, In_Delete. simpl. intuition.
Qed.

Lemma Delete_absent k (m : SyncMap K V) :
  (forall v, ~ In (k, v) m) -> Delete eqb k m = m.
Proof.
  unfold Delete. induction m as [|[k' v'] m IH]; simpl; intros H; [reflexivity|].
  destruct (eqb k k') eqn:He; simpl.
  - apply eqb_eq in He. subst. exfalso. eapply H. left. reflexivity.
  - f_equal. apply IH. intros v Hin. eapply H. right. eassumption.
Qed.

Lemma Delete_idem k (m : SyncMap K V) :
  Delete eqb k (Delete eqb k m) = Delete eqb k m.
Proof.
  apply Delete_absent. intros v Hin. apply In_Delete in Hin. simpl in Hin. tauto.
Qed.

Lemma In_Alter k f x (m : SyncMap K V) :
  In x (Alter eqb k f m) <->
  (In x m /\ fst x <> k) \/ (exists v, In (k, v) m /\ x = (k, f v)).
Proof.
  unfold Alter. rewrite in_map_iff. split.
  - intros [[k' v'] [Hx Hin]]. simpl in Hx.
    destruct (eqb k k') eqn:He.
    + apply eqb_eq in He. subst. right. eauto.
    + subst. left. split; auto. simpl. intros ->.
      assert (eqb k k = true) by now apply eqb_eq. congruence.
  - intros [[Hin Hne] | [v [Hin ->]]].
    + exists x. split; auto. destruct (eqb k (fst x)) eqn:He; auto.
      apply eqb_eq in He. congruence.
    + exists (k, v). split; auto. simpl.
      assert (eqb k k = true) as -> by now apply eqb_eq. reflexivity.
Qed.

Lemma Load_Alter k f (m : SyncMap K V) :
  Load eqb k (Alter eqb k f m) = option_map f (Load eqb k m).
Proof.
  induction m as [|[k' v'] m IH]; simpl; [reflexivity|].
  destruct (eqb k k') eqn:He; simpl; rewrite He; auto.
Qed.

Lemma Alter_id k f (m : SyncMap K V) :
  (forall v, In (k, v) m -> f v = v) -> Alter eqb k f m = m.
Proof.
  unfold Alter. induction m as [|[k' v'] m IH]; simpl; intros H; [reflexivity|].
  rewrite IH by (intros; apply H; auto).
  destruct (eqb k k') eqn:He; [|reflexivity].
  apply eqb_eq in He. subst. rewrite H; auto.
Qed.

Lemma Alter_Alter k f g (m : SyncMap K V) :
  Alter eqb k f (Alter eqb k g m) = Alter eqb k (fun v => f (g v)) m.
Proof.
  unfold Alter. rewrite map_map. apply map_ext. intros [k' v']. simpl.
  destruct (eqb k k') eqn:He; simpl; rewrite He; reflexivity.
Qed.
End SyncMapFacts.

Lemma nat_eqb_eq : forall a b : nat, Nat.eqb a b = true <-> a = b.
Proof. exact Nat.eqb_eq. Qed.

(** ** Invariants of the program state *)

Lemma wf_init : wf init.
Proof.
  constructor; simpl; try tauto; try constructor.
Qed.

Lemma wf_cancel c s : wf s -> wf (cancel c s).
Proof. intros []; constructor; simpl; assumption. Qed.

Lemma wf_crash msg s : wf s -> wf (crash msg s).
Proof. intros []; constructor; simpl; assumption. Qed.

Lemma wf_with_senders l s :
  wf s -> (forall sd, In sd l -> In sd (senders s)) -> wf (with_senders l s).
Proof. intros [] H; constructor; simpl; auto. Qed.

Lemma same_sub_refl a : same_sub a a.
Proof. repeat split. Qed.

Lemma same_sub_set_pc pc a : same_sub (set_pc pc a) a.
Proof. repeat split. Qed.

Lemma same_sub_trans a b c : same_sub a b -> same_sub b c -> same_sub a c.
Proof. unfold same_sub. intuition congruence. Qed.

Lemma In_update_set_pc x j pc l :
  In x (update_nth j (set_pc pc) l) ->
  exists y, In y l /\ same_sub x y /\
            (x = y \/ (nth_error l j = Some y /\ sub_pc x = pc)).
Proof.
  intros H. apply In_update_nth in H. destruct H as [H | [y [Hy ->]]].
  - exists x. auto using same_sub_refl.
  - exists y. split; [eapply nth_error_In; eassumption|].
    split; [apply same_sub_set_pc | right; auto].
Qed.

Lemma update_set_pc_In y j pc l :
  In y l ->
  exists x, In x (update_nth j (set_pc pc) l) /\ same_sub x y /\
            (x = y \/ (nth_error l j = Some y /\ sub_pc x = pc)).
Proof.
  intros H. destruct (@update_nth_In _ (set_pc pc) y j l H) as [H' | [H1 H2]].
  - exists y. auto using same_sub_refl.
  - exists (set_pc pc y). split; [assumption|].
    split; [apply same_sub_set_pc | right; auto].
Qed.

(** Moving one forwarder to another program point keeps the invariants,
    provided it returns exactly when its channel gets closed. *)
Lemma wf_update s j pc sub cl :
  wf s -> nth_error (subs s) j = Some sub ->
  (sub_pc sub <> Returned \/ pc = Returned) ->
  (forall v p, pc = AtSend v p -> p < npub s) ->
  (pc = Returned -> In (sub_out sub) cl) ->
  (forall c, In c (closed s) -> In c cl) ->
  (forall c, In c cl -> In c (closed s) \/ (c = sub_out sub /\ pc = Returned)) ->
  wf (mkState (fresh s) (registry s) (cancelled s) cl (senders s)
              (update_nth j (set_pc pc) (subs s)) (npub s) (crashed s)).
Proof.
  intros [Hb Ho Hi Hio Hr Hc Hrt Hcx Hsp Hpp] Hj Hret Hpub Hcl1 Hcl2 Hcl3.
  assert (Hjn : nth_error (update_nth j (set_pc pc) (subs s)) j = Some (set_pc pc sub))
    by now rewrite nth_error_update_nth, Hj.
  constructor; simpl.
  - intros x Hx. apply In_update_set_pc in Hx.
    destruct Hx as [y [Hy [[_ [_ [E1 [E2 [E3 _]]]]] _]]].
    rewrite E1, E2, E3. auto.
  - rewrite map_update_nth; auto.
  - rewrite map_update_nth; auto.
  - intros a b Ha Hb'. apply In_update_set_pc in Ha, Hb'.
    destruct Ha as [a' [Ha [[_ [_ [_ [E1 _]]]] _]]].
    destruct Hb' as [b' [Hb' [[_ [_ [_ [_ [E2 _]]]]] _]]].
    rewrite E1, E2. auto.
  - intros e k sm id c H1 H2. destruct (Hr _ _ _ _ _ H1 H2) as [y [Hy [F1 [F2 [F3 F4]]]]].
    destruct (@update_set_pc_In y j pc _ Hy) as [x [Hx [[E1 [E2 [E3 [E4 _]]]] _]]].
    exists x. repeat split; congruence.
  - intros c Hin. destruct (Hcl3 _ Hin) as [Hold | [-> ->]].
    + destruct (Hc _ Hold) as [y [Hy [F1 F2]]].
      destruct (@update_set_pc_In y j pc _ Hy)
        as [x [Hx [[_ [_ [_ [_ [E _]]]]] [-> | [Hn Hp]]]]].
      * exists y. auto.
      * exists x. repeat split; try congruence.
        assert (y = sub) by congruence. subst y.
        destruct Hret; congruence.
    + exists (set_pc Returned sub). split; [eapply nth_error_In; eassumption|].
      split; reflexivity.
  - intros x Hx Hp. apply In_update_set_pc in Hx.
    destruct Hx as [y [Hy [[_ [_ [_ [_ [E _]]]]] [-> | [Hn Hpc]]]]].
    + auto.
    + assert (y = sub) by congruence. subst y. rewrite E. apply Hcl1. congruence.
  - intros x Hx. apply In_update_set_pc in Hx.
    destruct Hx as [y [Hy [[_ [_ [_ [_ [_ [E1 E2]]]]]] _]]].
    rewrite E1, E2. auto.
  - assumption.
  - intros x v p Hx Hp. apply In_update_set_pc in Hx.
    destruct Hx as [y [Hy [_ [-> | [_ Hpc]]]]].
    + eauto.
    + apply (Hpub v p). congruence.
Qed.

Lemma wf_set_pc s j pc sub :
  wf s -> nth_error (subs s) j = Some sub ->
  sub_pc sub <> Returned -> pc <> Returned ->
  (forall v p, pc = AtSend v p -> p < npub s) ->
  wf (with_subs (update_nth j (set_pc pc) (subs s)) s).
Proof.
  intros Hwf Hj H1 H2 Hpub. unfold with_subs.
  apply wf_update with (sub := sub); auto; tauto.
Qed.

Lemma wf_forward_return s j sub :
  wf s -> nth_error (subs s) j = Some sub -> wf (forward_return j sub s).
Proof.
  intros Hwf Hj. unfold forward_return, close_chan, with_subs. simpl.
  destruct (mem (sub_out sub) (closed s)) eqn:Hm.
  - apply wf_crash. apply mem_In in Hm.
    apply wf_update with (sub := sub); auto; discriminate.
  - apply (@wf_update s j Returned sub (sub_out sub :: closed s)); simpl; auto.
    + discriminate.
    + intros c [<- | Hin]; auto.
Qed.

Lemma wf_next_publish s : wf s -> wf (next_publish s).
Proof.
  intros [Hb Ho Hi Hio Hr Hc Hrt Hcx Hsp Hpp]. constructor; simpl; auto.
  - intros sd Hin. specialize (Hsp _ Hin). lia.
  - intros sub v p Hin Hp. specialize (Hpp _ _ _ Hin Hp). lia.
Qed.

Lemma wf_publish T ctx e val s :
  wf s -> wf (outcome_state (PublishToScope T ctx e val s)).
Proof.
  intros Hwf. unfold PublishToScope.
  destruct (negb (hashable_key (key_of T))); simpl; [now apply wf_next_publish|].
  destruct (Load regkey_eqb (e, key_of T) (registry s)) as [sm|]; simpl;
    [|now apply wf_next_publish].
  destruct Hwf as [Hb Ho Hi Hio Hr Hc Hrt Hcx Hsp Hpp]. constructor; simpl; auto.
  - intros sd Hin. apply in_app_iff in Hin. destruct Hin as [Hin | Hin].
    + specialize (Hsp _ Hin). lia.
    + apply in_map_iff in Hin. destruct Hin as [kv [<- _]]. simpl. lia.
  - intros sub v p Hin Hp. specialize (Hpp _ _ _ Hin Hp). lia.
Qed.

Lemma wf_subscribe T ctx e s :
  wf s -> wf (outcome_state (SubscribeToScope T ctx e s)).
Proof.
  intros [Hb Ho Hi Hio Hr Hc Hrt Hcx Hsp Hpp]. unfold SubscribeToScope.
  destruct (negb (hashable_key (key_of T))); simpl.
  - constructor; simpl; auto.
    intros sub Hin. specialize (Hb _ Hin). lia.
  - constructor; simpl; auto.
    + intros sub Hin. apply in_app_iff in Hin. destruct Hin as [Hin | [<- | []]].
      * specialize (Hb _ Hin). lia.
      * simpl. lia.
    + rewrite map_app. simpl. apply NoDup_snoc; [assumption|].
      intros Hin. apply in_map_iff in Hin. destruct Hin as [sub [Heq Hin]].
      specialize (Hb _ Hin). lia.
    + rewrite map_app. simpl. apply NoDup_snoc; [assumption|].
      intros Hin. apply in_map_iff in Hin. destruct Hin as [sub [Heq Hin]].
      specialize (Hb _ Hin). lia.
    + intros a b Ha Hb'. apply in_app_iff in Ha, Hb'.
      destruct Ha as [Ha | [<- | []]], Hb' as [Hb' | [<- | []]]; simpl.
      * auto.
      * specialize (Hb _ Ha). lia.
      * specialize (Hb _ Hb'). lia.
      * lia.
    + intros e' k sm id c H1 H2.
      apply (In_Alter regkey_eqb regkey_eqb_eq) in H1. simpl in H1.
      assert (Hold : forall sm0, In (e', k, sm0) (LoadOrStore regkey_eqb (e, key_of T) [] (registry s)) ->
                forall id0 c0, In (id0, c0) sm0 ->
                exists sub, In sub (subs s ++ [mkSub e T (S (S (fresh s))) (S (fresh s)) (fresh s)
                                                   (WithCancel ctx (S (S (S (fresh s))))) (S (S (S (fresh s)))) AtSelect])
                            /\ sub_in sub = c0 /\ sub_id sub = id0
                            /\ sub_scope sub = e' /\ key_of (sub_T sub) = k).
      { intros sm0 Hin id0 c0 Hin0. apply In_LoadOrStore in Hin.
        destruct Hin as [Hin | Heq].
        - destruct (Hr _ _ _ _ _ Hin Hin0) as [sub [? ?]].
          exists sub. split; [apply in_app_iff; auto | assumption].
        - inversion Heq; subst. destruct Hin0. }
      destruct H1 as [[H1 _] | [v [H1 Heq]]].
      * eapply Hold; eassumption.
      * inversion Heq; subst.
        apply (In_Store Nat.eqb nat_eqb_eq) in H2. destruct H2 as [[H2 _] | H2].
        -- eapply Hold; eassumption.
        -- inversion H2; subst.
           eexists. split; [apply in_app_iff; right; left; reflexivity|].
           simpl. auto.
    + intros c Hin. destruct (Hc _ Hin) as [sub [? ?]].
      exists sub. split; [apply in_app_iff; auto | assumption].
    + intros sub Hin Hp. apply in_app_iff in Hin.
      destruct Hin as [Hin | [<- | []]]; [auto | discriminate].
    + intros sub Hin. apply in_app_iff in Hin.
      destruct Hin as [Hin | [<- | []]]; [auto|].
      simpl. now rewrite Nat.eqb_refl.
    + intros sub v p Hin Hp. apply in_app_iff in Hin.
      destruct Hin as [Hin | [<- | []]]; [eauto | discriminate].
Qed.

Lemma wf_call_unsub u s : wf s -> wf (call_unsub u s).
Proof.
  intros [Hb Ho Hi Hio Hr Hc Hrt Hcx Hsp Hpp]. unfold call_unsub. apply wf_cancel.
  constructor; simpl; auto.
  intros e k sm id c H1 H2.
  apply (In_Alter regkey_eqb regkey_eqb_eq) in H1.
  destruct H1 as [[H1 _] | [v [H1 Heq]]]; [eauto|].
  inversion Heq; subst.
  apply (In_Delete Nat.eqb nat_eqb_eq) in H2. destruct H2 as [H2 _]. eauto.
Qed.

Lemma find_ready_spec ch l j v p :
  find_ready ch l = Some (j, v, p) ->
  exists sub, nth_error l j = Some sub /\ sub_out sub = ch /\ sub_pc sub = AtSend v p.
Proof.
  revert j. induction l as [|x l IH]; simpl; intros j H; [discriminate|].
  assert (Hrest : match find_ready ch l with
                  | Some (j0, v0, p0) => Some (S j0, v0, p0)
                  | None => None
                  end = Some (j, v, p) ->
                  exists sub, nth_error (x :: l) j = Some sub /\ sub_out sub = ch
                              /\ sub_pc sub = AtSend v p).
  { destruct (find_ready ch l) as [[[j0 v0] p0]|]; [|discriminate].
    intros [= <- <- <-]. simpl. now apply IH. }
  destruct (Nat.eqb (sub_out x) ch) eqn:He; [|auto].
  destruct (sub_pc x) eqn:Hpc; auto.
  inversion H; subst. exists x. apply Nat.eqb_eq in He. auto.
Qed.

(** In a well-formed state the forwarder blocked on [ch] is the only
    subscription with that channel. *)
Lemma find_ready_unique s j sub v p :
  wf s -> nth_error (subs s) j = Some sub -> sub_pc sub = AtSend v p ->
  find_ready (sub_out sub) (subs s) = Some (j, v, p).
Proof.
  intros Hwf. pose proof (wf_outs Hwf) as Hnd. revert Hnd j.
  generalize (subs s) as l. induction l as [|x l IH]; intros Hnd [|j] Hj Hpc;
    simpl in *; try discriminate.
  - inversion Hj; subst. now rewrite Nat.eqb_refl, Hpc.
  - inversion Hnd as [|? ? Hnot Hnd']; subst.
    destruct (Nat.eqb (sub_out x) (sub_out sub)) eqn:He.
    + exfalso. apply Nat.eqb_eq in He. apply Hnot. rewrite He.
      apply in_map. eapply nth_error_In; eassumption.
    + rewrite (IH Hnd' j Hj Hpc). reflexivity.
Qed.

Lemma wf_receive ch s v p s' :
  wf s -> receive ch s = RecvValue v p s' -> wf s'.
Proof.
  intros Hwf. unfold receive. destruct (mem ch (closed s)); [discriminate|].
  destruct (find_ready ch (subs s)) as [[[j v0] p0]|] eqn:Hf; [|discriminate].
  intros [= <- <- <-]. destruct (find_ready_spec _ _ Hf) as [sub [Hj [_ Hpc]]].
  apply wf_set_pc with (sub := sub); auto; try congruence; discriminate.
Qed.

Theorem wf_step a s s' : wf s -> step a s = Some s' -> wf s'.
Proof.
  intros Hwf. unfold step.
  destruct a as [T ctx e val | T ctx e | u | c | i j | i | i | j | j | ch].
  - intros [= <-]. now apply wf_publish.
  - intros [= <-]. now apply wf_subscribe.
  - intros [= <-]. now apply wf_call_unsub.
  - intros [= <-]. now apply wf_cancel.
  - unfold deliver.
    destruct (nth_error (senders s) i) as [sd|] eqn:Hi; [|discriminate].
    destruct (nth_error (subs s) j) as [sub|] eqn:Hj; [|discriminate].
    destruct (Nat.eqb (snd_dest sd) (sub_in sub) && at_select (sub_pc sub)
              && negb (mem (sub_in sub) (closed s))) eqn:Hg; [|discriminate].
    apply andb_true_iff in Hg. destruct Hg as [Hg _].
    apply andb_true_iff in Hg. destruct Hg as [_ Hsel].
    assert (Hws : wf (with_senders (remove_nth i (senders s)) s)).
    { apply wf_with_senders; auto. intros x. apply In_remove_nth. }
    destruct (type_assert (sub_T sub) (snd_val sd)) as [tv|]; intros [= <-].
    + apply (@wf_set_pc (with_senders (remove_nth i (senders s)) s) j _ sub); auto.
      * destruct (sub_pc sub); discriminate.
      * discriminate.
      * intros v p [= _ <-]. simpl. apply (wf_snd_pub Hwf).
        eapply nth_error_In; eassumption.
    + apply wf_crash. now apply wf_forward_return.
  - unfold sender_done.
    destruct (nth_error (senders s) i) as [sd|]; [|discriminate].
    destruct (ctx_done (cancelled s) (snd_ctx sd)); [|discriminate].
    intros [= <-]. apply wf_with_senders; auto. intros x. apply In_remove_nth.
  - unfold send_on_closed.
    destruct (nth_error (senders s) i) as [sd|]; [|discriminate].
    destruct (mem (snd_dest sd) (closed s)); [|discriminate].
    intros [= <-]. apply wf_crash, wf_with_senders; auto.
    intros x. apply In_remove_nth.
  - unfold forward_done.
    destruct (nth_error (subs s) j) as [sub|] eqn:Hj; [|discriminate].
    destruct (running (sub_pc sub) && ctx_done (cancelled s) (sub_ctx sub));
      [|discriminate].
    intros [= <-]. now apply wf_forward_return.
  - unfold forward_in_closed.
    destruct (nth_error (subs s) j) as [sub|] eqn:Hj; [|discriminate].
    destruct (at_select (sub_pc sub) && mem (sub_in sub) (closed s)); [|discriminate].
    intros [= <-]. now apply wf_forward_return.
  - destruct (receive ch s) as [v p s0| |] eqn:Hr; [| |discriminate].
    + intros [= <-]. eapply wf_receive; eassumption.
    + intros [= <-]. assumption.
Qed.

(** Any property kept by every step is kept along a trace. *)
Lemma run_invariant (I : State -> Prop) :
  (forall a s s', I s -> step a s = Some s' -> I s') ->
  forall tr s s', I s -> run tr s = Some s' -> I s'.
Proof.
  intros Hstep. induction tr as [|a tr IH]; simpl; intros s s' Hs.
  - intros [= <-]. assumption.
  - destruct (step a s) as [s1|] eqn:Ha; [|discriminate].
    apply IH. eapply Hstep; eassumption.
Qed.

Lemma wf_run tr s s' : wf s -> run tr s = Some s' -> wf s'.
Proof. apply run_invariant. intros a s0 s1. apply wf_step. Qed.

Lemma run_app tr1 tr2 s :
  run (tr1 ++ tr2) s = match run tr1 s with Some s1 => run tr2 s1 | None => None end.
Proof.
  revert s. induction tr1 as [|a tr1 IH]; simpl; intros s; [reflexivity|].
  destruct (step a s); auto.
Qed.

Theorem reachable_wf s : reachable s -> wf s.
Proof. intros [tr Htr]. eapply wf_run; [apply wf_init | eassumption]. Qed.

Lemma reachable_run tr s s' : reachable s -> run tr s = Some s' -> reachable s'.
Proof.
  intros [tr0 H0] H. exists (tr0 ++ tr). now rewrite run_app, H0.
Qed.

(** In-channels are never closed. *)
Lemma wf_in_open s sub : wf s -> In sub (subs s) -> mem (sub_in sub) (closed s) = false.
Proof.
  intros Hwf Hin. destruct (mem (sub_in sub) (closed s)) eqn:Hm; [|reflexivity].
  apply mem_In in Hm. destruct (wf_closed Hwf _ Hm) as [b [Hb [Heq _]]].
  exfalso. apply (wf_in_out Hwf sub b Hin Hb). congruence.
Qed.

(** A forwarder that has not returned has not closed its channel. *)
Lemma wf_out_open s sub :
  wf s -> In sub (subs s) -> sub_pc sub <> Returned ->
  mem (sub_out sub) (closed s) = false.
Proof.
  intros Hwf Hin Hpc. destruct (mem (sub_out sub) (closed s)) eqn:Hm; [|reflexivity].
  apply mem_In in Hm. destruct (wf_closed Hwf _ Hm) as [b [Hb [Heq Hret]]].
  assert (b = sub) by (eapply NoDup_map_inj; eauto using wf_outs). congruence.
Qed.

(** ** Registry keys *)

Lemma key_of_iface T : is_iface T = true -> key_of T = VNil.
Proof. unfold key_of, to_any. destruct T; simpl; intros H; try discriminate; reflexivity. Qed.

Lemma key_of_concrete T : is_iface T = false -> key_of T = VBox T (zero_value T).
Proof. unfold key_of, to_any. now intros ->. Qed.

Lemma key_of_concrete_inj T1 T2 :
  is_iface T1 = false -> key_of T1 = key_of T2 -> T1 = T2.
Proof.
  intros H1 Heq. rewrite (key_of_concrete _ H1) in Heq.
  destruct (is_iface T2) eqn:H2.
  - rewrite (key_of_iface _ H2) in Heq. discriminate.
  - rewrite (key_of_concrete _ H2) in Heq. now inversion Heq.
Qed.

Lemma hashable_comparable T : hashable T = comparable T.
Proof.
  unfold hashable. destruct (is_iface T) eqn:Hi.
  - rewrite (key_of_iface _ Hi). now destruct T.
  - now rewrite (key_of_concrete _ Hi).
Qed.

(** The type assertion gives back a published value of the subscribed
    type, except the nil interface value. *)
Lemma type_assert_to_any T v :
  has_type v T = true -> (is_iface T = true -> v <> VNil) ->
  type_assert T (to_any T v) = Some v.
Proof.
  intros Hty Hnil. unfold to_any. destruct (is_iface T) eqn:Hi.
  - destruct T; try discriminate. destruct v; try discriminate.
    + exfalso. now apply Hnil.
    + simpl in *. apply andb_true_iff in Hty. destruct Hty as [Hty _].
      apply andb_true_iff in Hty. destruct Hty as [_ ->]. reflexivity.
  - simpl. now rewrite Hi, type_eqb_refl.
Qed.

(** ** Publishing to a registered subscription *)

(** [PublishToScope] under a hashable key with a subscriber set starts one
    sender per entry. *)
Lemma publish_spawns T ctx e val s subMap id c :
  hashable T = true ->
  Load regkey_eqb (e, key_of T) (registry s) = Some subMap ->
  In (id, c) subMap ->
  exists s1 i,
    PublishToScope T ctx e val s = Return tt s1
    /\ nth_error (senders s1) i = Some (mkSender c (to_any T val) ctx (npub s))
    /\ subs s1 = subs s /\ closed s1 = closed s /\ crashed s1 = crashed s
    /\ registry s1 = registry s /\ npub s1 = S (npub s).
Proof.
  intros Hh HL Hin. unfold PublishToScope. unfold hashable in Hh. rewrite Hh, HL. simpl.
  destruct (In_nth_error _ _ Hin) as [n Hn].
  eexists. exists (List.length (senders s) + n). split; [reflexivity|]. simpl.
  repeat split.
  rewrite nth_error_app2 by lia.
  replace (List.length (senders s) + n - List.length (senders s)) with n by lia.
  rewrite nth_error_map, Hn. reflexivity.
Qed.

(** The rendezvous of a sender with the forwarder it targets. *)
Lemma deliver_eq i j s sd sub :
  nth_error (senders s) i = Some sd ->
  nth_error (subs s) j = Some sub ->
  snd_dest sd = sub_in sub -> sub_pc sub = AtSelect ->
  mem (sub_in sub) (closed s) = false ->
  deliver i j s =
  match type_assert (sub_T sub) (snd_val sd) with
  | Some typedVal =>
      Some (with_subs (update_nth j (set_pc (AtSend typedVal (snd_pub sd))) (subs s))
                      (with_senders (remove_nth i (senders s)) s))
  | None => Some (crash "mismatched type"
                         (forward_return j sub (with_senders (remove_nth i (senders s)) s)))
  end.
Proof.
  intros Hi Hj Hd Hpc Hm. unfold deliver.
  now rewrite Hi, Hj, Hd, Hpc, Hm, Nat.eqb_refl.
Qed.

Lemma drain s j sub :
  wf s -> crashed s = None ->
  nth_error (subs s) j = Some sub -> running (sub_pc sub) = true ->
  exists s',
    run (drain_trace sub) s = Some s' /\ wf s' /\ crashed s' = None
    /\ nth_error (subs s') j = Some (set_pc AtSelect sub)
    /\ senders s' = senders s /\ closed s' = closed s /\ npub s' = npub s.
Proof.
  intros Hwf Hcr Hj Hrun. unfold drain_trace.
  destruct (sub_pc sub) as [|v p|] eqn:Hpc; [| |discriminate].
  - exists s. simpl. split; [reflexivity|]. split; [assumption|].
    split; [assumption|]. split; [|auto].
    rewrite Hj. f_equal. destruct sub; simpl in *. now subst.
  - pose proof (@find_ready_unique s j sub v p Hwf Hj Hpc) as Hf.
    assert (Ho : mem (sub_out sub) (closed s) = false).
    { apply wf_out_open; [assumption | eapply nth_error_In; eassumption | congruence]. }
    assert (Hr : receive (sub_out sub) s
                 = RecvValue v p (with_subs (update_nth j (set_pc AtSelect) (subs s)) s)).
    { unfold receive. now rewrite Ho, Hf. }
    eexists. simpl. unfold step. rewrite Hr.
    split; [reflexivity|]. split; [eapply wf_receive; eassumption|]. simpl.
    repeat split; auto. now rewrite nth_error_update_nth, Hj.
Qed.

(** Publishing under the key of a registered subscription whose forwarder
    runs: there is a schedule on which the value reaches the forwarder, and
    what happens next is decided by the type assertion alone. *)
Lemma publish_reaches s j sub T ctx val :
  wf s -> crashed s = None ->
  nth_error (subs s) j = Some sub -> running (sub_pc sub) = true ->
  registered s sub ->
  hashable T = true -> key_of T = key_of (sub_T sub) ->
  exists s1 i s2,
    PublishToScope T ctx (sub_scope sub) val s = Return tt s1
    /\ nth_error (senders s1) i = Some (mkSender (sub_in sub) (to_any T val) ctx (npub s))
    /\ run (drain_trace sub ++ [Deliver i j]) s1 = Some s2 /\ wf s2
    /\ match type_assert (sub_T sub) (to_any T val) with
       | Some typedVal =>
           crashed s2 = None
           /\ nth_error (subs s2) j = Some (set_pc (AtSend typedVal (npub s)) sub)
       | None => crashed s2 = Some "mismatched type" /\ In (sub_out sub) (closed s2)
       end.
Proof.
  intros Hwf Hcr Hj Hrun [subMap [HL Hin]] Hh Hk. rewrite <- Hk in HL.
  destruct (@publish_spawns T ctx (sub_scope sub) val s subMap _ _ Hh HL Hin)
    as [s1 [i [Hp [Hi [Hsubs [Hcl [Hcr1 _]]]]]]].
  assert (Hwf1 : wf s1).
  { pose proof (@wf_publish T ctx (sub_scope sub) val s Hwf) as H. now rewrite Hp in H. }
  assert (Hj1 : nth_error (subs s1) j = Some sub) by congruence.
  assert (Hc1 : crashed s1 = None) by congruence.
  destruct (@drain s1 j sub Hwf1 Hc1 Hj1 Hrun)
    as [s1' [Htr [Hwf1' [Hcr1' [Hj1' [Hsn [Hcl' _]]]]]]].
  assert (Hd : deliver i j s1' =
    match type_assert (sub_T sub) (to_any T val) with
    | Some typedVal =>
        Some (with_subs (update_nth j (set_pc (AtSend typedVal (npub s))) (subs s1'))
                        (with_senders (remove_nth i (senders s1')) s1'))
    | None =>
        Some (crash "mismatched type"
                (forward_return j (set_pc AtSelect sub)
                   (with_senders (remove_nth i (senders s1')) s1')))
    end).
  { rewrite (@deliver_eq i j s1' (mkSender (sub_in sub) (to_any T val) ctx (npub s))
                         (set_pc AtSelect sub)); auto.
    - now rewrite Hsn.
    - apply (@wf_in_open s1' (set_pc AtSelect sub)); auto.
      eapply nth_error_In; eassumption. }
  assert (Hstep : step (Deliver i j) s1' = deliver i j s1').
  { reflexivity. }
  exists s1, i.
  destruct (type_assert (sub_T sub) (to_any T val)) as [tv|].
  - eexists. split; [exact Hp|]. split; [exact Hi|].
    split; [rewrite run_app, Htr; simpl; rewrite ?Hstep, Hd; reflexivity|].
    split; [eapply wf_step; [exact Hwf1' | rewrite Hstep; exact Hd]|].
    simpl. split; [assumption|]. now rewrite nth_error_update_nth, Hj1'.
  - eexists. split; [exact Hp|]. split; [exact Hi|].
    split; [rewrite run_app, Htr; simpl; rewrite ?Hstep, Hd; reflexivity|].
    split; [eapply wf_step; [exact Hwf1' | rewrite Hstep; exact Hd]|].
    split; [reflexivity|].
    unfold forward_return, close_chan. simpl.
    destruct (mem (sub_out sub) (closed s1')) eqn:Hm; simpl;
      [now apply mem_In | now left].
Qed.

(** A reader of the channel of a forwarder that holds a value receives it. *)
Lemma receive_held s j sub v p :
  wf s -> nth_error (subs s) j = Some sub -> sub_pc sub = AtSend v p ->
  receive (sub_out sub) s
  = RecvValue v p (with_subs (update_nth j (set_pc AtSelect) (subs s)) s).
Proof.
  intros Hwf Hj Hpc. unfold receive.
  rewrite (@wf_out_open s sub Hwf (nth_error_In _ _ Hj)) by congruence.
  now rewrite (@find_ready_unique s j sub v p Hwf Hj Hpc).
Qed.

(** ... and when the assertion succeeds, a reader of the subscription's
    channel receives exactly the asserted value. *)
Lemma publish_delivers s j sub T ctx val typedVal :
  wf s -> crashed s = None ->
  nth_error (subs s) j = Some sub -> running (sub_pc sub) = true ->
  registered s sub ->
  hashable T = true -> key_of T = key_of (sub_T sub) ->
  type_assert (sub_T sub) (to_any T val) = Some typedVal ->
  exists s1 i s2 s3,
    PublishToScope T ctx (sub_scope sub) val s = Return tt s1
    /\ nth_error (senders s1) i = Some (mkSender (sub_in sub) (to_any T val) ctx (npub s))
    /\ run (drain_trace sub ++ [Deliver i j]) s1 = Some s2
    /\ receive (sub_out sub) s2 = RecvValue typedVal (npub s) s3.
Proof.
  intros Hwf Hcr Hj Hrun Hreg Hh Hk Hta.
  destruct (@publish_reaches s j sub T ctx val Hwf Hcr Hj Hrun Hreg Hh Hk)
    as [s1 [i [s2 [Hp [Hi [Htr [Hwf2 Hres]]]]]]].
  rewrite Hta in Hres. destruct Hres as [_ Hj2].
  exists s1, i, s2. eexists. split; [assumption|]. split; [assumption|].
  split; [assumption|].
  apply (@receive_held s2 j _ typedVal (npub s) Hwf2 Hj2 eq_refl).
Qed.

Lemma subscribe_registers T ctx e s :
  hashable T = true ->
  exists s1,
    SubscribeToScope T ctx e s = Return (fresh s, unsub_of (new_sub T ctx e s)) s1
    /\ nth_error (subs s1) (List.length (subs s)) = Some (new_sub T ctx e s)
    /\ registered s1 (new_sub T ctx e s)
    /\ crashed s1 = crashed s /\ npub s1 = npub s.
Proof.
  intros Hh. unfold SubscribeToScope. unfold hashable in Hh. rewrite Hh. simpl.
  eexists. split; [reflexivity|]. simpl. split; [|split; [|split; reflexivity]].
  - rewrite nth_error_app2 by lia. now rewrite Nat.sub_diag.
  - unfold registered. simpl.
    rewrite (Load_Alter regkey_eqb).
    destruct (Load_LoadOrStore regkey_eqb regkey_eqb_eq (e, key_of T) [] (registry s))
      as [v' [Hv _]].
    eexists. split.
    + etransitivity; [apply f_equal; exact Hv | reflexivity].
    + apply (In_Store Nat.eqb nat_eqb_eq). now right.
Qed.

(** ** What a step does, case by case *)

Lemma step_cases a s s' :
  step a s = Some s' ->
  match a with
  | CallPublish T ctx e val => s' = outcome_state (PublishToScope T ctx e val s)
  | CallSubscribe T ctx e => s' = outcome_state (SubscribeToScope T ctx e s)
  | CallUnsub u => s' = call_unsub u s
  | CallCancel c => s' = cancel c s
  | Deliver i j =>
      exists sd sub,
        nth_error (senders s) i = Some sd /\ nth_error (subs s) j = Some sub
        /\ snd_dest sd = sub_in sub /\ sub_pc sub = AtSelect
        /\ ((exists tv, type_assert (sub_T sub) (snd_val sd) = Some tv
                        /\ s' = with_subs
                                  (update_nth j (set_pc (AtSend tv (snd_pub sd))) (subs s))
                                  (with_senders (remove_nth i (senders s)) s))
            \/ (type_assert (sub_T sub) (snd_val sd) = None
                /\ s' = crash "mismatched type"
                              (forward_return j sub
                                 (with_senders (remove_nth i (senders s)) s))))
  | SenderDone i =>
      exists sd, nth_error (senders s) i = Some sd
                 /\ ctx_done (cancelled s) (snd_ctx sd) = true
                 /\ s' = with_senders (remove_nth i (senders s)) s
  | SendOnClosed i =>
      exists sd, nth_error (senders s) i = Some sd
                 /\ mem (snd_dest sd) (closed s) = true
                 /\ s' = crash "send on closed channel"
                               (with_senders (remove_nth i (senders s)) s)
  | ForwardDone j =>
      exists sub, nth_error (subs s) j = Some sub /\ running (sub_pc sub) = true
                  /\ ctx_done (cancelled s) (sub_ctx sub) = true
                  /\ s' = forward_return j sub s
  | ForwardInClosed j =>
      exists sub, nth_error (subs s) j = Some sub /\ sub_pc sub = AtSelect
                  /\ mem (sub_in sub) (closed s) = true
                  /\ s' = forward_return j sub s
  | Receive ch =>
      (mem ch (closed s) = true /\ s' = s)
      \/ (exists j sub v p,
             nth_error (subs s) j = Some sub /\ sub_out sub = ch
             /\ sub_pc sub = AtSend v p
             /\ receive ch s = RecvValue v p s'
             /\ s' = with_subs (update_nth j (set_pc AtSelect) (subs s)) s)
  end.
Proof.
  unfold step. intros H.
  destruct a as [T ctx e val | T ctx e | u | c | i j | i | i | j | j | ch];
    try (now inversion H).
  - unfold deliver in H.
    destruct (nth_error (senders s) i) as [sd|]; [|discriminate].
    destruct (nth_error (subs s) j) as [sub|]; [|discriminate].
    destruct (Nat.eqb (snd_dest sd) (sub_in sub)) eqn:He; [|discriminate].
    destruct (sub_pc sub) eqn:Hpc; try discriminate. simpl in H.
    destruct (mem (sub_in sub) (closed s)); [discriminate|]. simpl in H.
    apply Nat.eqb_eq in He. exists sd, sub. repeat split; auto.
    destruct (type_assert (sub_T sub) (snd_val sd)) as [tv|]; inversion H; eauto.
  - unfold sender_done in H.
    destruct (nth_error (senders s) i) as [sd|]; [|discriminate].
    destruct (ctx_done (cancelled s) (snd_ctx sd)) eqn:Hd; [|discriminate].
    inversion H. eauto.
  - unfold send_on_closed in H.
    destruct (nth_error (senders s) i) as [sd|]; [|discriminate].
    destruct (mem (snd_dest sd) (closed s)) eqn:Hd; [|discriminate].
    inversion H. eauto.
  - unfold forward_done in H.
    destruct (nth_error (subs s) j) as [sub|]; [|discriminate].
    destruct (running (sub_pc sub)) eqn:Hr; [|discriminate].
    destruct (ctx_done (cancelled s) (sub_ctx sub)) eqn:Hd; [|discriminate].
    inversion H. eauto.
  - unfold forward_in_closed in H.
    destruct (nth_error (subs s) j) as [sub|]; [|discriminate].
    destruct (sub_pc sub) eqn:Hpc; try discriminate. simpl in H.
    destruct (mem (sub_in sub) (closed s)) eqn:Hd; [|discriminate].
    inversion H. exists sub. auto.
  - unfold receive in *. destruct (mem ch (closed s)) eqn:Hm.
    + inversion H. auto.
    + destruct (find_ready ch (subs s)) as [[[j v] p]|] eqn:Hf; [|discriminate].
      inversion H. right. destruct (find_ready_spec _ _ Hf) as [sub [Hj [Ho Hp]]].
      exists j, sub, v, p. auto.
Qed.

Lemma forward_return_fields j sub s :
  subs (forward_return j sub s) = update_nth j (set_pc Returned) (subs s)
  /\ registry (forward_return j sub s) = registry s
  /\ cancelled (forward_return j sub s) = cancelled s
  /\ senders (forward_return j sub s) = senders s
  /\ fresh (forward_return j sub s) = fresh s
  /\ npub (forward_return j sub s) = npub s
  /\ In (sub_out sub) (closed (forward_return j sub s))
  /\ (forall c, In c (closed s) -> In c (closed (forward_return j sub s)))
  /\ (mem (sub_out sub) (closed s) = false ->
      crashed (forward_return j sub s) = crashed s
      /\ closed (forward_return j sub s) = sub_out sub :: closed s).
Proof.
  unfold forward_return, close_chan. simpl.
  destruct (mem (sub_out sub) (closed s)) eqn:Hm; simpl; repeat split; auto;
    try discriminate.
  now apply mem_In.
Qed.

Lemma forward_crash_fields msg j sub s :
  subs (crash msg (forward_return j sub s)) = update_nth j (set_pc Returned) (subs s)
  /\ registry (crash msg (forward_return j sub s)) = registry s
  /\ cancelled (crash msg (forward_return j sub s)) = cancelled s
  /\ senders (crash msg (forward_return j sub s)) = senders s
  /\ fresh (crash msg (forward_return j sub s)) = fresh s
  /\ npub (crash msg (forward_return j sub s)) = npub s
  /\ (forall c, In c (closed s) -> In c (closed (crash msg (forward_return j sub s)))).
Proof.
  destruct (forward_return_fields j sub s) as [H1 [H2 [H3 [H4 [H5 [H6 [_ [H7 _]]]]]]]].
  simpl. auto 10.
Qed.

(** Subscriptions stay where they are; only their program point moves. *)
Lemma step_sub_persist a s s' j sub :
  step a s = Some s' -> nth_error (subs s) j = Some sub ->
  exists sub', nth_error (subs s') j = Some sub' /\ same_sub sub' sub.
Proof.
  intros Hstep Hj.
  assert (Hupd : forall k pc,
             exists sub', nth_error (update_nth k (set_pc pc) (subs s)) j = Some sub'
                          /\ same_sub sub' sub).
  { intros k pc. destruct (Nat.eq_dec k j) as [-> | Hne].
    - rewrite nth_error_update_nth, Hj. simpl. eauto using same_sub_set_pc.
    - rewrite nth_error_update_nth_neq by assumption. eauto using same_sub_refl. }
  apply step_cases in Hstep. rename Hstep into Hs.
  destruct a as [T ctx e val | T ctx e | u | c | i k | i | i | k | k | ch].
  - subst s'. unfold PublishToScope.
    destruct (negb (hashable_key (key_of T))); simpl; eauto using same_sub_refl.
    destruct (Load regkey_eqb (e, key_of T) (registry s)); simpl;
      eauto using same_sub_refl.
  - subst s'. unfold SubscribeToScope.
    destruct (negb (hashable_key (key_of T))); simpl; eauto using same_sub_refl.
    exists sub. split; [|apply same_sub_refl].
    rewrite nth_error_app1; [assumption|]. apply nth_error_Some. congruence.
  - subst s'. simpl. eauto using same_sub_refl.
  - subst s'. simpl. eauto using same_sub_refl.
  - destruct Hs as [sd [sb [_ [_ [_ [_ [[tv [_ ->]] | [_ ->]]]]]]]].
    + simpl. auto.
    + destruct (forward_crash_fields "mismatched type" k sb
                  (with_senders (remove_nth i (senders s)) s)) as [-> _].
      simpl. auto.
  - destruct Hs as [sd [_ [_ ->]]]. simpl. eauto using same_sub_refl.
  - destruct Hs as [sd [_ [_ ->]]]. simpl. eauto using same_sub_refl.
  - destruct Hs as [sb [_ [_ [_ ->]]]].
    destruct (forward_return_fields k sb s) as [-> _]. auto.
  - destruct Hs as [sb [_ [_ [_ ->]]]].
    destruct (forward_return_fields k sb s) as [-> _]. auto.
  - destruct Hs as [[_ ->] | [k [sb [v [p [_ [_ [_ [_ ->]]]]]]]]]; simpl;
      eauto using same_sub_refl.
Qed.

Lemma step_cancelled_mono a s s' c :
  step a s = Some s' -> mem c (cancelled s) = true -> mem c (cancelled s') = true.
Proof.
  intros Hstep Hc. apply step_cases in Hstep. rename Hstep into Hs.
  destruct a as [T ctx e val | T ctx e | u | c' | i k | i | i | k | k | ch].
  - subst s'. unfold PublishToScope.
    destruct (negb (hashable_key (key_of T))); simpl; auto.
    destruct (Load regkey_eqb (e, key_of T) (registry s)); simpl; auto.
  - subst s'. unfold SubscribeToScope.
    destruct (negb (hashable_key (key_of T))); simpl; auto.
  - subst s'. simpl. rewrite mem_add, Hc. apply orb_true_r.
  - subst s'. simpl. rewrite mem_add, Hc. apply orb_true_r.
  - destruct Hs as [sd [sb [_ [_ [_ [_ [[tv [_ ->]] | [_ ->]]]]]]]].
    + simpl. auto.
    + destruct (forward_crash_fields "mismatched type" k sb
                  (with_senders (remove_nth i (senders s)) s)) as [_ [_ [-> _]]].
      simpl. auto.
  - destruct Hs as [sd [_ [_ ->]]]. simpl. auto.
  - destruct Hs as [sd [_ [_ ->]]]. simpl. auto.
  - destruct Hs as [sb [_ [_ [_ ->]]]].
    destruct (forward_return_fields k sb s) as [_ [_ [-> _]]]. auto.
  - destruct Hs as [sb [_ [_ [_ ->]]]].
    destruct (forward_return_fields k sb s) as [_ [_ [-> _]]]. auto.
  - destruct Hs as [[_ ->] | [k [sb [v [p [_ [_ [_ [_ ->]]]]]]]]]; simpl; auto.
Qed.

Lemma step_closed_mono a s s' c :
  step a s = Some s' -> In c (closed s) -> In c (closed s').
Proof.
  intros Hstep Hc. apply step_cases in Hstep. rename Hstep into Hs.
  destruct a as [T ctx e val | T ctx e | u | c' | i k | i | i | k | k | ch].
  - subst s'. unfold PublishToScope.
    destruct (negb (hashable_key (key_of T))); simpl; auto.
    destruct (Load regkey_eqb (e, key_of T) (registry s)); simpl; auto.
  - subst s'. unfold SubscribeToScope.
    destruct (negb (hashable_key (key_of T))); simpl; auto.
  - subst s'. simpl. auto.
  - subst s'. simpl. auto.
  - destruct Hs as [sd [sb [_ [_ [_ [_ [[tv [_ ->]] | [_ ->]]]]]]]].
    + simpl. auto.
    + now apply forward_crash_fields.
  - destruct Hs as [sd [_ [_ ->]]]. simpl. auto.
  - destruct Hs as [sd [_ [_ ->]]]. simpl. auto.
  - destruct Hs as [sb [_ [_ [_ ->]]]]. now apply forward_return_fields.
  - destruct Hs as [sb [_ [_ [_ ->]]]]. now apply forward_return_fields.
  - destruct Hs as [[_ ->] | [k [sb [v [p [_ [_ [_ [_ ->]]]]]]]]]; simpl; auto.
Qed.

(** ** Unsubscribing *)

Lemma unregistered_call_unsub u s :
  u_id u < fresh s -> unregistered u (call_unsub u s).
Proof.
  intros Hlt. split; [assumption|]. simpl. intros sm c Hin Hc.
  apply (In_Alter regkey_eqb regkey_eqb_eq) in Hin.
  destruct Hin as [[_ Hne] | [v [_ Heq]]]; [now apply Hne|].
  inversion Heq; subst. apply (In_Delete Nat.eqb nat_eqb_eq) in Hc.
  simpl in Hc. tauto.
Qed.

Lemma unregistered_step u a s s' :
  unregistered u s -> step a s = Some s' -> unregistered u s'.
Proof.
  intros [Hlt Hun] Hstep. apply step_cases in Hstep. rename Hstep into Hs.
  destruct a as [T ctx e val | T ctx e | u' | c' | i k | i | i | k | k | ch].
  - subst s'. unfold PublishToScope.
    destruct (negb (hashable_key (key_of T))); simpl; [split; assumption|].
    destruct (Load regkey_eqb (e, key_of T) (registry s)); simpl; split; assumption.
  - subst s'. unfold SubscribeToScope.
    destruct (negb (hashable_key (key_of T))); simpl.
    + split; simpl; [lia | assumption].
    + split; simpl; [lia|]. intros sm c Hin Hc.
      assert (Hold : forall sm0, In ((u_scope u, u_key u), sm0)
                                    (LoadOrStore regkey_eqb (e, key_of T) [] (registry s)) ->
                                 ~ In (u_id u, c) sm0).
      { intros sm0 H0. apply In_LoadOrStore in H0. destruct H0 as [H0 | H0].
        - now apply Hun.
        - inversion H0; subst. simpl. tauto. }
      apply (In_Alter regkey_eqb regkey_eqb_eq) in Hin.
      destruct Hin as [[Hin _] | [v [Hin Heq]]]; [now apply (Hold sm)|].
      injection Heq as He Hk Hsm. subst sm. rewrite He, Hk in Hold.
      apply (In_Store Nat.eqb nat_eqb_eq) in Hc.
      destruct Hc as [[Hc _] | Hc]; [now apply (Hold v)|].
      inversion Hc. lia.
  - subst s'. split; [assumption|]. simpl. intros sm c Hin Hc.
    apply (In_Alter regkey_eqb regkey_eqb_eq) in Hin.
    destruct Hin as [[Hin _] | [v [Hin Heq]]]; [now apply (Hun sm c)|].
    injection Heq as He Hk Hsm. subst sm. rewrite <- He, <- Hk in Hin.
    apply (In_Delete Nat.eqb nat_eqb_eq) in Hc.
    destruct Hc as [Hc _]. now apply (Hun v c).
  - subst s'. split; assumption.
  - destruct Hs as [sd [sb [_ [_ [_ [_ [[tv [_ ->]] | [_ ->]]]]]]]].
    + split; assumption.
    + destruct (forward_crash_fields "mismatched type" k sb
                  (with_senders (remove_nth i (senders s)) s))
        as [_ [Hr [_ [_ [Hf _]]]]].
      split; [now rewrite Hf | now rewrite Hr].
  - destruct Hs as [sd [_ [_ ->]]]. split; assumption.
  - destruct Hs as [sd [_ [_ ->]]]. split; assumption.
  - destruct Hs as [sb [_ [_ [_ ->]]]].
    destruct (forward_return_fields k sb s) as [_ [Hr [_ [_ [Hf _]]]]].
    split; [now rewrite Hf | now rewrite Hr].
  - destruct Hs as [sb [_ [_ [_ ->]]]].
    destruct (forward_return_fields k sb s) as [_ [Hr [_ [_ [Hf _]]]]].
    split; [now rewrite Hf | now rewrite Hr].
  - destruct Hs as [[_ ->] | [k [sb [v [p [_ [_ [_ [_ ->]]]]]]]]]; split; assumption.
Qed.

(** Calling [unsub] when its entry is gone and its context cancelled
    changes nothing. *)
Lemma call_unsub_noop u s :
  unregistered u s -> mem (u_cancel u) (cancelled s) = true -> call_unsub u s = s.
Proof.
  intros [_ Hun] Hc. unfold call_unsub, cancel. simpl.
  rewrite (add_mem _ _ Hc).
  rewrite (Alter_id regkey_eqb regkey_eqb_eq).
  - now destruct s.
  - intros sm Hin. apply (Delete_absent Nat.eqb nat_eqb_eq). intros c.
    now apply Hun.
Qed.

Lemma call_unsub_idem u s : call_unsub u (call_unsub u s) = call_unsub u s.
Proof.
  unfold call_unsub, cancel. simpl. rewrite add_idem. f_equal.
  rewrite Alter_Alter. unfold Alter. apply map_ext. intros [k v].
  destruct (regkey_eqb (u_scope u, u_key u) (fst (k, v))); [|reflexivity].
  simpl. now rewrite (Delete_idem Nat.eqb nat_eqb_eq).
Qed.

Lemma ctx_done_ext l1 l2 ctx :
  (forall c, mem c l1 = mem c l2) -> ctx_done l1 ctx = ctx_done l2 ctx.
Proof.
  intros H. induction ctx as [|p IH c]; simpl; [reflexivity|]. now rewrite H, IH.
Qed.

(** Such states take the same steps. *)
Lemma obs_eq_step a s1 s2 s1' :
  obs_eq s1 s2 -> step a s1 = Some s1' ->
  exists s2', step a s2 = Some s2' /\ obs_eq s1' s2'.
Proof.
  destruct s1 as [f r c1 cl sn sb n cr], s2 as [f2 r2 c2 cl2 sn2 sb2 n2 cr2].
  unfold obs_eq. simpl. intros [<- [<- [Hc [<- [<- [<- [<- <-]]]]]]] Hstep.
  pose proof (fun ctx => @ctx_done_ext c1 c2 ctx Hc) as Hd.
  unfold step in *. simpl in *.
  destruct a as [T ctx e val | T ctx e | u | c | i j | i | i | j | j | ch]; simpl in *.
  - inversion Hstep; subst. eexists. split; [reflexivity|].
    unfold PublishToScope. simpl.
    destruct (negb (hashable_key (key_of T))); simpl; [repeat split; auto|].
    destruct (Load regkey_eqb (e, key_of T) r); simpl; repeat split; auto.
  - inversion Hstep; subst. eexists. split; [reflexivity|].
    unfold SubscribeToScope. simpl.
    destruct (negb (hashable_key (key_of T))); simpl; repeat split; auto.
  - inversion Hstep; subst. eexists. split; [reflexivity|]. simpl.
    repeat split; auto. intros c. now rewrite !mem_add, Hc.
  - inversion Hstep; subst. eexists. split; [reflexivity|]. simpl.
    repeat split; auto. intros c0. now rewrite !mem_add, Hc.
  - unfold deliver in *. simpl in *.
    destruct (nth_error sn i) as [sd|]; [|discriminate].
    destruct (nth_error sb j) as [sub|]; [|discriminate].
    destruct (Nat.eqb (snd_dest sd) (sub_in sub) && at_select (sub_pc sub)
              && negb (mem (sub_in sub) cl)); [|discriminate].
    destruct (type_assert (sub_T sub) (snd_val sd)); inversion Hstep; subst;
      (eexists; split; [reflexivity|]); unfold forward_return, close_chan; simpl;
      try destruct (mem (sub_out sub) cl); simpl; repeat split; auto.
  - unfold sender_done in *. simpl in *.
    destruct (nth_error sn i) as [sd|]; [|discriminate].
    rewrite <- Hd. destruct (ctx_done c1 (snd_ctx sd)); [|discriminate].
    inversion Hstep; subst. eexists. split; [reflexivity|]. simpl. repeat split; auto.
  - unfold send_on_closed in *. simpl in *.
    destruct (nth_error sn i) as [sd|]; [|discriminate].
    destruct (mem (snd_dest sd) cl); [|discriminate].
    inversion Hstep; subst. eexists. split; [reflexivity|]. simpl. repeat split; auto.
  - unfold forward_done in *. simpl in *.
    destruct (nth_error sb j) as [sub|]; [|discriminate].
    rewrite <- Hd. destruct (running (sub_pc sub) && ctx_done c1 (sub_ctx sub));
      [|discriminate].
    inversion Hstep; subst. eexists. split; [reflexivity|].
    unfold forward_return, close_chan. simpl.
    destruct (mem (sub_out sub) cl); simpl; repeat split; auto.
  - unfold forward_in_closed in *. simpl in *.
    destruct (nth_error sb j) as [sub|]; [|discriminate].
    destruct (at_select (sub_pc sub) && mem (sub_in sub) cl); [|discriminate].
    inversion Hstep; subst. eexists. split; [reflexivity|].
    unfold forward_return, close_chan. simpl.
    destruct (mem (sub_out sub) cl); simpl; repeat split; auto.
  - unfold receive in *. simpl in *. destruct (mem ch cl).
    + inversion Hstep; subst. eexists. split; [reflexivity|]. repeat split; auto.
    + destruct (find_ready ch sb) as [[[j v] p]|]; [|discriminate].
      inversion Hstep; subst. eexists. split; [reflexivity|]. simpl.
      repeat split; auto.
Qed.

Lemma obs_eq_run tr s1 s2 s1' :
  obs_eq s1 s2 -> run tr s1 = Some s1' ->
  exists s2', run tr s2 = Some s2' /\ obs_eq s1' s2'.
Proof.
  revert s1 s2. induction tr as [|a tr IH]; simpl; intros s1 s2 Heq Hrun.
  - inversion Hrun; subst. eauto.
  - destruct (step a s1) as [s1a|] eqn:Ha; [|discriminate].
    destruct (obs_eq_step _ Heq Ha) as [s2a [-> Heqa]]. eauto.
Qed.

(** ** Where a received value comes from *)

(** The senders after a publish call: those before, and one per entry of
    the subscriber set stored under the key, numbered by this call. *)
Lemma publish_senders T ctx e val s sd :
  In sd (senders (outcome_state (PublishToScope T ctx e val s))) ->
  In sd (senders s)
  \/ (snd_pub sd = npub s
      /\ exists sm id, In ((e, key_of T), sm) (registry s) /\ In (id, snd_dest sd) sm).
Proof.
  unfold PublishToScope. destruct (negb (hashable_key (key_of T))); simpl; auto.
  destruct (Load regkey_eqb (e, key_of T) (registry s)) as [sm|] eqn:HL; simpl; auto.
  rewrite in_app_iff, in_map_iff. intros [H | [[id c] [<- Hin]]]; auto.
  right. simpl. split; [reflexivity|]. exists sm, id. split; [|assumption].
  apply (Load_In regkey_eqb regkey_eqb_eq). assumption.
Qed.

Lemma publish_fields T ctx e val s :
  subs (outcome_state (PublishToScope T ctx e val s)) = subs s
  /\ registry (outcome_state (PublishToScope T ctx e val s)) = registry s
  /\ npub (outcome_state (PublishToScope T ctx e val s)) = S (npub s)
  /\ closed (outcome_state (PublishToScope T ctx e val s)) = closed s
  /\ crashed (outcome_state (PublishToScope T ctx e val s)) = crashed s.
Proof.
  unfold PublishToScope. destruct (negb (hashable_key (key_of T))); simpl; auto.
  destruct (Load regkey_eqb (e, key_of T) (registry s)); simpl; auto.
Qed.

Lemma step_npub_mono a s s' : step a s = Some s' -> npub s <= npub s'.
Proof.
  intros Hstep. apply step_cases in Hstep. rename Hstep into Hs.
  destruct a as [T ctx e val | T ctx e | u | c' | i k | i | i | k | k | ch].
  - subst s'. destruct (publish_fields T ctx e val s) as [_ [_ [-> _]]]. lia.
  - subst s'. unfold SubscribeToScope.
    destruct (negb (hashable_key (key_of T))); simpl; lia.
  - subst s'. simpl. lia.
  - subst s'. simpl. lia.
  - destruct Hs as [sd [sb [_ [_ [_ [_ [[tv [_ ->]] | [_ ->]]]]]]]].
    + simpl. lia.
    + destruct (forward_crash_fields "mismatched type" k sb
                  (with_senders (remove_nth i (senders s)) s))
        as [_ [_ [_ [_ [_ [-> _]]]]]].
      simpl. lia.
  - destruct Hs as [sd [_ [_ ->]]]. simpl. lia.
  - destruct Hs as [sd [_ [_ ->]]]. simpl. lia.
  - destruct Hs as [sb [_ [_ [_ ->]]]].
    destruct (forward_return_fields k sb s) as [_ [_ [_ [_ [_ [-> _]]]]]]. lia.
  - destruct Hs as [sb [_ [_ [_ ->]]]].
    destruct (forward_return_fields k sb s) as [_ [_ [_ [_ [_ [-> _]]]]]]. lia.
  - destruct Hs as [[_ ->] | [k [sb [v [p [_ [_ [_ [_ ->]]]]]]]]]; simpl; lia.
Qed.

Lemma sender_in_dec (sd : Sender) (l : list Sender) : {In sd l} + {~ In sd l}.
Proof.
  apply in_dec. decide equality; try apply Nat.eq_dec; try apply Value_eq_dec.
  decide equality; apply Nat.eq_dec.
Qed.

(** A step keeps [carries], provided the senders a publish call adds for
    the endpoint satisfy [Q]. *)
Lemma carries_step Q j c a s s' sub :
  nth_error (subs s) j = Some sub -> sub_in sub = c ->
  carries Q j c s -> step a s = Some s' ->
  (forall T ctx e val sd,
      a = CallPublish T ctx e val ->
      In sd (senders (outcome_state (PublishToScope T ctx e val s))) ->
      ~ In sd (senders s) -> snd_dest sd = c -> Q (snd_pub sd)) ->
  carries Q j c s'.
Proof.
  intros Hj Hc [Hsn Hheld] Hstep Hnew.
  assert (Hupd : forall k pc x v p,
             (k = j -> forall v p, pc = AtSend v p -> Q p) ->
             nth_error (update_nth k (set_pc pc) (subs s)) j = Some x ->
             sub_pc x = AtSend v p -> Q p).
  { intros k pc x v p Hk Hx Hp. destruct (Nat.eq_dec k j) as [-> | Hne].
    - rewrite nth_error_update_nth, Hj in Hx. inversion Hx; subst x.
      simpl in Hp. eapply Hk; eauto.
    - rewrite nth_error_update_nth_neq in Hx by assumption. eauto. }
  pose proof Hstep as Hcases. apply step_cases in Hcases. rename Hcases into Hs.
  destruct a as [T ctx e val | T ctx e | u | c' | i k | i | i | k | k | ch].
  - subst s'. split.
    + intros sd Hin Hd. destruct (sender_in_dec sd (senders s)); eauto.
    + unfold carries in *. destruct (publish_fields T ctx e val s) as [-> _]. assumption.
  - subst s'. unfold SubscribeToScope in *.
    destruct (negb (hashable_key (key_of T))); simpl in *.
    + split; assumption.
    + split; [assumption|]. intros x v p Hx. simpl in Hx.
      rewrite nth_error_app1 in Hx; [eauto|].
      apply nth_error_Some. congruence.
  - subst s'. split; assumption.
  - subst s'. split; assumption.
  - destruct Hs as [sd [sb [Hi [Hk [Hd [_ [[tv [_ ->]] | [_ ->]]]]]]]].
    + unfold with_subs, with_senders; split; simpl.
      * intros x Hin. apply Hsn. eapply In_remove_nth; eassumption.
      * intros x v p. apply Hupd. intros -> v0 p0 Heq. inversion Heq; subst.
        apply Hsn; [eapply nth_error_In; eassumption|]. congruence.
    + unfold carries.
      destruct (forward_crash_fields "mismatched type" k sb
                  (with_senders (remove_nth i (senders s)) s))
        as [-> [_ [_ [-> _]]]].
      split; simpl.
      * intros x Hin. apply Hsn. eapply In_remove_nth; eassumption.
      * intros x v p. apply Hupd. discriminate.
  - destruct Hs as [sd [_ [_ ->]]]. split; simpl; [|assumption].
    intros x Hin. apply Hsn. eapply In_remove_nth; eassumption.
  - destruct Hs as [sd [_ [_ ->]]]. split; simpl; [|assumption].
    intros x Hin. apply Hsn. eapply In_remove_nth; eassumption.
  - destruct Hs as [sb [_ [_ [_ ->]]]]. unfold carries.
    destruct (forward_return_fields k sb s) as [-> [_ [_ [-> _]]]]. split; [assumption|].
    intros x v p. apply Hupd. discriminate.
  - destruct Hs as [sb [_ [_ [_ ->]]]]. unfold carries.
    destruct (forward_return_fields k sb s) as [-> [_ [_ [-> _]]]]. split; [assumption|].
    intros x v p. apply Hupd. discriminate.
  - destruct Hs as [[_ ->] | [k [sb [v [p [_ [_ [_ [_ ->]]]]]]]]];
      split; simpl; try assumption.
    intros x v0 p0. apply Hupd. discriminate.
Qed.

(** In a well-formed state, what a reader receives on the channel of
    forwarder [j] is the value that forwarder holds. *)
Lemma receive_from s j sub v p s' :
  wf s -> nth_error (subs s) j = Some sub ->
  receive (sub_out sub) s = RecvValue v p s' -> sub_pc sub = AtSend v p.
Proof.
  intros Hwf Hj. unfold receive. destruct (mem (sub_out sub) (closed s)); [discriminate|].
  destruct (find_ready (sub_out sub) (subs s)) as [[[k v0] p0]|] eqn:Hf; [|discriminate].
  intros [= <- <- <-]. destruct (find_ready_spec _ _ Hf) as [x [Hx [Ho Hp]]].
  assert (x = sub); [|congruence].
  apply (@NoDup_map_inj _ _ sub_out (subs s)); eauto using wf_outs, nth_error_In.
Qed.

Lemma carries_received Q j s sub' sub v p s'' :
  wf s -> nth_error (subs s) j = Some sub' -> same_sub sub' sub ->
  carries Q j (sub_in sub) s ->
  receive (sub_out sub) s = RecvValue v p s'' -> Q p.
Proof.
  intros Hwf Hj Hsame [_ Hheld] Hr.
  destruct Hsame as [_ [_ [_ [_ [Eo _]]]]]. rewrite <- Eo in Hr.
  eapply Hheld; [eassumption|]. eapply receive_from; eassumption.
Qed.

(** A publish call starts no sender for a subscription registered under
    another key, or whose entry was removed. *)
Lemma publish_targets s j sub T ctx e val sd :
  wf s -> nth_error (subs s) j = Some sub ->
  In sd (senders (outcome_state (PublishToScope T ctx e val s))) ->
  ~ In sd (senders s) -> snd_dest sd = sub_in sub ->
  e = sub_scope sub /\ key_of T = key_of (sub_T sub)
  /\ exists sm, In ((sub_scope sub, key_of (sub_T sub)), sm) (registry s)
                /\ In (sub_id sub, sub_in sub) sm.
Proof.
  intros Hwf Hj Hin Hnew Hd. apply publish_senders in Hin.
  destruct Hin as [Hin | [_ [sm [id [Hreg Hsm]]]]]; [contradiction|].
  destruct (wf_reg Hwf _ _ _ _ _ Hreg Hsm) as [x [Hx [E1 [E2 [E3 E4]]]]].
  assert (x = sub).
  { apply (@NoDup_map_inj _ _ sub_in (subs s)); eauto using wf_ins, nth_error_In.
    congruence. }
  subst x. split; [congruence|]. split; [congruence|].
  exists sm. rewrite E3, E4, E2, <- Hd. auto.
Qed.

(** ** The tests of [pubsub_test.go], run on the model *)

Example TestPubSub :
  received [CallSubscribe TInt Background 1;
            CallPublish TInt Background 1 (VInt 42);
            Deliver 0 0] 0
  = Some (Some (VInt 42)).
Proof. reflexivity. Qed.

Example TestPubSub_Ptr :
  received [CallSubscribe (TPtr TString) Background 1;
            CallPublish (TPtr TString) Background 1 (VPtr (Some 7));
            Deliver 0 0] 0
  = Some (Some (VPtr (Some 7))).
Proof. reflexivity. Qed.

Example TestPubsub_Struct :
  received [CallSubscribe testStruct Background 1;
            CallPublish testStruct Background 1 (VStruct [VInt 42; VString "test"]);
            Deliver 0 0] 0
  = Some (Some (VStruct [VInt 42; VString "test"])).
Proof. reflexivity. Qed.

Example TestPubSub_SlicePanics :
  SubscribeToScope (TSlice TBool) Background 1 init
  = Panic "hash of unhashable type" (mkState 3 [] [] [] [] [] 0 None).
Proof. reflexivity. Qed.

Example TestPubSub_MapPanics :
  SubscribeToScope (TMap (TIface "any" []) (TIface "any" [])) Background 1 init
  = Panic "hash of unhashable type" (mkState 3 [] [] [] [] [] 0 None).
Proof. reflexivity. Qed.

Example TestPubSub_Chan :
  received [CallSubscribe (TChan (TIface "any" [])) Background 1;
            CallPublish (TChan (TIface "any" [])) Background 1 (VPtr (Some 9));
            Deliver 0 0] 0
  = Some (Some (VPtr (Some 9))).
Proof. reflexivity. Qed.

Example TestPubSub_FnPanics :
  SubscribeToScope (TFunc [] []) Background 1 init
  = Panic "hash of unhashable type" (mkState 3 [] [] [] [] [] 0 None).
Proof. reflexivity. Qed.

Example TestPubSub_Intf :
  received [CallSubscribe testInterface Background 1;
            CallPublish testInterface Background 1 (VBox testImpl (VStruct []));
            Deliver 0 0] 0
  = Some (Some (VBox testImpl (VStruct []))).
Proof. reflexivity. Qed.

Example TestPubSub_Unsub :
  received [CallSubscribe TInt Background 1;
            CallUnsub (unsub_of (new_sub TInt Background 1 init));
            ForwardDone 0] 0
  = Some None.
Proof. reflexivity. Qed.

Example TestPubSub_NoSub :
  PublishToScope TInt Background 1 (VInt 1) init = Return tt (next_publish init).
Proof. reflexivity. Qed.

Example TestPubSub_CtxCancelled :
  received [CallSubscribe TInt callerCtx 1; CallCancel callerCancel; ForwardDone 0] 0
  = Some None.
Proof. reflexivity. Qed.

(** A channel that reports end-of-stream does so for ever. *)
Lemma receive_closed_stable ch tr s s' :
  receive ch s = RecvClosed -> run tr s = Some s' -> receive ch s' = RecvClosed.
Proof.
  intros Hr Hrun.
  assert (Hm : mem ch (closed s) = true).
  { unfold receive in Hr. destruct (mem ch (closed s)); [reflexivity|].
    destruct (find_ready ch (subs s)) as [[[? ?] ?]|]; discriminate. }
  assert (Hm' : In ch (closed s')).
  { apply (@run_invariant (fun x => In ch (closed x))) with (tr := tr) (s := s);
      [|now apply mem_In | assumption].
    intros a x x' Hin Hstep. eapply step_closed_mono; eassumption. }
  apply mem_In in Hm'. unfold receive. now rewrite Hm'.
Qed.

(** * The claims *)

(** Subscribing and then publishing a value of the subscribed type: on the
    schedule where the sender meets the forwarder and a reader receives,
    the reader gets exactly the published value.  The nil value of an
    interface type is excluded: the type assertion rejects it. *)
Theorem subscribe_publish_delivers T ctx pctx e v s :
  reachable s -> crashed s = None ->
  comparable T = true -> has_type v T = true ->
  (is_iface T = true -> v <> VNil) ->
  exists ch unsub s1 s2 i s3 s4,
    SubscribeToScope T ctx e s = Return (ch, unsub) s1
    /\ PublishToScope T pctx e v s1 = Return tt s2
    /\ nth_error (senders s2) i = Some (mkSender (S ch) (to_any T v) pctx (npub s))
    /\ step (Deliver i (List.length (subs s))) s2 = Some s3
    /\ receive ch s3 = RecvValue v (npub s) s4.
Proof.
  intros Hre Hcr Hcmp Hty Hnil. rewrite <- hashable_comparable in Hcmp.
  destruct (@subscribe_registers T ctx e s Hcmp) as [s1 [Hs [Hj [Hreg [Hcr1 Hnp]]]]].
  assert (Hwf1 : wf s1).
  { pose proof (@wf_subscribe T ctx e s (reachable_wf Hre)) as H. now rewrite Hs in H. }
  assert (Hc1 : crashed s1 = None) by congruence.
  destruct (@publish_delivers s1 (List.length (subs s)) (new_sub T ctx e s) T pctx v v
              Hwf1 Hc1 Hj eq_refl Hreg Hcmp eq_refl (@type_assert_to_any T v Hty Hnil))
    as [s2 [i [s3 [s4 [Hp [Hi [Hrun Hrecv]]]]]]].
  simpl in Hrun. rewrite Hnp in *.
  destruct (deliver i (List.length (subs s)) s2) as [s3'|] eqn:Hd; [|discriminate].
  inversion Hrun; subst s3'.
  exists (fresh s), (unsub_of (new_sub T ctx e s)), s1, s2, i, s3, s4.
  repeat split; assumption.
Qed.

(** C1 (at its failing input).  Subscribing to the comparable interface
    type [error] and publishing the nil value of that type does not deliver
    nil on the subscription's channel: when the value reaches the forwarder
    the type assertion fails and the goroutine panics; the deferred
    [close(out)] runs and the process goes down: whatever still happens
    before it exits, a receive on the channel reports end-of-stream and
    never hands the value to a reader. *)
Theorem C1_nil_interface_value_not_delivered :
  comparable error = true /\ has_type VNil error = true /\
  exists ch unsub s1 s2 s3,
    SubscribeToScope error Background Global init = Return (ch, unsub) s1
    /\ PublishToScope error Background Global VNil s1 = Return tt s2
    /\ senders s2 = [mkSender (S ch) VNil Background 0]
    /\ step (Deliver 0 0) s2 = Some s3
    /\ crashed s3 = Some "mismatched type"
    /\ closed s3 = [ch]
    /\ receive ch s3 = RecvClosed
    /\ forall tr s', run tr s3 = Some s' -> receive ch s' = RecvClosed.
Proof.
  split; [reflexivity|]. split; [reflexivity|].
  do 5 eexists.
  split; [reflexivity|]. split; [reflexivity|]. split; [reflexivity|].
  split; [reflexivity|]. split; [reflexivity|]. split; [reflexivity|].
  split; [reflexivity|].
  intros tr s' Hrun. eapply receive_closed_stable; [|exact Hrun]. reflexivity.
Qed.

(** C3 (at its failing input).  The distinct interface types [error] and
    [testInterface] get the same registry key, the nil interface value, so
    a publish under [error] looks up the subscriber set that a subscription
    to [testInterface] registered in. *)
Theorem C3_interface_keys_collide :
  error <> testInterface
  /\ key_of error = key_of testInterface
  /\ exists ch unsub s1,
       SubscribeToScope testInterface Background Global init = Return (ch, unsub) s1
       /\ Load regkey_eqb (Global, key_of error) (registry s1)
          = Some [(u_id unsub, S ch)].
Proof.
  split; [discriminate|]. split; [reflexivity|].
  do 3 eexists. split; reflexivity.
Qed.

(** Every two interface types share the nil key; keys of concrete types
    identify the type. *)
Lemma key_of_interfaces T1 T2 :
  is_iface T1 = true -> is_iface T2 = true -> key_of T1 = key_of T2.
Proof. intros H1 H2. now rewrite (key_of_iface _ H1), (key_of_iface _ H2). Qed.

(** C4 as stated fails: publishing a value of the slice type [[]bool] on a
    scope with no subscriber set for it panics in [sync.Map.Load]. *)
Lemma C4_unhashable_publish_panics :
  has_type (VRef None) (TSlice TBool) = true
  /\ Load regkey_eqb (Global, key_of (TSlice TBool)) (registry init) = None
  /\ PublishToScope (TSlice TBool) Background Global (VRef None) init
     = Panic "hash of unhashable type" (next_publish init).
Proof. repeat split; reflexivity. Qed.

(** C4 (amended).  For every comparable type [T] and every scope with no
    subscriber set for [T], [PublishToScope] returns without a panic, starts
    no goroutine and leaves the registry, and all of the state but the ghost
    call counter, as it was. *)
Theorem C4_publish_without_subscriber_set T ctx e val s :
  comparable T = true ->
  Load regkey_eqb (e, key_of T) (registry s) = None ->
  exists s',
    PublishToScope T ctx e val s = Return tt s'
    /\ s' = next_publish s
    /\ registry s' = registry s /\ senders s' = senders s /\ subs s' = subs s
    /\ closed s' = closed s /\ cancelled s' = cancelled s
    /\ crashed s' = crashed s /\ fresh s' = fresh s.
Proof.
  intros Hc HL. rewrite <- hashable_comparable in Hc. unfold hashable in Hc.
  exists (next_publish s). unfold PublishToScope. rewrite Hc, HL. simpl.
  repeat split.
Qed.

Lemma C4_publish_without_subscriber_set_witness :
  comparable TInt = true
  /\ Load regkey_eqb (Global, key_of TInt) (registry init) = None
  /\ exists s',
       PublishToScope TInt Background Global (VInt 1) init = Return tt s'
       /\ s' = next_publish init
       /\ registry s' = registry init /\ senders s' = senders init
       /\ subs s' = subs init /\ closed s' = closed init
       /\ cancelled s' = cancelled init /\ crashed s' = crashed init
       /\ fresh s' = fresh init.
Proof.
  split; [reflexivity|]. split; [reflexivity|].
  apply (@C4_publish_without_subscriber_set TInt Background Global (VInt 1) init);
    reflexivity.
Defined.

(** Slices, maps and funcs are not comparable, nor is a struct with such a
    field. *)
Lemma unhashable_types T U ps rs name ms fs :
  comparable (TSlice T) = false /\ comparable (TMap T U) = false
  /\ comparable (TFunc ps rs) = false
  /\ comparable (TStruct name ms (TSlice T :: fs)) = false.
Proof. repeat split. Qed.

(** C5.  For every type [T] that is not hashable, [SubscribeToScope] panics
    in [LoadOrStore], before anything is stored: the registry, the
    goroutines, the closed channels and the cancelled contexts are
    unchanged, and only the allocator has moved (the two channels and the
    id were made before the call). *)
Theorem C5_subscribe_unhashable_panics T ctx e s :
  hashable T = false ->
  exists s',
    SubscribeToScope T ctx e s = Panic "hash of unhashable type" s'
    /\ registry s' = registry s /\ subs s' = subs s /\ senders s' = senders s
    /\ closed s' = closed s /\ cancelled s' = cancelled s
    /\ crashed s' = crashed s /\ npub s' = npub s.
Proof.
  intros Hh. unfold hashable in Hh. unfold SubscribeToScope. rewrite Hh. simpl.
  eexists. split; [reflexivity|]. repeat split.
Qed.

Lemma C5_subscribe_unhashable_panics_witness :
  hashable (TSlice TBool) = false
  /\ exists s',
       SubscribeToScope (TSlice TBool) Background Global init
       = Panic "hash of unhashable type" s'
       /\ registry s' = registry init /\ subs s' = subs init
       /\ senders s' = senders init /\ closed s' = closed init
       /\ cancelled s' = cancelled init /\ crashed s' = crashed init
       /\ npub s' = npub init.
Proof.
  split; [reflexivity|].
  apply (@C5_subscribe_unhashable_panics (TSlice TBool) Background Global init).
  reflexivity.
Defined.

(** C8 (at its failing input).  With a subscriber of [testInterface] on the
    scope, a value of type [userError] published under the interface type
    [error] is routed to that subscriber (both keys are nil); its dynamic
    type does not match, and the forwarder takes the branch
    [panic("mismatched type")]. *)
Theorem C8_mismatch_branch_reached :
  has_type (VBox userError (VStruct [])) error = true
  /\ type_assert testInterface (VBox userError (VStruct [])) = None
  /\ exists s,
       run [CallSubscribe testInterface Background Global;
            CallPublish error Background Global (VBox userError (VStruct []));
            Deliver 0 0] init = Some s
       /\ crashed s = Some "mismatched type".
Proof.
  split; [reflexivity|]. split; [reflexivity|].
  eexists. split; reflexivity.
Qed.

(** C10 as stated fails in its last part: the panic does not come instead
    of end-of-stream.  The deferred [close(out)] runs while the panic
    unwinds, so in the state the panic leaves the channel is closed and a
    reader that runs before the process exits completes its receive with
    end-of-stream. *)
Lemma C10_reader_sees_end_of_stream :
  exists s,
    run [CallSubscribe testInterface Background Global;
         CallPublish testInterface Background Global VNil;
         Deliver 0 0] init = Some s
    /\ crashed s = Some "mismatched type"
    /\ receive (sub_out ifaceSub) s = RecvClosed
    /\ step (Receive (sub_out ifaceSub)) s = Some s.
Proof.
  eexists. split; [reflexivity|]. split; [reflexivity|]. split; reflexivity.
Qed.

(** C10 (amended).  For every interface type with a registered
    subscription whose forwarder runs: publishing nil under that type looks
    up the type's key (the nil key), starts a sender to the subscription's
    endpoint, and on the schedule where that sender meets the forwarder the
    assertion of nil to the interface type fails and the forwarding task
    panics with "mismatched type".  No value is delivered: the deferred
    [close(out)] has closed the channel, and every receive on it from then
    on, whatever else happens before the process exits, reports
    end-of-stream. *)
Theorem C10_nil_interface_publish_panics s j sub ctx :
  reachable s -> crashed s = None ->
  nth_error (subs s) j = Some sub -> is_iface (sub_T sub) = true ->
  running (sub_pc sub) = true -> registered s sub ->
  key_of (sub_T sub) = VNil
  /\ type_assert (sub_T sub) VNil = None
  /\ exists s1 i s2,
       PublishToScope (sub_T sub) ctx (sub_scope sub) VNil s = Return tt s1
       /\ nth_error (senders s1) i = Some (mkSender (sub_in sub) VNil ctx (npub s))
       /\ run (drain_trace sub ++ [Deliver i j]) s1 = Some s2
       /\ crashed s2 = Some "mismatched type"
       /\ In (sub_out sub) (closed s2)
       /\ forall tr s', run tr s2 = Some s' -> receive (sub_out sub) s' = RecvClosed.
Proof.
  intros Hre Hcr Hj Hi Hrun Hreg.
  split; [now apply key_of_iface|]. split; [reflexivity|].
  assert (Hh : hashable (sub_T sub) = true).
  { rewrite hashable_comparable. destruct (sub_T sub); try discriminate. reflexivity. }
  destruct (@publish_reaches s j sub (sub_T sub) ctx VNil (reachable_wf Hre) Hcr Hj Hrun
              Hreg Hh eq_refl) as [s1 [i [s2 [Hp [Hsd [Htr [_ Hres]]]]]]].
  assert (Ha : to_any (sub_T sub) VNil = VNil) by (unfold to_any; now rewrite Hi).
  rewrite Ha in *. simpl in Hres. destruct Hres as [Hres Hcl].
  exists s1, i, s2. repeat split; auto.
  intros tr s' Hrun'. eapply receive_closed_stable; [|exact Hrun'].
  unfold receive. apply mem_In in Hcl. now rewrite Hcl.
Qed.

Lemma C10_nil_interface_publish_panics_witness :
  reachable s_ifaceSub /\ crashed s_ifaceSub = None
  /\ nth_error (subs s_ifaceSub) 0 = Some ifaceSub
  /\ is_iface (sub_T ifaceSub) = true /\ running (sub_pc ifaceSub) = true
  /\ registered s_ifaceSub ifaceSub
  /\ key_of (sub_T ifaceSub) = VNil
  /\ type_assert (sub_T ifaceSub) VNil = None
  /\ exists s1 i s2,
       PublishToScope (sub_T ifaceSub) Background (sub_scope ifaceSub) VNil s_ifaceSub
       = Return tt s1
       /\ nth_error (senders s1) i
          = Some (mkSender (sub_in ifaceSub) VNil Background (npub s_ifaceSub))
       /\ run (drain_trace ifaceSub ++ [Deliver i 0]) s1 = Some s2
       /\ crashed s2 = Some "mismatched type"
       /\ In (sub_out ifaceSub) (closed s2)
       /\ forall tr s', run tr s2 = Some s' ->
                        receive (sub_out ifaceSub) s' = RecvClosed.
Proof.
  assert (Hre : reachable s_ifaceSub)
    by (exists [CallSubscribe testInterface Background Global]; reflexivity).
  assert (Hreg : registered s_ifaceSub ifaceSub)
    by (eexists; split; [reflexivity | left; reflexivity]).
  split; [exact Hre|]. split; [reflexivity|]. split; [reflexivity|].
  split; [reflexivity|]. split; [reflexivity|]. split; [exact Hreg|].
  apply (@C10_nil_interface_publish_panics s_ifaceSub 0 ifaceSub Background Hre
           eq_refl eq_refl eq_refl eq_refl Hreg).
Defined.

Lemma ctx_done_cancel_ids cs ctx c :
  In c (cancel_ids ctx) -> mem c cs = true -> ctx_done cs ctx = true.
Proof.
  induction ctx as [|p IH c']; simpl; [tauto|].
  intros [<- | Hin] Hm; [now rewrite Hm|]. rewrite (IH Hin Hm). apply orb_true_r.
Qed.

Lemma unsub_unregisters sub s : ~ registered (call_unsub (unsub_of sub) s) sub.
Proof.
  intros [sm [HL Hin]]. simpl in HL. rewrite (Load_Alter regkey_eqb) in HL.
  destruct (Load regkey_eqb (sub_scope sub, key_of (sub_T sub)) (registry s));
    [|discriminate].
  inversion HL; subst. apply (In_Delete Nat.eqb nat_eqb_eq) in Hin.
  simpl in Hin. tauto.
Qed.

(** A running forwarder whose context is done can return, and closes its
    channel. *)
Lemma forward_done_closes s j sub :
  wf s -> crashed s = None ->
  nth_error (subs s) j = Some sub -> running (sub_pc sub) = true ->
  ctx_done (cancelled s) (sub_ctx sub) = true ->
  exists s',
    step (ForwardDone j) s = Some s'
    /\ subs s' = update_nth j (set_pc Returned) (subs s)
    /\ closed s' = sub_out sub :: closed s
    /\ crashed s' = None /\ registry s' = registry s
    /\ receive (sub_out sub) s' = RecvClosed.
Proof.
  intros Hwf Hcr Hj Hrun Hd.
  assert (Ho : mem (sub_out sub) (closed s) = false).
  { apply wf_out_open; [assumption | eapply nth_error_In; eassumption|].
    intros Hp. rewrite Hp in Hrun. discriminate. }
  exists (forward_return j sub s). unfold step, forward_done.
  rewrite Hj, Hrun, Hd. simpl. split; [reflexivity|].
  destruct (forward_return_fields j sub s) as [Hs [Hr [_ [_ [_ [_ [_ [_ Hc]]]]]]]].
  destruct (Hc Ho) as [Hcr' Hcl]. repeat split; try congruence.
  unfold receive. rewrite Hcl. simpl. now rewrite Nat.eqb_refl.
Qed.

(** C6 as stated fails: after the subscribe-time context is cancelled and
    the forwarder has returned, the subscription's entry is still in the
    subscriber set (a later publish still starts a sender for it), whereas
    after [unsub] it is gone. *)
Lemma C6_cancellation_keeps_entry :
  exists s1 s2,
    run [CallSubscribe TInt callerCtx Global; CallCancel callerCancel; ForwardDone 0]
        init = Some s1
    /\ run [CallSubscribe TInt callerCtx Global; CallUnsub (unsub_of intSub);
            ForwardDone 0] init = Some s2
    /\ registered s1 intSub
    /\ ~ registered s2 intSub
    /\ senders (outcome_state (PublishToScope TInt Background Global (VInt 1) s1))
       = [mkSender (sub_in intSub) (VBox TInt (VInt 1)) Background 0]
    /\ senders (outcome_state (PublishToScope TInt Background Global (VInt 1) s2)) = [].
Proof.
  do 2 eexists. split; [reflexivity|]. split; [reflexivity|].
  split; [|split; [|split; reflexivity]].
  - eexists. split; [reflexivity | left; reflexivity].
  - intros [sm [HL Hin]]. vm_compute in HL. inversion HL; subst. destruct Hin.
Qed.

(** C6 (amended).  For every subscription whose forwarder runs, the
    subscribe-time cancellation signal firing and the call of [unsub] both
    let the forwarding task return and close the typed channel, with the
    same subscriptions and closed channels afterwards; [unsub] also removes
    the entry from the subscriber set, while cancellation leaves the
    registry as it was. *)
Theorem C6_cancellation_teardown s j sub parent c :
  reachable s -> crashed s = None ->
  nth_error (subs s) j = Some sub -> running (sub_pc sub) = true ->
  sub_ctx sub = WithCancel parent (sub_cancel sub) ->
  In c (cancel_ids parent) ->
  exists s1 s2,
    step (ForwardDone j) (cancel c s) = Some s1
    /\ step (ForwardDone j) (call_unsub (unsub_of sub) s) = Some s2
    /\ nth_error (subs s1) j = Some (set_pc Returned sub) /\ subs s2 = subs s1
    /\ closed s1 = sub_out sub :: closed s /\ closed s2 = closed s1
    /\ crashed s1 = None /\ crashed s2 = None
    /\ receive (sub_out sub) s1 = RecvClosed
    /\ receive (sub_out sub) s2 = RecvClosed
    /\ registry s1 = registry s
    /\ ~ registered s2 sub.
Proof.
  intros Hre Hcr Hj Hrun Hctx Hc. pose proof (reachable_wf Hre) as Hwf.
  assert (H1 : ctx_done (cancelled (cancel c s)) (sub_ctx sub) = true).
  { rewrite Hctx. simpl.
    rewrite (@ctx_done_cancel_ids (add c (cancelled s)) parent c Hc).
    - apply orb_true_r.
    - now rewrite mem_add, Nat.eqb_refl. }
  assert (H2 : ctx_done (cancelled (call_unsub (unsub_of sub) s)) (sub_ctx sub) = true).
  { rewrite Hctx. simpl. now rewrite mem_add, Nat.eqb_refl. }
  destruct (@forward_done_closes (cancel c s) j sub (wf_cancel c Hwf) Hcr Hj Hrun H1)
    as [s1 [E1 [S1 [C1 [R1 [G1 V1]]]]]].
  destruct (@forward_done_closes (call_unsub (unsub_of sub) s) j sub
              (wf_call_unsub (unsub_of sub) Hwf) Hcr Hj Hrun H2)
    as [s2 [E2 [S2 [C2 [R2 [G2 V2]]]]]].
  exists s1, s2. simpl in *.
  split; [assumption|]. split; [assumption|].
  split; [rewrite S1, nth_error_update_nth, Hj; reflexivity|].
  split; [congruence|]. split; [assumption|]. split; [congruence|].
  split; [assumption|]. split; [assumption|]. split; [assumption|].
  split; [assumption|]. split; [assumption|].
  intros [sm [HL Hin]]. rewrite G2 in HL.
  apply (@unsub_unregisters sub s). exists sm. split; assumption.
Qed.

Lemma C6_cancellation_teardown_witness :
  reachable s_intSub /\ crashed s_intSub = None
  /\ nth_error (subs s_intSub) 0 = Some intSub /\ running (sub_pc intSub) = true
  /\ sub_ctx intSub = WithCancel callerCtx (sub_cancel intSub)
  /\ In callerCancel (cancel_ids callerCtx)
  /\ exists s1 s2,
       step (ForwardDone 0) (cancel callerCancel s_intSub) = Some s1
       /\ step (ForwardDone 0) (call_unsub (unsub_of intSub) s_intSub) = Some s2
       /\ nth_error (subs s1) 0 = Some (set_pc Returned intSub) /\ subs s2 = subs s1
       /\ closed s1 = sub_out intSub :: closed s_intSub /\ closed s2 = closed s1
       /\ crashed s1 = None /\ crashed s2 = None
       /\ receive (sub_out intSub) s1 = RecvClosed
       /\ receive (sub_out intSub) s2 = RecvClosed
       /\ registry s1 = registry s_intSub
       /\ ~ registered s2 intSub.
Proof.
  assert (Hre : reachable s_intSub)
    by (exists [CallSubscribe TInt callerCtx Global]; reflexivity).
  split; [exact Hre|]. split; [reflexivity|]. split; [reflexivity|].
  split; [reflexivity|]. split; [reflexivity|]. split; [left; reflexivity|].
  apply (@C6_cancellation_teardown s_intSub 0 intSub callerCtx callerCancel Hre
           eq_refl eq_refl eq_refl eq_refl (or_introl eq_refl)).
Defined.

Lemma unsubscribed_call_unsub s j sub :
  wf s -> nth_error (subs s) j = Some sub ->
  unsubscribed j sub (npub s) (call_unsub (unsub_of sub) s).
Proof.
  intros Hwf Hj. split; [now apply wf_call_unsub|].
  split; [exists sub; split; [assumption | apply same_sub_refl]|].
  split; [apply unregistered_call_unsub; simpl;
          apply (wf_bound Hwf sub (nth_error_In _ _ Hj))|].
  split; [simpl; now rewrite mem_add, Nat.eqb_refl|].
  split; simpl.
  - intros sd Hin _. now apply (wf_snd_pub Hwf).
  - intros x v p Hx Hp. eapply (wf_sub_pub Hwf); [eapply nth_error_In|]; eassumption.
Qed.

Lemma unsubscribed_step j sub n a x x' :
  unsubscribed j sub n x -> step a x = Some x' -> unsubscribed j sub n x'.
Proof.
  intros [Hwf [[sub' [Hj Hsame]] [Hun [Hm Hcar]]]] Hstep.
  split; [eapply wf_step; eassumption|].
  split.
  { destruct (@step_sub_persist a x x' j sub' Hstep Hj) as [sub2 [Hj2 Hs2]].
    exists sub2. split; [assumption | eapply same_sub_trans; eassumption]. }
  split; [eapply unregistered_step; eassumption|].
  split; [eapply step_cancelled_mono; eassumption|].
  pose proof Hsame as [Es [Et [Ei [En _]]]].
  apply (@carries_step _ j (sub_in sub) a x x' sub' Hj En Hcar Hstep).
  intros T ctx e val sd _ Hin Hnew Hd. exfalso.
  rewrite <- En in Hd.
  destruct (@publish_targets x j sub' T ctx e val sd Hwf Hj Hin Hnew Hd)
    as [_ [_ [sm [Hreg Hsm]]]].
  destruct Hun as [_ Hun]. apply (Hun sm (sub_in sub')); simpl.
  - now rewrite <- Es, <- Et.
  - now rewrite <- Ei.
Qed.

Lemma unsubscribed_run j sub n tr x x' :
  unsubscribed j sub n x -> run tr x = Some x' -> unsubscribed j sub n x'.
Proof.
  apply (@run_invariant (unsubscribed j sub n)).
  intros a y y'. apply unsubscribed_step.
Qed.

(** A running forwarder whose context is done can return, and its
    channel then reports end-of-stream. *)
Lemma forward_done_enabled s j sub :
  nth_error (subs s) j = Some sub -> running (sub_pc sub) = true ->
  ctx_done (cancelled s) (sub_ctx sub) = true ->
  step (ForwardDone j) s = Some (forward_return j sub s)
  /\ receive (sub_out sub) (forward_return j sub s) = RecvClosed.
Proof.
  intros Hj Hrun Hd. unfold step, forward_done. rewrite Hj, Hrun, Hd. simpl.
  split; [reflexivity|].
  destruct (forward_return_fields j sub s) as [_ [_ [_ [_ [_ [_ [Hin _]]]]]]].
  apply mem_In in Hin. unfold receive. now rewrite Hin.
Qed.

(** After [unsub] the forwarding context is done, and the channel is
    closed or about to be. *)
Lemma unsubscribed_closes j sub n x :
  unsubscribed j sub n x ->
  ctx_done (cancelled x) (sub_ctx sub) = true /\ closes j (sub_out sub) x.
Proof.
  intros [Hwf [[sub' [Hj Hsame]] [_ [Hm _]]]].
  pose proof Hsame as [_ [_ [_ [_ [Eo [Ec Ek]]]]]].
  assert (Hd : ctx_done (cancelled x) (sub_ctx sub') = true).
  { apply ctx_done_mono with (cs := [sub_cancel sub']).
    - intros c Hc. simpl in Hc. rewrite orb_false_r in Hc.
      apply Nat.eqb_eq in Hc. subst c. now rewrite Ek.
    - apply (wf_ctx Hwf sub' (nth_error_In _ _ Hj)). }
  split; [now rewrite <- Ec|].
  unfold closes. rewrite <- Eo.
  destruct (running (sub_pc sub')) eqn:Hrunning.
  - right. exists (forward_return j sub' x).
    now apply forward_done_enabled.
  - left. assert (Hp : sub_pc sub' = Returned)
      by (destruct (sub_pc sub'); try discriminate; reflexivity).
    pose proof (wf_returned Hwf sub' (nth_error_In _ _ Hj) Hp) as Hin.
    apply mem_In in Hin. unfold receive. now rewrite Hin.
Qed.

(** C9.  For every subscription, calling its [unsub]: never panics; any
    number of calls in a row leaves the state one call leaves; once it was
    called, a further call at any later point (after the cancellation
    signal fired, after any goroutine steps or API calls) changes nothing;
    calling it after the external cancellation fired or before gives states
    that differ only in the order the cancelled contexts are listed, and
    every execution from the one is an execution from the other; the
    entry is removed; and, whether the cancellation signal fired before
    the call, after it or not at all, from the call on the forwarding
    context is done and the typed channel is closed or the forwarder's
    return, which closes it, is enabled, and once closed it stays closed. *)
Theorem C9_unsub_idempotent s j sub :
  reachable s -> nth_error (subs s) j = Some sub ->
  crashed (call_unsub (unsub_of sub) s) = crashed s
  /\ (forall n, Nat.iter (S n) (call_unsub (unsub_of sub)) s
                = call_unsub (unsub_of sub) s)
  /\ (forall tr s', run tr (call_unsub (unsub_of sub) s) = Some s' ->
                    call_unsub (unsub_of sub) s' = s')
  /\ (forall c tr x,
         run tr (call_unsub (unsub_of sub) (cancel c s)) = Some x ->
         exists y, run tr (cancel c (call_unsub (unsub_of sub) s)) = Some y
                   /\ obs_eq x y)
  /\ (forall c tr y,
         run tr (cancel c (call_unsub (unsub_of sub) s)) = Some y ->
         exists x, run tr (call_unsub (unsub_of sub) (cancel c s)) = Some x
                   /\ obs_eq y x)
  /\ ~ registered (call_unsub (unsub_of sub) s) sub
  /\ (forall tr s', run tr (call_unsub (unsub_of sub) s) = Some s' ->
                    ctx_done (cancelled s') (sub_ctx sub) = true
                    /\ closes j (sub_out sub) s')
  /\ (forall c tr s', run tr (call_unsub (unsub_of sub) (cancel c s)) = Some s' ->
                      ctx_done (cancelled s') (sub_ctx sub) = true
                      /\ closes j (sub_out sub) s')
  /\ (forall tr s' tr' s'',
         run tr (call_unsub (unsub_of sub) s) = Some s' ->
         receive (sub_out sub) s' = RecvClosed ->
         run tr' s' = Some s'' -> receive (sub_out sub) s'' = RecvClosed).
Proof.
  intros Hre Hj. pose proof (reachable_wf Hre) as Hwf.
  split; [reflexivity|].
  split; [|split; [|split; [|split; [|split; [|split; [|split]]]]]].
  - induction n as [|n IH]; [reflexivity|].
    change (Nat.iter (S (S n)) (call_unsub (unsub_of sub)) s)
      with (call_unsub (unsub_of sub) (Nat.iter (S n) (call_unsub (unsub_of sub)) s)).
    rewrite IH. apply call_unsub_idem.
  - intros tr s' Hrun.
    assert (Hinv : unregistered (unsub_of sub) s'
                   /\ mem (u_cancel (unsub_of sub)) (cancelled s') = true).
    { apply (@run_invariant
               (fun x => unregistered (unsub_of sub) x
                         /\ mem (u_cancel (unsub_of sub)) (cancelled x) = true))
        with (tr := tr) (s := call_unsub (unsub_of sub) s); [| |assumption].
      - intros a x x' [Hu Hm] Hstep. split.
        + eapply unregistered_step; eassumption.
        + eapply step_cancelled_mono; eassumption.
      - split.
        + apply unregistered_call_unsub. simpl.
          apply (wf_bound Hwf sub (nth_error_In _ _ Hj)).
        + simpl. now rewrite mem_add, Nat.eqb_refl. }
    destruct Hinv as [Hu Hm]. now apply call_unsub_noop.
  - intros c tr x Hrun.
    apply (@obs_eq_run tr (call_unsub (unsub_of sub) (cancel c s))
             (cancel c (call_unsub (unsub_of sub) s)) x); [|assumption].
    unfold obs_eq. simpl. repeat split; auto.
    intros c0. apply add_comm_mem.
  - intros c tr y Hrun.
    apply (@obs_eq_run tr (cancel c (call_unsub (unsub_of sub) s))
             (call_unsub (unsub_of sub) (cancel c s)) y); [|assumption].
    unfold obs_eq. simpl. repeat split; auto.
    intros c0. apply add_comm_mem.
  - apply unsub_unregisters.
  - intros tr s' Hrun.
    apply (@unsubscribed_closes j sub (npub s) s').
    apply (@unsubscribed_run j sub (npub s) tr (call_unsub (unsub_of sub) s) s');
      [|assumption].
    now apply unsubscribed_call_unsub.
  - intros c tr s' Hrun.
    apply (@unsubscribed_closes j sub (npub (cancel c s)) s').
    apply (@unsubscribed_run j sub (npub (cancel c s)) tr
             (call_unsub (unsub_of sub) (cancel c s)) s'); [|assumption].
    apply unsubscribed_call_unsub; [now apply wf_cancel | exact Hj].
  - intros tr s' tr' s'' _ Hr Hrun'. eapply receive_closed_stable; eassumption.
Qed.

Lemma C9_unsub_idempotent_witness :
  reachable s_intSub /\ nth_error (subs s_intSub) 0 = Some intSub
  /\ crashed (call_unsub (unsub_of intSub) s_intSub) = crashed s_intSub
  /\ (forall n, Nat.iter (S n) (call_unsub (unsub_of intSub)) s_intSub
                = call_unsub (unsub_of intSub) s_intSub)
  /\ (forall tr s', run tr (call_unsub (unsub_of intSub) s_intSub) = Some s' ->
                    call_unsub (unsub_of intSub) s' = s')
  /\ (forall c tr x,
         run tr (call_unsub (unsub_of intSub) (cancel c s_intSub)) = Some x ->
         exists y, run tr (cancel c (call_unsub (unsub_of intSub) s_intSub)) = Some y
                   /\ obs_eq x y)
  /\ (forall c tr y,
         run tr (cancel c (call_unsub (unsub_of intSub) s_intSub)) = Some y ->
         exists x, run tr (call_unsub (unsub_of intSub) (cancel c s_intSub)) = Some x
                   /\ obs_eq y x)
  /\ ~ registered (call_unsub (unsub_of intSub) s_intSub) intSub
  /\ (forall tr s', run tr (call_unsub (unsub_of intSub) s_intSub) = Some s' ->
                    ctx_done (cancelled s') (sub_ctx intSub) = true
                    /\ closes 0 (sub_out intSub) s')
  /\ (forall c tr s',
         run tr (call_unsub (unsub_of intSub) (cancel c s_intSub)) = Some s' ->
         ctx_done (cancelled s') (sub_ctx intSub) = true
         /\ closes 0 (sub_out intSub) s')
  /\ (forall tr s' tr' s'',
         run tr (call_unsub (unsub_of intSub) s_intSub) = Some s' ->
         receive (sub_out intSub) s' = RecvClosed ->
         run tr' s' = Some s'' -> receive (sub_out intSub) s'' = RecvClosed).
Proof.
  assert (Hre : reachable s_intSub)
    by (exists [CallSubscribe TInt callerCtx Global]; reflexivity).
  split; [exact Hre|]. split; [reflexivity|].
  apply (@C9_unsub_idempotent s_intSub 0 intSub Hre eq_refl).
Defined.

(** C7.  For every subscription, in every state the program can be in
    after its [unsub] was called: (1) unless the process has crashed, the
    typed channel is closed already or the forwarder's return, which
    closes it, is enabled; (2) once the channel is closed, every receive on
    it, at any later point, reports end-of-stream at once; (3) a value
    that a reader still receives on the channel was published before
    [unsub] was called; (4) a publish call starts no sender for the
    subscription's endpoint. *)
Theorem C7_unsub_closes_channel s j sub tr s' :
  reachable s -> nth_error (subs s) j = Some sub ->
  run tr (call_unsub (unsub_of sub) s) = Some s' ->
  (crashed s' = None ->
   receive (sub_out sub) s' = RecvClosed
   \/ exists s'', step (ForwardDone j) s' = Some s''
                  /\ receive (sub_out sub) s'' = RecvClosed)
  /\ (receive (sub_out sub) s' = RecvClosed ->
      forall tr' s'', run tr' s' = Some s'' -> receive (sub_out sub) s'' = RecvClosed)
  /\ (forall v p s'', receive (sub_out sub) s' = RecvValue v p s'' -> p < npub s)
  /\ (forall T ctx e val sd,
         In sd (senders (outcome_state (PublishToScope T ctx e val s'))) ->
         In sd (senders s') \/ snd_dest sd <> sub_in sub).
Proof.
  intros Hre Hj Hrun. pose proof (reachable_wf Hre) as Hwf.
  pose proof (@unsubscribed_run j sub (npub s) tr _ s'
                (@unsubscribed_call_unsub s j sub Hwf Hj) Hrun) as Hinv.
  destruct Hinv as [Hwf' [[sub' [Hj' Hsame]] [Hun [Hm Hcar]]]].
  pose proof Hsame as [Es [Et [Ei [En [Eo [Ec Ek]]]]]].
  split; [|split; [|split]].
  - intros Hcr. destruct (running (sub_pc sub')) eqn:Hrunning.
    + right.
      assert (Hd : ctx_done (cancelled s') (sub_ctx sub') = true).
      { apply ctx_done_mono with (cs := [sub_cancel sub']).
        - intros n Hn. simpl in Hn. rewrite orb_false_r in Hn.
          apply Nat.eqb_eq in Hn. subst n. now rewrite Ek.
        - apply (wf_ctx Hwf' sub' (nth_error_In _ _ Hj')). }
      destruct (@forward_done_closes s' j sub' Hwf' Hcr Hj' Hrunning Hd)
        as [s'' [E1 [_ [_ [_ [_ V]]]]]].
      exists s''. rewrite <- Eo. auto.
    + left. assert (Hp : sub_pc sub' = Returned)
        by (destruct (sub_pc sub'); try discriminate; reflexivity).
      pose proof (wf_returned Hwf' sub' (nth_error_In _ _ Hj') Hp) as Hin.
      apply mem_In in Hin. unfold receive. now rewrite <- Eo, Hin.
  - intros Hr tr' s'' Hrun'. eapply receive_closed_stable; eassumption.
  - intros v p s'' Hr.
    apply (@carries_received (fun p => p < npub s) j s' sub' sub v p s''); assumption.
  - intros T ctx e val sd Hin.
    destruct (sender_in_dec sd (senders s')) as [Hold | Hnew]; [now left|].
    right. intros Hd. rewrite <- En in Hd.
    destruct (@publish_targets s' j sub' T ctx e val sd Hwf' Hj' Hin Hnew Hd)
      as [_ [_ [sm [Hreg Hsm]]]].
    destruct Hun as [_ Hun]. apply (Hun sm (sub_in sub')); simpl.
    + now rewrite <- Es, <- Et.
    + now rewrite <- Ei.
Qed.

Lemma C7_unsub_closes_channel_witness :
  reachable s_intSub /\ nth_error (subs s_intSub) 0 = Some intSub
  /\ run [CallPublish TInt Background Global (VInt 42)] s_unsub
     = Some (next_publish s_unsub)
  /\ (crashed (next_publish s_unsub) = None ->
      receive (sub_out intSub) (next_publish s_unsub) = RecvClosed
      \/ exists s'', step (ForwardDone 0) (next_publish s_unsub) = Some s''
                     /\ receive (sub_out intSub) s'' = RecvClosed)
  /\ (receive (sub_out intSub) (next_publish s_unsub) = RecvClosed ->
      forall tr' s'', run tr' (next_publish s_unsub) = Some s'' ->
                      receive (sub_out intSub) s'' = RecvClosed)
  /\ (forall v p s'',
         receive (sub_out intSub) (next_publish s_unsub) = RecvValue v p s'' ->
         p < npub s_intSub)
  /\ (forall T ctx e val sd,
         In sd (senders (outcome_state
                           (PublishToScope T ctx e val (next_publish s_unsub)))) ->
         In sd (senders (next_publish s_unsub)) \/ snd_dest sd <> sub_in intSub).
Proof.
  assert (Hre : reachable s_intSub)
    by (exists [CallSubscribe TInt callerCtx Global]; reflexivity).
  split; [exact Hre|]. split; [reflexivity|]. split; [reflexivity|].
  apply (@C7_unsub_closes_channel s_intSub 0 intSub
           [CallPublish TInt Background Global (VInt 42)] (next_publish s_unsub)
           Hre eq_refl eq_refl).
Defined.

(** A publish under another key or on another scope is such a call. *)
Lemma unobserved_publish s j sub T ctx e val :
  wf s -> nth_error (subs s) j = Some sub ->
  key_of T <> key_of (sub_T sub) \/ e <> sub_scope sub ->
  unobserved j sub (npub s) (outcome_state (PublishToScope T ctx e val s)).
Proof.
  intros Hwf Hj Hne.
  destruct (publish_fields T ctx e val s) as [Hs [_ [Hn _]]].
  split; [now apply wf_publish|].
  split; [exists sub; rewrite Hs; split; [assumption | apply same_sub_refl]|].
  split; [lia|]. split.
  - intros sd Hin Hd. destruct (sender_in_dec sd (senders s)) as [Hold | Hnew].
    + pose proof (wf_snd_pub Hwf sd Hold). lia.
    + exfalso.
      destruct (@publish_targets s j sub T ctx e val sd Hwf Hj Hin Hnew Hd)
        as [He [Hk _]].
      destruct Hne; contradiction.
  - rewrite Hs. intros x v p Hx Hp.
    assert (p < npub s)
      by (eapply (wf_sub_pub Hwf); [eapply nth_error_In|]; eassumption).
    lia.
Qed.

Lemma unobserved_step j sub p a x x' :
  unobserved j sub p x -> step a x = Some x' -> unobserved j sub p x'.
Proof.
  intros [Hwf [[sub' [Hj Hsame]] [Hlt Hcar]]] Hstep.
  split; [eapply wf_step; eassumption|].
  split.
  { destruct (@step_sub_persist a x x' j sub' Hstep Hj) as [sub2 [Hj2 Hs2]].
    exists sub2. split; [assumption | eapply same_sub_trans; eassumption]. }
  split; [pose proof (step_npub_mono _ _ Hstep); lia|].
  pose proof Hsame as [_ [_ [_ [En _]]]].
  apply (@carries_step _ j (sub_in sub) a x x' sub' Hj En Hcar Hstep).
  intros T ctx e val sd _ Hin Hnew _.
  apply publish_senders in Hin. destruct Hin as [Hin | [Hp _]]; [contradiction|]. lia.
Qed.



(** * Further properties of the package *)

(** ** Scopes are isolated *)

(** A publish on one scope starts no sender for a subscription made on
    another scope, whatever the type, and nothing that subscription's
    reader receives afterwards stems from that call. *)
Theorem scopes_isolated s j sub T ctx e val :
  reachable s -> nth_error (subs s) j = Some sub -> e <> sub_scope sub ->
  (forall sd, In sd (senders (outcome_state (PublishToScope T ctx e val s))) ->
              In sd (senders s) \/ snd_dest sd <> sub_in sub)
  /\ (forall tr s' w p s'',
         run tr (outcome_state (PublishToScope T ctx e val s)) = Some s' ->
         receive (sub_out sub) s' = RecvValue w p s'' -> p <> npub s).
Proof.
  intros Hre Hj Hne. pose proof (reachable_wf Hre) as Hwf. split.
  - intros sd Hin.
    destruct (sender_in_dec sd (senders s)) as [Hold | Hnew]; [now left|].
    right. intros Hd.
    destruct (@publish_targets s j sub T ctx e val sd Hwf Hj Hin Hnew Hd) as [He _].
    contradiction.
  - intros tr s' w p s'' Hrun Hr.
    assert (Hinv : unobserved j sub (npub s) s').
    { apply (@run_invariant (unobserved j sub (npub s))) with (tr := tr)
        (s := outcome_state (PublishToScope T ctx e val s)); [| |assumption].
      - intros a x x'. apply unobserved_step.
      - apply unobserved_publish; auto. }
    destruct Hinv as [Hwf' [[sub' [Hj' Hsame]] [_ Hcar]]].
    apply (@carries_received (fun q => q <> npub s) j s' sub' sub w p s''); assumption.
Qed.

Lemma scopes_isolated_witness :
  reachable s_intSub /\ nth_error (subs s_intSub) 0 = Some intSub
  /\ 1 <> sub_scope intSub
  /\ (forall sd,
         In sd (senders (outcome_state
                           (PublishToScope TInt Background 1 (VInt 42) s_intSub))) ->
         In sd (senders s_intSub) \/ snd_dest sd <> sub_in intSub)
  /\ (forall tr s' w p s'',
         run tr (outcome_state (PublishToScope TInt Background 1 (VInt 42) s_intSub))
         = Some s' ->
         receive (sub_out intSub) s' = RecvValue w p s'' -> p <> npub s_intSub).
Proof.
  assert (Hre : reachable s_intSub)
    by (exists [CallSubscribe TInt callerCtx Global]; reflexivity).
  split; [exact Hre|]. split; [reflexivity|]. split; [discriminate|].
  apply (@scopes_isolated s_intSub 0 intSub TInt Background 1 (VInt 42) Hre eq_refl).
  discriminate.
Defined.

(** ** Subscriber sets persist *)

Section LoadFacts.
Variables K V : Type.
Variable eqb : K -> K -> bool.
Hypothesis eqb_eq : forall a b, eqb a b = true <-> a = b.

Lemma Load_app_some k (m m' : SyncMap K V) v :
  Load eqb k m = Some v -> Load eqb k (m ++ m') = Some v.
Proof.
  induction m as [|[k' v'] m IH]; simpl; [discriminate|].
  destruct (eqb k k'); auto.
Qed.

Lemma Load_app_none k (m m' : SyncMap K V) :
  Load eqb k m = None -> Load eqb k (m ++ m') = Load eqb k m'.
Proof.
  induction m as [|[k' v'] m IH]; simpl; [reflexivity|].
  destruct (eqb k k'); [discriminate | auto].
Qed.

Lemma Load_Alter_any k k0 f (m : SyncMap K V) :
  Load eqb k (Alter eqb k0 f m)
  = match Load eqb k m with
    | Some v => Some (if eqb k0 k then f v else v)
    | None => None
    end.
Proof.
  induction m as [|[k' v'] m IH]; simpl; [reflexivity|].
  destruct (eqb k k') eqn:He.
  - apply eqb_eq in He. subst k'.
    destruct (eqb k0 k) eqn:H0; simpl; rewrite (proj2 (eqb_eq k k) eq_refl); reflexivity.
  - destruct (eqb k0 k'); simpl; rewrite He; exact IH.
Qed.

Lemma Load_LoadOrStore_other k k0 v0 (m : SyncMap K V) :
  k <> k0 -> Load eqb k (LoadOrStore eqb k0 v0 m) = Load eqb k m.
Proof.
  intros Hne. unfold LoadOrStore. destruct (Load eqb k0 m); [reflexivity|].
  destruct (Load eqb k m) as [v|] eqn:HL.
  - now apply Load_app_some.
  - rewrite Load_app_none by assumption. simpl.
    destruct (eqb k k0) eqn:He; [|reflexivity].
    apply eqb_eq in He. contradiction.
Qed.

Lemma Delete_Store k v (m : SyncMap K V) :
  Delete eqb k (Store eqb k v m) = Delete eqb k m.
Proof.
  unfold Store, Delete. rewrite filter_app. simpl.
  rewrite (proj2 (eqb_eq k k) eq_refl). simpl. rewrite app_nil_r.
  fold (Delete eqb k m). fold (Delete eqb k (Delete eqb k m)).
  now apply Delete_idem.
Qed.
End LoadFacts.

Lemma Load_subscribed (k k0 : RegKey) (f : SubMap -> SubMap) (reg : Registry) sm :
  Load regkey_eqb k reg = Some sm ->
  exists sm',
    @Load RegKey SubMap regkey_eqb k
      (@Alter RegKey SubMap regkey_eqb k0 f
         (@LoadOrStore RegKey SubMap regkey_eqb k0 [] reg))
    = Some sm'.
Proof.
  intros HL. rewrite (@Load_Alter_any RegKey SubMap regkey_eqb regkey_eqb_eq).
  assert (HL' : exists v, @Load RegKey SubMap regkey_eqb k
                            (@LoadOrStore RegKey SubMap regkey_eqb k0 [] reg) = Some v).
  { destruct (regkey_eqb k k0) eqn:Hk.
    - apply regkey_eqb_eq in Hk. subst k.
      destruct (@Load_LoadOrStore RegKey SubMap regkey_eqb regkey_eqb_eq k0 [] reg)
        as [v [Hv _]].
      eauto.
    - exists sm. rewrite (@Load_LoadOrStore_other RegKey SubMap regkey_eqb regkey_eqb_eq);
        [assumption|].
      intros ->. rewrite regkey_eqb_refl in Hk. discriminate. }
  destruct HL' as [v ->]. eauto.
Qed.

(** A step never removes the subscriber set stored under a key. *)
Lemma step_keeps_subscriber_set a s s' k sm :
  Load regkey_eqb k (registry s) = Some sm -> step a s = Some s' ->
  exists sm', Load regkey_eqb k (registry s') = Some sm'.
Proof.
  intros HL Hstep. apply step_cases in Hstep. rename Hstep into Hs.
  destruct a as [T ctx e val | T ctx e | u | c' | i j | i | i | j | j | ch].
  - subst s'. destruct (publish_fields T ctx e val s) as [_ [-> _]]. eauto.
  - subst s'. unfold SubscribeToScope.
    destruct (negb (hashable_key (key_of T))); simpl; [eauto|].
    eapply Load_subscribed; eassumption.
  - subst s'. simpl. rewrite (Load_Alter_any regkey_eqb regkey_eqb_eq), HL. eauto.
  - subst s'. simpl. eauto.
  - destruct Hs as [sd [sb [_ [_ [_ [_ [[tv [_ ->]] | [_ ->]]]]]]]].
    + simpl. eauto.
    + destruct (forward_crash_fields "mismatched type" j sb
                  (with_senders (remove_nth i (senders s)) s)) as [_ [-> _]].
      simpl. eauto.
  - destruct Hs as [sd [_ [_ ->]]]. simpl. eauto.
  - destruct Hs as [sd [_ [_ ->]]]. simpl. eauto.
  - destruct Hs as [sb [_ [_ [_ ->]]]].
    destruct (forward_return_fields j sb s) as [_ [-> _]]. eauto.
  - destruct Hs as [sb [_ [_ [_ ->]]]].
    destruct (forward_return_fields j sb s) as [_ [-> _]]. eauto.
  - destruct Hs as [[_ ->] | [j [sb [v [p [_ [_ [_ [_ ->]]]]]]]]]; simpl; eauto.
Qed.

(** Once a type key has a subscriber set on a scope, it has one in every
    later state: unsubscribing empties the set but nothing deletes it. *)
Theorem subscriber_set_persists tr s s' k sm :
  Load regkey_eqb k (registry s) = Some sm -> run tr s = Some s' ->
  exists sm', Load regkey_eqb k (registry s') = Some sm'.
Proof.
  intros HL Hrun.
  apply (@run_invariant
           (fun x => exists sm', Load regkey_eqb k (registry x) = Some sm'))
    with (tr := tr) (s := s); [|eauto|assumption].
  intros a x x' [sm0 H0] Hstep. eapply step_keeps_subscriber_set; eassumption.
Qed.

Lemma subscriber_set_persists_witness :
  Load regkey_eqb (Global, key_of TInt) (registry s_intSub)
  = Some [(sub_id intSub, sub_in intSub)]
  /\ run [CallUnsub (unsub_of intSub); ForwardDone 0] s_intSub
     = Some (after [CallSubscribe TInt callerCtx Global; CallUnsub (unsub_of intSub);
                    ForwardDone 0])
  /\ exists sm',
       Load regkey_eqb (Global, key_of TInt)
            (registry (after [CallSubscribe TInt callerCtx Global;
                              CallUnsub (unsub_of intSub); ForwardDone 0]))
       = Some sm'.
Proof.
  split; [reflexivity|]. split; [reflexivity|].
  apply (@subscriber_set_persists [CallUnsub (unsub_of intSub); ForwardDone 0]
           s_intSub _ (Global, key_of TInt) [(sub_id intSub, sub_in intSub)]);
    reflexivity.
Defined.

(** ** Subscribing and unsubscribing at once *)

(** The id of a new subscription is in no subscriber set yet. *)
Lemma fresh_id_unregistered s k sm c :
  wf s -> In (k, sm) (registry s) -> ~ In (2 + fresh s, c) sm.
Proof.
  intros Hwf Hreg Hin. destruct k as [e key].
  destruct (wf_reg Hwf _ _ _ _ _ Hreg Hin) as [sub [Hsub [_ [Hid _]]]].
  pose proof (wf_bound Hwf sub Hsub) as [_ [_ Hlt]]. lia.
Qed.

(** [SubscribeToScope] followed at once by the returned [unsub] leaves the
    registry as [LoadOrStore] alone would: every subscriber set is as it
    was, and the set of the key exists, empty if the key was new. *)
Theorem subscribe_unsub_round_trip T ctx e s :
  reachable s -> hashable T = true ->
  exists ch u s1,
    SubscribeToScope T ctx e s = Return (ch, u) s1
    /\ registry (call_unsub u s1)
       = @LoadOrStore RegKey SubMap regkey_eqb (e, key_of T) [] (registry s)
    /\ (forall sm, Load regkey_eqb (e, key_of T) (registry s) = Some sm ->
                   registry (call_unsub u s1) = registry s)
    /\ (Load regkey_eqb (e, key_of T) (registry s) = None ->
        registry (call_unsub u s1) = registry s ++ [((e, key_of T), [])]).
Proof.
  intros Hre Hh. pose proof (reachable_wf Hre) as Hwf.
  assert (Hreg : registry (call_unsub (unsub_of (new_sub T ctx e s))
                             (outcome_state (SubscribeToScope T ctx e s)))
                 = @LoadOrStore RegKey SubMap regkey_eqb (e, key_of T) [] (registry s)).
  { unfold SubscribeToScope. unfold hashable in Hh. rewrite Hh. simpl.
    rewrite (@Alter_Alter RegKey SubMap regkey_eqb).
    apply (@Alter_id RegKey SubMap regkey_eqb regkey_eqb_eq).
    intros v Hin. rewrite (@Delete_Store UUID ChanId Nat.eqb nat_eqb_eq).
    apply (@Delete_absent UUID ChanId Nat.eqb nat_eqb_eq). intros c Hc.
    apply (@In_LoadOrStore RegKey SubMap regkey_eqb) in Hin.
    destruct Hin as [Hin | Heq].
    - eapply fresh_id_unregistered; eassumption.
    - inversion Heq; subst. destruct Hc. }
  destruct (@subscribe_registers T ctx e s Hh) as [s1 [Hs _]].
  rewrite Hs in Hreg. cbn [outcome_state] in Hreg.
  exists (fresh s), (unsub_of (new_sub T ctx e s)), s1.
  split; [assumption|]. split; [assumption|]. split.
  - intros sm HL. rewrite Hreg. unfold LoadOrStore. now rewrite HL.
  - intros HL. rewrite Hreg. unfold LoadOrStore. now rewrite HL.
Qed.

Lemma subscribe_unsub_round_trip_witness :
  reachable s_intSub /\ hashable TString = true
  /\ exists ch u s1,
       SubscribeToScope TString Background Global s_intSub = Return (ch, u) s1
       /\ registry (call_unsub u s1)
          = @LoadOrStore RegKey SubMap regkey_eqb (Global, key_of TString) []
                         (registry s_intSub)
       /\ (forall sm, Load regkey_eqb (Global, key_of TString) (registry s_intSub)
                      = Some sm ->
                      registry (call_unsub u s1) = registry s_intSub)
       /\ (Load regkey_eqb (Global, key_of TString) (registry s_intSub) = None ->
           registry (call_unsub u s1)
           = registry s_intSub ++ [((Global, key_of TString), [])]).
Proof.
  assert (Hre : reachable s_intSub)
    by (exists [CallSubscribe TInt callerCtx Global]; reflexivity).
  split; [exact Hre|]. split; [reflexivity|].
  apply (@subscribe_unsub_round_trip TString Background Global s_intSub Hre eq_refl).
Defined.

(** ** Subscribing with a context that is done already *)

(** [SubscribeToScope] does not look at its context: with a context that
    is done it still stores the entry and starts the forwarder, whose
    return is enabled at once; after it the channel reports end-of-stream
    and the entry is still registered. *)
Theorem subscribe_with_done_context T ctx e s :
  reachable s -> crashed s = None -> hashable T = true ->
  ctx_done (cancelled s) ctx = true ->
  exists ch u s1 s2,
    SubscribeToScope T ctx e s = Return (ch, u) s1
    /\ registered s1 (new_sub T ctx e s)
    /\ step (ForwardDone (List.length (subs s))) s1 = Some s2
    /\ receive ch s2 = RecvClosed
    /\ registered s2 (new_sub T ctx e s).
Proof.
  intros Hre Hcr Hh Hd. pose proof (reachable_wf Hre) as Hwf.
  destruct (@subscribe_registers T ctx e s Hh) as [s1 [Hs [Hj [Hreg [Hcr1 _]]]]].
  assert (Hwf1 : wf s1).
  { pose proof (@wf_subscribe T ctx e s Hwf) as H. now rewrite Hs in H. }
  assert (Hc1 : crashed s1 = None) by congruence.
  assert (Hcs : cancelled s1 = cancelled s).
  { pose proof (f_equal (fun o => cancelled (outcome_state o)) Hs) as H.
    simpl in H. rewrite <- H. unfold SubscribeToScope.
    destruct (negb (hashable_key (key_of T))); reflexivity. }
  assert (Hd1 : ctx_done (cancelled s1) (sub_ctx (new_sub T ctx e s)) = true).
  { simpl. rewrite Hcs, Hd. apply orb_true_r. }
  destruct (@forward_done_closes s1 (List.length (subs s)) (new_sub T ctx e s)
              Hwf1 Hc1 Hj eq_refl Hd1) as [s2 [E [_ [_ [_ [G V]]]]]].
  exists (fresh s), (unsub_of (new_sub T ctx e s)), s1, s2.
  split; [assumption|]. split; [assumption|]. split; [assumption|].
  split; [exact V|].
  destruct Hreg as [sm [HL Hin]]. exists sm. rewrite G. auto.
Qed.

Lemma subscribe_with_done_context_witness :
  reachable (cancel callerCancel init) /\ crashed (cancel callerCancel init) = None
  /\ hashable TInt = true
  /\ ctx_done (cancelled (cancel callerCancel init)) callerCtx = true
  /\ exists ch u s1 s2,
       SubscribeToScope TInt callerCtx Global (cancel callerCancel init)
       = Return (ch, u) s1
       /\ registered s1 (new_sub TInt callerCtx Global (cancel callerCancel init))
       /\ step (ForwardDone (List.length (subs (cancel callerCancel init)))) s1
          = Some s2
       /\ receive ch s2 = RecvClosed
       /\ registered s2 (new_sub TInt callerCtx Global (cancel callerCancel init)).
Proof.
  assert (Hre : reachable (cancel callerCancel init))
    by (exists [CallCancel callerCancel]; reflexivity).
  split; [exact Hre|]. split; [reflexivity|]. split; [reflexivity|].
  split; [reflexivity|].
  apply (@subscribe_with_done_context TInt callerCtx Global (cancel callerCancel init)
           Hre eq_refl eq_refl eq_refl).
Defined.

(** ** Ids, endpoints and panics *)

Lemma NoDup_map_fst_filter {A B} (p : A * B -> bool) (m : list (A * B)) :
  NoDup (map fst m) -> NoDup (map fst (filter p m)).
Proof.
  induction m as [|kv m IH]; simpl; intros Hnd; [constructor|].
  inversion Hnd as [|? ? Hnot Hnd']; subst.
  destruct (p kv); simpl; [|auto]. constructor; [|auto].
  intros Hin. apply Hnot. apply in_map_iff in Hin. destruct Hin as [x [Hx Hin]].
  apply filter_In in Hin. apply in_map_iff. exists x. tauto.
Qed.

Lemma NoDup_map_fst_Store k c (m : SubMap) :
  NoDup (map fst m) -> NoDup (map fst (Store Nat.eqb k c m)).
Proof.
  intros Hnd. unfold Store. rewrite map_app. simpl. apply NoDup_snoc.
  - unfold Delete. now apply NoDup_map_fst_filter.
  - intros Hin. apply in_map_iff in Hin. destruct Hin as [[k' c'] [Hk Hin]].
    simpl in Hk. subst k'. apply (In_Delete Nat.eqb nat_eqb_eq) in Hin.
    simpl in Hin. tauto.
Qed.

Lemma wf_ids_init : wf_ids init.
Proof. constructor; simpl; try constructor; try tauto. Qed.

(** Moving a forwarder, dropping senders, closing a fresh channel and
    ending in the panic of line 115 keep these invariants. *)
Lemma wf_ids_update s j pc sn cl cr :
  wf_ids s ->
  (forall sd, In sd sn -> In sd (senders s)) ->
  NoDup cl ->
  cr = None \/ cr = Some "mismatched type" ->
  wf_ids (mkState (fresh s) (registry s) (cancelled s) cl sn
                  (update_nth j (set_pc pc) (subs s)) (npub s) cr).
Proof.
  intros [Hi Hcs Hcb Hd Hk Hc Hcr] Hsn Hcl Hcr'. constructor; simpl; auto.
  - rewrite map_update_nth; auto.
  - rewrite map_update_nth; auto.
  - intros x Hx. apply In_update_set_pc in Hx.
    destruct Hx as [y [Hy [[_ [_ [_ [_ [_ [_ E]]]]]] _]]]. rewrite E. auto.
  - intros sd Hin. destruct (Hd sd (Hsn sd Hin)) as [sub [Hsub Heq]].
    destruct (@update_set_pc_In sub j pc _ Hsub) as [x [Hx [[_ [_ [_ [E _]]]] _]]].
    exists x. split; [assumption | congruence].
Qed.

Lemma wf_ids_same_subs s sn cr :
  wf_ids s ->
  (forall sd, In sd sn -> In sd (senders s)) ->
  cr = None \/ cr = Some "mismatched type" ->
  wf_ids (mkState (fresh s) (registry s) (cancelled s) (closed s) sn
                  (subs s) (npub s) cr).
Proof. intros [Hi Hcs Hcb Hd Hk Hc Hcr] Hsn Hcr'. constructor; simpl; auto. Qed.

Lemma wf_ids_forward_return s j sub sn cr :
  wf s -> wf_ids s -> nth_error (subs s) j = Some sub -> running (sub_pc sub) = true ->
  (forall sd, In sd sn -> In sd (senders s)) ->
  cr = None \/ cr = Some "mismatched type" ->
  wf_ids (forward_return j sub
            (mkState (fresh s) (registry s) (cancelled s) (closed s) sn
                     (subs s) (npub s) cr)).
Proof.
  intros Hwf Hids Hj Hrun Hsn Hcr.
  assert (Ho : mem (sub_out sub) (closed s) = false).
  { apply wf_out_open; [assumption | eapply nth_error_In; eassumption|].
    intros Hp. rewrite Hp in Hrun. discriminate. }
  unfold forward_return, close_chan. simpl. rewrite Ho.
  apply (@wf_ids_update s j Returned sn (sub_out sub :: closed s) cr); auto.
  constructor; [|apply (wi_closed Hids)].
  intros Hin. apply mem_In in Hin. congruence.
Qed.

Theorem wf_ids_step a s s' : wf s -> wf_ids s -> step a s = Some s' -> wf_ids s'.
Proof.
  intros Hwf Hids Hstep. pose proof Hstep as Hcases.
  apply step_cases in Hcases. rename Hcases into Hs.
  pose proof Hids as [Hi Hcs Hcb Hd Hk Hc Hcr].
  destruct a as [T ctx e val | T ctx e | u | c' | i j | i | i | j | j | ch].
  - subst s'. unfold PublishToScope.
    destruct (negb (hashable_key (key_of T))); simpl;
      [constructor; simpl; auto|].
    destruct (Load regkey_eqb (e, key_of T) (registry s)) as [sm|] eqn:HL; simpl;
      [|constructor; simpl; auto].
    constructor; simpl; auto.
    intros sd Hin. apply in_app_iff in Hin. destruct Hin as [Hin | Hin]; [auto|].
    apply in_map_iff in Hin. destruct Hin as [[id c] [<- Hin]]. simpl.
    apply (Load_In regkey_eqb regkey_eqb_eq) in HL.
    destruct (wf_reg Hwf _ _ _ _ _ HL Hin) as [sub [Hsub [Hin' _]]]. eauto.
  - subst s'. unfold SubscribeToScope.
    destruct (negb (hashable_key (key_of T))); simpl.
    { constructor; simpl; auto. intros sub Hin. pose proof (Hcb sub Hin). lia. }
    constructor; simpl; auto.
    + rewrite map_app. simpl. apply NoDup_snoc; [assumption|].
      intros Hin. apply in_map_iff in Hin. destruct Hin as [sub [Heq Hin]].
      pose proof (wf_bound Hwf sub Hin). lia.
    + rewrite map_app. simpl. apply NoDup_snoc; [assumption|].
      intros Hin. apply in_map_iff in Hin. destruct Hin as [sub [Heq Hin]].
      pose proof (Hcb sub Hin). lia.
    + intros sub Hin. apply in_app_iff in Hin. destruct Hin as [Hin | [<- | []]].
      * pose proof (Hcb sub Hin). lia.
      * simpl. lia.
    + intros sd Hin. destruct (Hd sd Hin) as [sub [Hsub Heq]].
      exists sub. split; [apply in_app_iff; auto | assumption].
    + intros k sm Hin.
      assert (Hold : forall v, In (k, v) (@LoadOrStore RegKey SubMap regkey_eqb
                                            (e, key_of T) [] (registry s)) ->
                               NoDup (map fst v)).
      { intros v Hv. apply (@In_LoadOrStore RegKey SubMap regkey_eqb) in Hv.
        destruct Hv as [Hv | Hv]; [eauto|]. inversion Hv. constructor. }
      apply (@In_Alter RegKey SubMap regkey_eqb regkey_eqb_eq) in Hin.
      destruct Hin as [[Hin _] | [v [Hin Heq]]]; [now apply Hold|].
      inversion Heq; subst. apply NoDup_map_fst_Store. now apply Hold.
  - subst s'. constructor; simpl; auto.
    intros k sm Hin.
    apply (@In_Alter RegKey SubMap regkey_eqb regkey_eqb_eq) in Hin.
    destruct Hin as [[Hin _] | [v [Hin Heq]]]; [eauto|].
    inversion Heq; subst. unfold Delete. apply NoDup_map_fst_filter. eauto.
  - subst s'. constructor; simpl; auto.
  - destruct Hs as [sd [sb [Hsd [Hsb [_ [Hpc [[tv [_ ->]] | [_ ->]]]]]]]].
    + apply (@wf_ids_update s j (AtSend tv (snd_pub sd))
               (remove_nth i (senders s)) (closed s) (crashed s)); auto.
      intros x. apply In_remove_nth.
    + assert (Hfr : wf_ids (forward_return j sb
                              (with_senders (remove_nth i (senders s)) s))).
      { apply wf_ids_forward_return; auto.
        - now rewrite Hpc.
        - intros x. apply In_remove_nth. }
      destruct Hfr. constructor; simpl; auto.
  - destruct Hs as [sd [_ [_ ->]]].
    apply wf_ids_same_subs; auto. intros x. apply In_remove_nth.
  - destruct Hs as [sd [Hsd [Hm _]]]. exfalso.
    destruct (Hd sd (nth_error_In _ _ Hsd)) as [sub [Hsub Heq]].
    rewrite <- Heq, (@wf_in_open s sub Hwf Hsub) in Hm. discriminate.
  - destruct Hs as [sb [Hsb [Hrun [_ ->]]]].
    apply (@wf_ids_forward_return s j sb (senders s) (crashed s)); auto.
  - destruct Hs as [sb [Hsb [_ [Hm _]]]]. exfalso.
    rewrite (@wf_in_open s sb Hwf (nth_error_In _ _ Hsb)) in Hm. discriminate.
  - destruct Hs as [[_ ->] | [j [sb [v [p [_ [_ [_ [_ ->]]]]]]]]]; [assumption|].
    apply (@wf_ids_update s j AtSelect (senders s) (closed s) (crashed s)); auto.
Qed.

Theorem reachable_wf_ids s : reachable s -> wf_ids s.
Proof.
  intros [tr Htr].
  assert (H : wf s /\ wf_ids s); [|tauto].
  apply (@run_invariant (fun x => wf x /\ wf_ids x)) with (tr := tr) (s := init);
    [|split; [apply wf_init | apply wf_ids_init]|assumption].
  intros a x x' [Hw Hi] Hstep. split.
  - eapply wf_step; eassumption.
  - eapply wf_ids_step; eassumption.
Qed.

(** The untyped endpoint of a subscription is never closed: the [!ok]
    branch of lines 110-112 is never taken and no sender of line 60 ever
    panics on a closed channel. *)
Theorem endpoints_never_closed s :
  reachable s ->
  (forall sub, In sub (subs s) -> mem (sub_in sub) (closed s) = false)
  /\ (forall sd, In sd (senders s) -> mem (snd_dest sd) (closed s) = false)
  /\ (forall i, step (SendOnClosed i) s = None)
  /\ (forall j, step (ForwardInClosed j) s = None).
Proof.
  intros Hre. pose proof (reachable_wf Hre) as Hwf.
  pose proof (reachable_wf_ids Hre) as Hids.
  assert (Hsub : forall sub, In sub (subs s) -> mem (sub_in sub) (closed s) = false)
    by (intros sub Hin; now apply wf_in_open).
  assert (Hsd : forall sd, In sd (senders s) -> mem (snd_dest sd) (closed s) = false).
  { intros sd Hin. destruct (wi_dest Hids sd Hin) as [sub [Hin' <-]]. auto. }
  split; [assumption|]. split; [assumption|]. split.
  - intros i. unfold step.
    unfold send_on_closed. destruct (nth_error (senders s) i) as [sd|] eqn:Hi;
      [|reflexivity].
    now rewrite (Hsd sd (nth_error_In _ _ Hi)).
  - intros j. unfold step.
    unfold forward_in_closed. destruct (nth_error (subs s) j) as [sub|] eqn:Hj;
      [|reflexivity].
    rewrite (Hsub sub (nth_error_In _ _ Hj)). now rewrite andb_false_r.
Qed.

Lemma endpoints_never_closed_witness :
  reachable s_unsub
  /\ (forall sub, In sub (subs s_unsub) -> mem (sub_in sub) (closed s_unsub) = false)
  /\ (forall sd, In sd (senders s_unsub) -> mem (snd_dest sd) (closed s_unsub) = false)
  /\ (forall i, step (SendOnClosed i) s_unsub = None)
  /\ (forall j, step (ForwardInClosed j) s_unsub = None).
Proof.
  assert (Hre : reachable s_unsub)
    by (exists [CallSubscribe TInt callerCtx Global; CallUnsub (unsub_of intSub)];
        reflexivity).
  split; [exact Hre|]. apply (@endpoints_never_closed s_unsub Hre).
Defined.

(** A goroutine of the package ends in no panic but that of line 115: no
    typed channel is closed twice, and no send meets a closed channel. *)
Theorem only_mismatch_panics s :
  reachable s ->
  (crashed s = None \/ crashed s = Some "mismatched type")
  /\ NoDup (closed s)
  /\ (forall sub, In sub (subs s) ->
        (In (sub_out sub) (closed s) <-> sub_pc sub = Returned)).
Proof.
  intros Hre. pose proof (reachable_wf Hre) as Hwf.
  pose proof (reachable_wf_ids Hre) as Hids.
  split; [apply (wi_crash Hids)|]. split; [apply (wi_closed Hids)|].
  intros sub Hin. split.
  - intros Hc. destruct (sub_pc sub) eqn:Hp; try reflexivity; exfalso;
      apply mem_In in Hc;
      rewrite (@wf_out_open s sub Hwf Hin) in Hc; congruence.
  - apply (wf_returned Hwf sub Hin).
Qed.

Lemma only_mismatch_panics_witness :
  reachable s_unsub
  /\ (crashed s_unsub = None \/ crashed s_unsub = Some "mismatched type")
  /\ NoDup (closed s_unsub)
  /\ (forall sub, In sub (subs s_unsub) ->
        (In (sub_out sub) (closed s_unsub) <-> sub_pc sub = Returned)).
Proof.
  assert (Hre : reachable s_unsub)
    by (exists [CallSubscribe TInt callerCtx Global; CallUnsub (unsub_of intSub)];
        reflexivity).
  split; [exact Hre|]. apply (@only_mismatch_panics s_unsub Hre).
Defined.

(** ** One sender per subscriber and publish call *)

Lemma filter_none {A} (p : A -> bool) (l : list A) :
  (forall x, In x l -> p x = false) -> filter p l = [].
Proof.
  induction l as [|x l IH]; simpl; intros H; [reflexivity|].
  rewrite (H x (or_introl eq_refl)). apply IH. auto.
Qed.

(** In a list with unique keys, a filter that only one entry can pass
    keeps that entry or nothing. *)
Lemma filter_unique {A B} (p : A * B -> bool) (m : list (A * B)) (y : A * B) :
  NoDup (map fst m) ->
  (forall x, In x m -> p x = true -> x = y) ->
  filter p m = if existsb p m then [y] else [].
Proof.
  induction m as [|x m IH]; simpl; intros Hnd Hy; [reflexivity|].
  inversion Hnd as [|? ? Hnot Hnd']; subst.
  destruct (p x) eqn:Hp; simpl.
  - assert (x = y) by (apply Hy; auto). subst x.
    rewrite filter_none; [reflexivity|].
    intros x Hin. destruct (p x) eqn:Hpx; [|reflexivity]. exfalso.
    assert (x = y) by (apply Hy; auto). subst x.
    apply Hnot. now apply in_map.
  - apply IH; auto.
Qed.

Lemma senders_to_spawned c p (val : any) ctx (sm : list (UUID * ChanId)) :
  senders_to c p (map (fun kv : UUID * ChanId => mkSender (snd kv) val ctx p) sm)
  = map (fun kv : UUID * ChanId => mkSender (snd kv) val ctx p)
        (filter (fun kv : UUID * ChanId => Nat.eqb (snd kv) c) sm).
Proof.
  unfold senders_to. induction sm as [|kv sm IH]; simpl; [reflexivity|].
  rewrite Nat.eqb_refl, andb_true_r.
  destruct (Nat.eqb (snd kv) c); simpl; [apply f_equal|]; exact IH.
Qed.

(** A publish call starts exactly one sender for a subscription that is
    registered under the published key on the scope, carrying the value,
    and none for any other subscription. *)
Theorem publish_fans_out_once s j sub T ctx e val :
  reachable s -> nth_error (subs s) j = Some sub ->
  (hashable T = true -> e = sub_scope sub -> key_of T = key_of (sub_T sub) ->
   registered s sub ->
   senders_to (sub_in sub) (npub s)
              (senders (outcome_state (PublishToScope T ctx e val s)))
   = [mkSender (sub_in sub) (to_any T val) ctx (npub s)])
  /\ (hashable T = false \/ e <> sub_scope sub \/ key_of T <> key_of (sub_T sub)
      \/ ~ registered s sub ->
      senders_to (sub_in sub) (npub s)
                 (senders (outcome_state (PublishToScope T ctx e val s)))
      = []).
Proof.
  intros Hre Hj. pose proof (reachable_wf Hre) as Hwf.
  pose proof (reachable_wf_ids Hre) as Hids.
  assert (Hold : senders_to (sub_in sub) (npub s) (senders s) = []).
  { apply filter_none. intros sd Hin.
    pose proof (wf_snd_pub Hwf sd Hin) as Hlt.
    destruct (Nat.eqb (snd_pub sd) (npub s)) eqn:He; [|apply andb_false_r].
    apply Nat.eqb_eq in He. lia. }
  assert (Hsm : forall sm, Load regkey_eqb (e, key_of T) (registry s) = Some sm ->
            filter (fun kv : UUID * ChanId => Nat.eqb (snd kv) (sub_in sub)) sm
            = if existsb (fun kv : UUID * ChanId => Nat.eqb (snd kv) (sub_in sub)) sm
              then [(sub_id sub, sub_in sub)] else []).
  { intros sm HL. apply (Load_In regkey_eqb regkey_eqb_eq) in HL.
    apply filter_unique; [apply (wi_keys Hids _ _ HL)|].
    intros [id c] Hin Hc. simpl in Hc. apply Nat.eqb_eq in Hc. subst c.
    destruct (wf_reg Hwf _ _ _ _ _ HL Hin) as [x [Hx [E1 [E2 _]]]].
    assert (x = sub).
    { apply (@NoDup_map_inj _ _ sub_in (subs s)); eauto using wf_ins, nth_error_In. }
    subst x. now rewrite E2. }
  split.
  - intros Hh He Hk [sm [HL Hin]]. subst e. rewrite <- Hk in HL.
    unfold PublishToScope. unfold hashable in Hh. rewrite Hh, HL. simpl.
    unfold senders_to at 1. rewrite filter_app. fold (senders_to (sub_in sub) (npub s) (senders s)).
    rewrite Hold. simpl.
    fold (senders_to (sub_in sub) (npub s)
            (map (fun kv : UUID * ChanId => mkSender (snd kv) (to_any T val) ctx (npub s)) sm)).
    rewrite senders_to_spawned, (Hsm sm HL).
    assert (Hex : existsb (fun kv : UUID * ChanId => Nat.eqb (snd kv) (sub_in sub)) sm
                  = true).
    { apply existsb_exists. exists (sub_id sub, sub_in sub). split; [assumption|].
      simpl. apply Nat.eqb_refl. }
    rewrite Hex. reflexivity.
  - intros Hno. unfold PublishToScope.
    destruct (negb (hashable_key (key_of T))) eqn:Hh; simpl; [assumption|].
    destruct (Load regkey_eqb (e, key_of T) (registry s)) as [sm|] eqn:HL; simpl;
      [|assumption].
    unfold senders_to at 1. rewrite filter_app. fold (senders_to (sub_in sub) (npub s) (senders s)).
    rewrite Hold. simpl.
    fold (senders_to (sub_in sub) (npub s)
            (map (fun kv : UUID * ChanId => mkSender (snd kv) (to_any T val) ctx (npub s)) sm)).
    rewrite senders_to_spawned, (Hsm sm eq_refl).
    destruct (existsb (fun kv : UUID * ChanId => Nat.eqb (snd kv) (sub_in sub)) sm)
      eqn:Hex; [|reflexivity].
    exfalso. apply existsb_exists in Hex. destruct Hex as [[id c] [Hin Hc]].
    simpl in Hc. apply Nat.eqb_eq in Hc. subst c.
    pose proof (Load_In regkey_eqb regkey_eqb_eq _ _ HL) as HL'.
    destruct (wf_reg Hwf _ _ _ _ _ HL' Hin) as [x [Hx [E1 [E2 [E3 E4]]]]].
    assert (x = sub).
    { apply (@NoDup_map_inj _ _ sub_in (subs s)); eauto using wf_ins, nth_error_In. }
    subst x.
    destruct Hno as [Hno | [Hno | [Hno | Hno]]].
    + unfold hashable in Hno. rewrite Hno in Hh. discriminate.
    + congruence.
    + congruence.
    + apply Hno. exists sm. rewrite E3, E4. split; [assumption | congruence].
Qed.

Lemma publish_fans_out_once_witness :
  reachable s_intSub /\ nth_error (subs s_intSub) 0 = Some intSub
  /\ hashable TInt = true /\ Global = sub_scope intSub
  /\ key_of TInt = key_of (sub_T intSub) /\ registered s_intSub intSub
  /\ senders_to (sub_in intSub) (npub s_intSub)
       (senders (outcome_state
                   (PublishToScope TInt Background Global (VInt 42) s_intSub)))
     = [mkSender (sub_in intSub) (to_any TInt (VInt 42)) Background (npub s_intSub)]
  /\ (hashable TInt = false \/ Global <> sub_scope intSub
      \/ key_of TInt <> key_of (sub_T intSub) \/ ~ registered s_intSub intSub ->
      senders_to (sub_in intSub) (npub s_intSub)
        (senders (outcome_state
                    (PublishToScope TInt Background Global (VInt 42) s_intSub)))
      = []).
Proof.
  assert (Hre : reachable s_intSub)
    by (exists [CallSubscribe TInt callerCtx Global]; reflexivity).
  assert (Hreg : registered s_intSub intSub)
    by (eexists; split; [reflexivity | left; reflexivity]).
  split; [exact Hre|]. split; [reflexivity|]. split; [reflexivity|].
  split; [reflexivity|]. split; [reflexivity|]. split; [exact Hreg|].
  split.
  - exact (proj1 (@publish_fans_out_once s_intSub 0 intSub TInt Background Global
                    (VInt 42) Hre eq_refl) eq_refl eq_refl eq_refl Hreg).
  - exact (proj2 (@publish_fans_out_once s_intSub 0 intSub TInt Background Global
                    (VInt 42) Hre eq_refl)).
Defined.

(** ** Unsubscribing one subscription leaves the others *)

Lemma NoDup_map_nth_error {A B} (f : A -> B) l j j' a b :
  NoDup (map f l) -> nth_error l j = Some a -> nth_error l j' = Some b ->
  f a = f b -> j = j'.
Proof.
  intros Hnd Ha Hb Heq.
  apply (proj1 (NoDup_nth_error (map f l)) Hnd).
  - rewrite length_map. apply nth_error_Some. congruence.
  - rewrite !nth_error_map, Ha, Hb. simpl. congruence.
Qed.

(** Calling a cancel function leaves a context that is not derived from
    it as it was. *)
Lemma ctx_done_add_other c cs ctx :
  ~ In c (cancel_ids ctx) -> ctx_done (add c cs) ctx = ctx_done cs ctx.
Proof.
  induction ctx as [|p IH c']; simpl; [reflexivity|].
  intros Hn. rewrite mem_add, IH by tauto.
  destruct (Nat.eqb c' c) eqn:He; [|reflexivity].
  apply Nat.eqb_eq in He. subst c'. tauto.
Qed.

(** The [unsub] of one subscription removes no entry but its own and
    calls no cancel function but its own.  The forwarding context of
    another subscription, made from the context [parent] that its
    subscriber passed in, is done afterwards exactly if it was before, and
    its forwarder's return is enabled exactly if it was before, provided
    [parent] is not derived from the forwarding context of the
    subscription that is unsubscribed (the package hands that context to
    [castAndForward] only).  No goroutine moves and no channel is closed
    by the call itself. *)
Theorem unsub_leaves_others s j j' sub sub' parent :
  reachable s ->
  nth_error (subs s) j = Some sub -> nth_error (subs s) j' = Some sub' -> j <> j' ->
  sub_ctx sub' = WithCancel parent (sub_cancel sub') ->
  ~ In (sub_cancel sub) (cancel_ids parent) ->
  (registered s sub' <-> registered (call_unsub (unsub_of sub) s) sub')
  /\ mem (sub_cancel sub') (cancelled (call_unsub (unsub_of sub) s))
     = mem (sub_cancel sub') (cancelled s)
  /\ ctx_done (cancelled (call_unsub (unsub_of sub) s)) (sub_ctx sub')
     = ctx_done (cancelled s) (sub_ctx sub')
  /\ (step (ForwardDone j') (call_unsub (unsub_of sub) s) = None
      <-> step (ForwardDone j') s = None)
  /\ subs (call_unsub (unsub_of sub) s) = subs s
  /\ senders (call_unsub (unsub_of sub) s) = senders s
  /\ closed (call_unsub (unsub_of sub) s) = closed s.
Proof.
  intros Hre Hj Hj' Hne Hctx Hpar. pose proof (reachable_wf_ids Hre) as Hids.
  assert (Hid : sub_id sub <> sub_id sub').
  { intros Heq. apply Hne.
    eapply (@NoDup_map_nth_error _ _ sub_id (subs s)); eauto using wi_ids. }
  assert (Hc : sub_cancel sub <> sub_cancel sub').
  { intros Heq. apply Hne.
    eapply (@NoDup_map_nth_error _ _ sub_cancel (subs s)); eauto using wi_cancels. }
  assert (Hdone : ctx_done (cancelled (call_unsub (unsub_of sub) s)) (sub_ctx sub')
                  = ctx_done (cancelled s) (sub_ctx sub')).
  { simpl. apply ctx_done_add_other. rewrite Hctx. simpl. intros [He | Hin].
    - congruence.
    - contradiction. }
  split; [|split; [|split; [assumption|split; [|repeat split]]]].
  - unfold registered. simpl.
    split; intros [sm [HL Hin]].
    + rewrite (@Load_Alter_any RegKey SubMap regkey_eqb regkey_eqb_eq), HL.
      eexists. split; [reflexivity|].
      destruct (regkey_eqb (sub_scope sub, key_of (sub_T sub))
                           (sub_scope sub', key_of (sub_T sub'))); [|assumption].
      apply (In_Delete Nat.eqb nat_eqb_eq). simpl. split; [assumption | congruence].
    + rewrite (@Load_Alter_any RegKey SubMap regkey_eqb regkey_eqb_eq) in HL.
      destruct (@Load RegKey SubMap regkey_eqb (sub_scope sub', key_of (sub_T sub'))
                      (registry s)) as [sm0|]; [|discriminate].
      exists sm0. split; [reflexivity|]. inversion HL; subst sm.
      destruct (regkey_eqb (sub_scope sub, key_of (sub_T sub))
                           (sub_scope sub', key_of (sub_T sub'))); [|assumption].
      now apply (In_Delete Nat.eqb nat_eqb_eq) in Hin.
  - simpl. rewrite mem_add.
    destruct (Nat.eqb (sub_cancel sub') (sub_cancel sub)) eqn:He; [|reflexivity].
    apply Nat.eqb_eq in He. congruence.
  - unfold step, forward_done.
    change (subs (call_unsub (unsub_of sub) s)) with (subs s).
    rewrite Hj', Hdone.
    destruct (running (sub_pc sub') && ctx_done (cancelled s) (sub_ctx sub'));
      split; intros H; try discriminate; reflexivity.
Qed.

Lemma unsub_leaves_others_witness :
  reachable s_twoSubs
  /\ nth_error (subs s_twoSubs) 1 = Some secondSub
  /\ nth_error (subs s_twoSubs) 0 = Some intSub /\ 1 <> 0
  /\ sub_ctx intSub = WithCancel callerCtx (sub_cancel intSub)
  /\ ~ In (sub_cancel secondSub) (cancel_ids callerCtx)
  /\ (registered s_twoSubs intSub
      <-> registered (call_unsub (unsub_of secondSub) s_twoSubs) intSub)
  /\ mem (sub_cancel intSub) (cancelled (call_unsub (unsub_of secondSub) s_twoSubs))
     = mem (sub_cancel intSub) (cancelled s_twoSubs)
  /\ ctx_done (cancelled (call_unsub (unsub_of secondSub) s_twoSubs)) (sub_ctx intSub)
     = ctx_done (cancelled s_twoSubs) (sub_ctx intSub)
  /\ (step (ForwardDone 0) (call_unsub (unsub_of secondSub) s_twoSubs) = None
      <-> step (ForwardDone 0) s_twoSubs = None)
  /\ subs (call_unsub (unsub_of secondSub) s_twoSubs) = subs s_twoSubs
  /\ senders (call_unsub (unsub_of secondSub) s_twoSubs) = senders s_twoSubs
  /\ closed (call_unsub (unsub_of secondSub) s_twoSubs) = closed s_twoSubs.
Proof.
  assert (Hre : reachable s_twoSubs)
    by (exists [CallSubscribe TInt callerCtx Global;
                CallSubscribe TInt Background Global]; reflexivity).
  assert (Hpar : ~ In (sub_cancel secondSub) (cancel_ids callerCtx))
    by (simpl; intros [H | []]; discriminate H).
  split; [exact Hre|]. split; [reflexivity|]. split; [reflexivity|].
  split; [discriminate|]. split; [reflexivity|]. split; [exact Hpar|].
  apply (@unsub_leaves_others s_twoSubs 1 0 secondSub intSub callerCtx Hre
           eq_refl eq_refl); [discriminate | reflexivity | exact Hpar].
Defined.

(** ** Senders that are never received *)

Lemma Sender_eq_dec (a b : Sender) : {a = b} + {a <> b}.
Proof.
  decide equality; try apply Nat.eq_dec; try apply Value_eq_dec.
  decide equality; apply Nat.eq_dec.
Qed.

Lemma In_remove_nth_other {A} (x : A) i l :
  In x l -> nth_error l i <> Some x -> In x (remove_nth i l).
Proof.
  revert i. induction l as [|y l IH]; intros [|i]; simpl; auto.
  - intros [-> | H] Hne; [congruence | assumption].
  - intros [-> | H] Hne; auto.
Qed.

(** A returned forwarder stays returned. *)
Lemma returned_step a s s' j sub :
  step a s = Some s' -> nth_error (subs s) j = Some sub -> sub_pc sub = Returned ->
  nth_error (subs s') j = Some sub.
Proof.
  intros Hstep Hj Hp.
  assert (Hupd : forall k pc sb, nth_error (subs s) k = Some sb ->
                                 sub_pc sb <> Returned ->
                                 nth_error (update_nth k (set_pc pc) (subs s)) j = Some sub).
  { intros k pc sb Hk Hsb. destruct (Nat.eq_dec k j) as [-> | Hne].
    - congruence.
    - now rewrite nth_error_update_nth_neq. }
  apply step_cases in Hstep. rename Hstep into Hs.
  destruct a as [T ctx e val | T ctx e | u | c' | i k | i | i | k | k | ch].
  - subst s'. destruct (publish_fields T ctx e val s) as [-> _]. assumption.
  - subst s'. unfold SubscribeToScope.
    destruct (negb (hashable_key (key_of T))); simpl; [assumption|].
    rewrite nth_error_app1; [assumption|]. apply nth_error_Some. congruence.
  - subst s'. assumption.
  - subst s'. assumption.
  - destruct Hs as [sd [sb [_ [Hk [_ [Hpc [[tv [_ ->]] | [_ ->]]]]]]]].
    + simpl. apply (Hupd k _ sb Hk). congruence.
    + destruct (forward_crash_fields "mismatched type" k sb
                  (with_senders (remove_nth i (senders s)) s)) as [-> _].
      simpl. apply (Hupd k _ sb Hk). congruence.
  - destruct Hs as [sd [_ [_ ->]]]. assumption.
  - destruct Hs as [sd [_ [_ ->]]]. assumption.
  - destruct Hs as [sb [Hk [Hrun [_ ->]]]].
    destruct (forward_return_fields k sb s) as [-> _].
    apply (Hupd k _ sb Hk). intros Hr. rewrite Hr in Hrun. discriminate.
  - destruct Hs as [sb [Hk [Hpc [_ ->]]]].
    destruct (forward_return_fields k sb s) as [-> _].
    apply (Hupd k _ sb Hk). congruence.
  - destruct Hs as [[_ ->] | [k [sb [v [p [Hk [_ [Hpc [_ ->]]]]]]]]]; [assumption|].
    simpl. apply (Hupd k _ sb Hk). congruence.
Qed.

Lemma stuck_sender_step a s s' j sub sd :
  wf s -> nth_error (subs s) j = Some sub -> sub_pc sub = Returned ->
  snd_dest sd = sub_in sub ->
  In sd (senders s) \/ ctx_done (cancelled s) (snd_ctx sd) = true ->
  step a s = Some s' ->
  In sd (senders s') \/ ctx_done (cancelled s') (snd_ctx sd) = true.
Proof.
  intros Hwf Hj Hp Hd [Hin | Hdone] Hstep.
  2:{ right. eapply ctx_done_mono; [|eassumption].
      intros n. apply (@step_cancelled_mono a s s' n Hstep). }
  assert (Hrm : forall i x, nth_error (senders s) i = Some x -> x <> sd ->
                            In sd (remove_nth i (senders s))).
  { intros i x Hi Hne. apply In_remove_nth_other; [assumption|]. congruence. }
  apply step_cases in Hstep. rename Hstep into Hs.
  destruct a as [T ctx e val | T ctx e | u | c' | i k | i | i | k | k | ch].
  - subst s'. left. unfold PublishToScope.
    destruct (negb (hashable_key (key_of T))); simpl; [assumption|].
    destruct (Load regkey_eqb (e, key_of T) (registry s)); simpl; [|assumption].
    apply in_app_iff. now left.
  - subst s'. left. unfold SubscribeToScope.
    destruct (negb (hashable_key (key_of T))); simpl; assumption.
  - subst s'. now left.
  - subst s'. now left.
  - destruct Hs as [x [sb [Hi [Hk [Hxd [Hpc Hs]]]]]].
    assert (Hne : x <> sd).
    { intros ->. assert (sb = sub); [|congruence].
      apply (@NoDup_map_inj _ _ sub_in (subs s)); eauto using wf_ins, nth_error_In.
      congruence. }
    left. destruct Hs as [[tv [_ ->]] | [_ ->]].
    + simpl. eauto.
    + destruct (forward_crash_fields "mismatched type" k sb
                  (with_senders (remove_nth i (senders s)) s)) as [_ [_ [_ [-> _]]]].
      simpl. eauto.
  - destruct Hs as [x [Hi [Hdone ->]]]. simpl.
    destruct (Sender_eq_dec x sd) as [-> | Hne]; [now right | left; eauto].
  - destruct Hs as [x [Hi [Hm ->]]]. simpl. left.
    destruct (Sender_eq_dec x sd) as [-> | Hne]; [|eauto]. exfalso.
    rewrite Hd, (@wf_in_open s sub Hwf (nth_error_In _ _ Hj)) in Hm. discriminate.
  - destruct Hs as [sb [_ [_ [_ ->]]]]. left.
    destruct (forward_return_fields k sb s) as [_ [_ [_ [-> _]]]]. assumption.
  - destruct Hs as [sb [_ [_ [_ ->]]]]. left.
    destruct (forward_return_fields k sb s) as [_ [_ [_ [-> _]]]]. assumption.
  - destruct Hs as [[_ ->] | [k [sb [v [p [_ [_ [_ [_ ->]]]]]]]]]; now left.
Qed.

(** A sender goroutine whose target forwarder has returned is never
    received from: it stays blocked in its [select] until its own context
    is done, and for ever under a context that is never cancelled. *)
Theorem sender_to_returned_forwarder s j sub sd tr s' :
  reachable s -> nth_error (subs s) j = Some sub -> sub_pc sub = Returned ->
  In sd (senders s) -> snd_dest sd = sub_in sub -> run tr s = Some s' ->
  (In sd (senders s') \/ ctx_done (cancelled s') (snd_ctx sd) = true)
  /\ (snd_ctx sd = Background -> In sd (senders s')).
Proof.
  intros Hre Hj Hp Hin Hd Hrun.
  assert (Hinv : wf s' /\ nth_error (subs s') j = Some sub
                 /\ (In sd (senders s') \/ ctx_done (cancelled s') (snd_ctx sd) = true)).
  { apply (@run_invariant
             (fun x => wf x /\ nth_error (subs x) j = Some sub
                       /\ (In sd (senders x)
                           \/ ctx_done (cancelled x) (snd_ctx sd) = true)))
      with (tr := tr) (s := s); [| |assumption].
    - intros a x x' [Hw [Hjx Hx]] Hstep. split; [eapply wf_step; eassumption|].
      split; [eapply returned_step; eassumption|].
      eapply stuck_sender_step; eassumption.
    - split; [now apply reachable_wf|]. split; [assumption | now left]. }
  destruct Hinv as [_ [_ Hor]]. split; [assumption|].
  intros Hb. destruct Hor as [H | H]; [assumption|].
  rewrite Hb in H. discriminate.
Qed.

Lemma sender_to_returned_forwarder_witness :
  reachable s_leak
  /\ nth_error (subs s_leak) 0 = Some (set_pc Returned intSub)
  /\ sub_pc (set_pc Returned intSub) = Returned
  /\ In (mkSender (sub_in intSub) (VBox TInt (VInt 1)) Background 0) (senders s_leak)
  /\ snd_dest (mkSender (sub_in intSub) (VBox TInt (VInt 1)) Background 0)
     = sub_in (set_pc Returned intSub)
  /\ run [CallUnsub (unsub_of intSub)] s_leak = Some (call_unsub (unsub_of intSub) s_leak)
  /\ (In (mkSender (sub_in intSub) (VBox TInt (VInt 1)) Background 0)
         (senders (call_unsub (unsub_of intSub) s_leak))
      \/ ctx_done (cancelled (call_unsub (unsub_of intSub) s_leak))
                  (snd_ctx (mkSender (sub_in intSub) (VBox TInt (VInt 1)) Background 0))
         = true)
  /\ (snd_ctx (mkSender (sub_in intSub) (VBox TInt (VInt 1)) Background 0) = Background ->
      In (mkSender (sub_in intSub) (VBox TInt (VInt 1)) Background 0)
         (senders (call_unsub (unsub_of intSub) s_leak))).
Proof.
  assert (Hre : reachable s_leak)
    by (exists [CallSubscribe TInt callerCtx Global; CallCancel callerCancel;
                ForwardDone 0; CallPublish TInt Background Global (VInt 1)];
        reflexivity).
  split; [exact Hre|]. split; [reflexivity|]. split; [reflexivity|].
  split; [left; reflexivity|]. split; [reflexivity|]. split; [reflexivity|].
  apply (@sender_to_returned_forwarder s_leak 0 (set_pc Returned intSub)
           (mkSender (sub_in intSub) (VBox TInt (VInt 1)) Background 0)
           [CallUnsub (unsub_of intSub)] (call_unsub (unsub_of intSub) s_leak)
           Hre eq_refl eq_refl (or_introl eq_refl) eq_refl eq_refl).
Defined.

(** ** A publish under a context that is done *)

Lemma nth_error_app_length {A} (l l' : list A) x :
  nth_error (l ++ x :: l') (List.length l) = Some x.
Proof. rewrite nth_error_app2 by lia. now rewrite Nat.sub_diag. Qed.

Lemma remove_nth_app_length {A} (l l' : list A) x :
  remove_nth (List.length l) (l ++ x :: l') = l ++ l'.
Proof. induction l as [|y l IH]; simpl; [reflexivity | now rewrite IH]. Qed.

Lemma abandon_all base l st :
  (forall sd, In sd l -> ctx_done (cancelled st) (snd_ctx sd) = true) ->
  run (repeat (SenderDone (List.length base)) (List.length l))
      (with_senders (base ++ l) st)
  = Some (with_senders base st).
Proof.
  induction l as [|x l IH]; intros Hdone; simpl.
  - now rewrite app_nil_r.
  - unfold sender_done. simpl.
    rewrite nth_error_app_length, (Hdone x (or_introl eq_refl)).
    rewrite remove_nth_app_length.
    apply IH. intros sd Hin. apply Hdone. now right.
Qed.

(** "If the context is canceled, the value may not be sent to all
    subscribers": under a context that is done, every sender the publish
    call started can give up, silently, and then all is as before the call
    but the ghost counter. *)
Theorem cancelled_publish_may_be_dropped T ctx e val s :
  crashed s = None -> ctx_done (cancelled s) ctx = true ->
  exists n,
    run (repeat (SenderDone (List.length (senders s))) n)
        (outcome_state (PublishToScope T ctx e val s))
    = Some (next_publish s).
Proof.
  intros Hcr Hd. unfold PublishToScope.
  destruct (negb (hashable_key (key_of T))); simpl; [exists 0; reflexivity|].
  destruct (Load regkey_eqb (e, key_of T) (registry s)) as [sm|]; simpl;
    [|exists 0; reflexivity].
  exists (List.length (map (fun kv : UUID * ChanId =>
                              mkSender (snd kv) (to_any T val) ctx (npub s)) sm)).
  apply (@abandon_all (senders s)
           (map (fun kv : UUID * ChanId => mkSender (snd kv) (to_any T val) ctx (npub s)) sm)
           (next_publish s)).
  intros sd Hin. apply in_map_iff in Hin. destruct Hin as [kv [<- _]]. exact Hd.
Qed.

Lemma cancelled_publish_may_be_dropped_witness :
  crashed s_cancelledCtx = None
  /\ ctx_done (cancelled s_cancelledCtx) callerCtx = true
  /\ exists n,
       run (repeat (SenderDone (List.length (senders s_cancelledCtx))) n)
           (outcome_state (PublishToScope TInt callerCtx Global (VInt 1) s_cancelledCtx))
       = Some (next_publish s_cancelledCtx).
Proof.
  split; [reflexivity|]. split; [reflexivity|].
  apply (@cancelled_publish_may_be_dropped TInt callerCtx Global (VInt 1)
           s_cancelledCtx eq_refl eq_refl).
Defined.

(** ** Values come out of the channel with the subscribed type *)

Lemma to_any_well_boxed T val : has_type val T = true -> well_boxed (to_any T val) = true.
Proof.
  unfold to_any. destruct (is_iface T) eqn:Hi.
  - destruct T; try discriminate. destruct val; try discriminate; simpl; auto.
    intros H. apply andb_true_iff in H. destruct H as [H1 H2].
    apply andb_true_iff in H1. destruct H1 as [H1 _]. now rewrite H1, H2.
  - simpl. now intros ->; rewrite Hi.
Qed.

Lemma type_assert_typed T a tv :
  well_boxed a = true -> type_assert T a = Some tv ->
  has_type tv T = true /\ tv <> VNil.
Proof.
  destruct a as [| | | | | | |dyn v]; try discriminate. simpl.
  intros Hb. apply andb_true_iff in Hb. destruct Hb as [Hd Hv].
  destruct (is_iface T) eqn:Hi.
  - destruct (implements dyn T) eqn:Him; [|discriminate]. intros [= <-].
    split; [|discriminate]. destruct T; try discriminate. simpl in *.
    now rewrite Hd, Him, Hv.
  - destruct (type_eqb dyn T) eqn:He; [|discriminate]. intros [= <-].
    apply type_eqb_eq in He. subst dyn. split; [assumption|].
    intros ->. destruct T; discriminate.
Qed.

Lemma typed_state_step a s s' :
  typed_state s -> well_typed_action a -> step a s = Some s' -> typed_state s'.
Proof.
  intros [Hsn Hheld] Hty Hstep.
  assert (Hupd : forall k pc,
             (forall v p, pc = AtSend v p ->
                forall sb, nth_error (subs s) k = Some sb ->
                           has_type v (sub_T sb) = true /\ v <> VNil) ->
             forall sub v p, In sub (update_nth k (set_pc pc) (subs s)) ->
                             sub_pc sub = AtSend v p ->
                             has_type v (sub_T sub) = true /\ v <> VNil).
  { intros k pc Hpc sub v p Hin Hp. apply In_update_set_pc in Hin.
    destruct Hin as [y [Hy [[_ [Et _]] [-> | [Hk Hq]]]]]; [eauto|].
    rewrite Et. apply (Hpc v p); [congruence | assumption]. }
  apply step_cases in Hstep. rename Hstep into Hs.
  destruct a as [T ctx e val | T ctx e | u | c' | i k | i | i | k | k | ch].
  - subst s'. split.
    + intros sd Hin. unfold PublishToScope in Hin.
      destruct (negb (hashable_key (key_of T))); simpl in Hin; [auto|].
      destruct (Load regkey_eqb (e, key_of T) (registry s)); simpl in Hin; [|auto].
      apply in_app_iff in Hin. destruct Hin as [Hin | Hin]; [auto|].
      apply in_map_iff in Hin. destruct Hin as [kv [<- _]]. simpl.
      now apply to_any_well_boxed.
    + destruct (publish_fields T ctx e val s) as [-> _]. assumption.
  - subst s'. unfold SubscribeToScope.
    destruct (negb (hashable_key (key_of T))); simpl; split; auto.
    simpl. intros sub v p Hin Hp. apply in_app_iff in Hin.
    destruct Hin as [Hin | [<- | []]]; [eauto | discriminate].
  - subst s'. split; assumption.
  - subst s'. split; assumption.
  - destruct Hs as [sd [sb [Hi [Hk [_ [_ [[tv [Hta ->]] | [_ ->]]]]]]]].
    + split; simpl.
      * intros x Hin. apply Hsn. eapply In_remove_nth; eassumption.
      * apply Hupd. intros v p Heq sb' Hsb'. inversion Heq; subst.
        assert (sb' = sb) by congruence. subst sb'.
        eapply type_assert_typed; [|eassumption].
        apply Hsn. eapply nth_error_In; eassumption.
    + destruct (forward_crash_fields "mismatched type" k sb
                  (with_senders (remove_nth i (senders s)) s))
        as [Hsb [_ [_ [Hsd _]]]].
      split.
      * rewrite Hsd. simpl. intros x Hin. apply Hsn.
        eapply In_remove_nth; eassumption.
      * rewrite Hsb. simpl. apply Hupd. discriminate.
  - destruct Hs as [sd [_ [_ ->]]]. split; simpl; [|assumption].
    intros x Hin. apply Hsn. eapply In_remove_nth; eassumption.
  - destruct Hs as [sd [_ [_ ->]]]. split; simpl; [|assumption].
    intros x Hin. apply Hsn. eapply In_remove_nth; eassumption.
  - destruct Hs as [sb [_ [_ [_ ->]]]].
    destruct (forward_return_fields k sb s) as [Hsb [_ [_ [Hsd _]]]].
    split; [now rewrite Hsd|]. rewrite Hsb. apply Hupd. discriminate.
  - destruct Hs as [sb [_ [_ [_ ->]]]].
    destruct (forward_return_fields k sb s) as [Hsb [_ [_ [Hsd _]]]].
    split; [now rewrite Hsd|]. rewrite Hsb. apply Hupd. discriminate.
  - destruct Hs as [[_ ->] | [k [sb [v [p [_ [_ [_ [_ ->]]]]]]]]];
      [split; assumption|].
    split; simpl; [assumption|]. apply Hupd. discriminate.
Qed.

Lemma typed_state_run tr :
  forall s s', typed_state s -> Forall well_typed_action tr ->
               run tr s = Some s' -> typed_state s'.
Proof.
  induction tr as [|a tr IH]; simpl; intros s s' Hs Hty Hrun.
  - now inversion Hrun; subst.
  - inversion Hty; subst. destruct (step a s) as [s1|] eqn:Ha; [|discriminate].
    apply (IH s1 s'); auto. eapply typed_state_step; eassumption.
Qed.

(** When every publish call passes a value of its type parameter, whatever
    a reader receives on the channel of a subscription has the subscribed
    type.  For an interface type it is never the nil interface value: it
    holds a value of a concrete type that implements the interface.  (A
    nil pointer of a pointer type is a value like any other and is
    delivered.) *)
Theorem received_values_are_typed tr s j sub v p s' :
  run tr init = Some s -> Forall well_typed_action tr ->
  nth_error (subs s) j = Some sub ->
  receive (sub_out sub) s = RecvValue v p s' ->
  has_type v (sub_T sub) = true
  /\ (is_iface (sub_T sub) = true ->
      exists C w, v = VBox C w /\ is_iface C = false
                  /\ implements C (sub_T sub) = true /\ has_type w C = true).
Proof.
  intros Hrun Hty Hj Hr.
  assert (Hre : reachable s) by (exists tr; assumption).
  assert (Hts : typed_state s).
  { apply (@typed_state_run tr init s); auto. split; simpl; tauto. }
  destruct Hts as [_ Hheld].
  assert (Hpc : sub_pc sub = AtSend v p)
    by (eapply receive_from; eauto using reachable_wf).
  destruct (Hheld sub v p (nth_error_In _ _ Hj) Hpc) as [Hv Hnn].
  split; [assumption|]. intros Hi.
  destruct (sub_T sub) as [| | | | | | | | |name ms] eqn:HT; try discriminate.
  destruct v as [| | | | | | |C w]; try discriminate; [contradiction|].
  simpl in Hv. apply andb_true_iff in Hv. destruct Hv as [Hv Hw].
  apply andb_true_iff in Hv. destruct Hv as [HC Himp].
  exists C, w. split; [reflexivity|]. split; [|split; assumption].
  now destruct (is_iface C).
Qed.

Lemma received_values_are_typed_witness :
  (Forall well_typed_action tr_ifaceHeld
   /\ (exists s', receive (sub_out ifaceSub) (after tr_ifaceHeld)
                  = RecvValue (VBox testImpl (VStruct [])) 0 s')
   /\ has_type (VBox testImpl (VStruct [])) testInterface = true
   /\ exists C w, VBox testImpl (VStruct []) = VBox C w /\ is_iface C = false
                  /\ implements C testInterface = true /\ has_type w C = true)
  /\ (Forall well_typed_action tr_nilPtrHeld
      /\ (exists s', receive 0 (after tr_nilPtrHeld) = RecvValue (VPtr None) 0 s')
      /\ has_type (VPtr None) (TPtr TString) = true).
Proof.
  assert (Hty1 : Forall well_typed_action tr_ifaceHeld) by (repeat constructor).
  assert (Hty2 : Forall well_typed_action tr_nilPtrHeld) by (repeat constructor).
  split.
  - split; [exact Hty1|]. split; [eexists; reflexivity|].
    destruct (@received_values_are_typed tr_ifaceHeld (after tr_ifaceHeld) 0
                (set_pc (AtSend (VBox testImpl (VStruct [])) 0) ifaceSub)
                (VBox testImpl (VStruct [])) 0
                (with_subs [ifaceSub] (after tr_ifaceHeld))
                eq_refl Hty1 eq_refl eq_refl) as [H1 H2].
    split; [exact H1 | exact (H2 eq_refl)].
  - split; [exact Hty2|]. split; [eexists; reflexivity|].
    exact (proj1 (@received_values_are_typed tr_nilPtrHeld (after tr_nilPtrHeld) 0
                    (set_pc (AtSend (VPtr None) 0)
                            (new_sub (TPtr TString) Background Global init))
                    (VPtr None) 0
                    (with_subs [new_sub (TPtr TString) Background Global init]
                               (after tr_nilPtrHeld))
                    eq_refl Hty2 eq_refl eq_refl)).
Defined.

(** ** A publish call reaches a subscriber at most once *)

Lemma filter_remove_nth {A} (q : A -> bool) l i x :
  nth_error l i = Some x ->
  List.length (filter q l)
  = List.length (filter q (remove_nth i l)) + (if q x then 1 else 0).
Proof.
  revert i. induction l as [|y l IH]; intros [|i] H; simpl in *; try discriminate.
  - inversion H; subst. destruct (q x); simpl; lia.
  - specialize (IH i H). destruct (q y); simpl; lia.
Qed.

Lemma senders_to_publish_old c p T ctx e val s :
  p <> npub s ->
  senders_to c p (senders (outcome_state (PublishToScope T ctx e val s)))
  = senders_to c p (senders s).
Proof.
  intros Hp. unfold PublishToScope.
  destruct (negb (hashable_key (key_of T))); simpl; auto.
  destruct (Load regkey_eqb (e, key_of T) (registry s)); simpl; auto.
  unfold senders_to. rewrite filter_app, (filter_none _ (map _ _)).
  - apply app_nil_r.
  - intros sd Hin. apply in_map_iff in Hin. destruct Hin as [kv [<- _]]. simpl.
    destruct (Nat.eqb (npub s) p) eqn:E; [|apply andb_false_r].
    apply Nat.eqb_eq in E. congruence.
Qed.

Lemma senders_to_publish_new s j sub T ctx e val :
  reachable s -> nth_error (subs s) j = Some sub ->
  List.length (senders_to (sub_in sub) (npub s)
                 (senders (outcome_state (PublishToScope T ctx e val s)))) <= 1.
Proof.
  intros Hre Hj. pose proof (reachable_wf Hre) as Hwf.
  pose proof (reachable_wf_ids Hre) as Hids.
  assert (Hold : senders_to (sub_in sub) (npub s) (senders s) = []).
  { apply filter_none. intros sd Hin.
    pose proof (wf_snd_pub Hwf sd Hin) as Hlt.
    destruct (Nat.eqb (snd_pub sd) (npub s)) eqn:He; [|apply andb_false_r].
    apply Nat.eqb_eq in He. lia. }
  unfold PublishToScope.
  destruct (negb (hashable_key (key_of T))); simpl; [rewrite Hold; simpl; lia|].
  destruct (Load regkey_eqb (e, key_of T) (registry s)) as [sm|] eqn:HL; simpl;
    [|rewrite Hold; simpl; lia].
  unfold senders_to at 1. rewrite filter_app.
  fold (senders_to (sub_in sub) (npub s) (senders s)). rewrite Hold. simpl.
  fold (senders_to (sub_in sub) (npub s)
          (map (fun kv : UUID * ChanId => mkSender (snd kv) (to_any T val) ctx (npub s)) sm)).
  rewrite senders_to_spawned, length_map.
  apply (Load_In regkey_eqb regkey_eqb_eq) in HL.
  rewrite (@filter_unique _ _ _ sm (sub_id sub, sub_in sub)).
  - destruct (existsb _ sm); simpl; lia.
  - apply (wi_keys Hids _ _ HL).
  - intros [id c] Hin Hc. simpl in Hc. apply Nat.eqb_eq in Hc. subst c.
    destruct (wf_reg Hwf _ _ _ _ _ HL Hin) as [x [Hx [E1 [E2 _]]]].
    assert (x = sub).
    { apply (@NoDup_map_inj _ _ sub_in (subs s)); eauto using wf_ins, nth_error_In. }
    subst x. now rewrite E2.
Qed.

Lemma holds_update p j k pc (l : list Subscription) :
  forall sub, nth_error l j = Some sub ->
  (k = j -> holds p pc <= holds p (sub_pc sub)) ->
  match nth_error (update_nth k (set_pc pc) l) j with
  | Some sub' => holds p (sub_pc sub')
  | None => 0
  end <= holds p (sub_pc sub).
Proof.
  intros sub Hj Hk. destruct (Nat.eq_dec k j) as [-> | Hne].
  - rewrite nth_error_update_nth, Hj. simpl. auto.
  - rewrite (nth_error_update_nth_neq _ _ Hne), Hj. lia.
Qed.

(** No step adds to what is in flight from a past publish call, and a
    receive that takes a value of that call uses one up. *)
Lemma in_flight_step a x x' p j sub :
  wf x -> nth_error (subs x) j = Some sub -> p < npub x -> step a x = Some x' ->
  takes p (sub_out sub) a x + in_flight p j (sub_in sub) x'
  <= in_flight p j (sub_in sub) x.
Proof.
  intros Hwf Hj Hp Hstep. apply step_cases in Hstep. rename Hstep into Hs.
  unfold in_flight. rewrite Hj.
  destruct a as [T ctx e val | T ctx e | u | c' | i k | i | i | k | k | ch];
    unfold takes.
  - subst x'. rewrite senders_to_publish_old by lia.
    destruct (publish_fields T ctx e val x) as [-> _]. rewrite Hj. lia.
  - subst x'. unfold SubscribeToScope.
    destruct (negb (hashable_key (key_of T))); simpl; [rewrite Hj; lia|].
    rewrite nth_error_app1 by (apply nth_error_Some; congruence).
    rewrite Hj. lia.
  - subst x'. simpl. rewrite Hj. lia.
  - subst x'. simpl. rewrite Hj. lia.
  - destruct Hs as [sd [sb [Hi [Hk [Hd [Hpc [[tv [Hta ->]] | [_ ->]]]]]]]].
    + simpl. unfold senders_to.
      rewrite (filter_remove_nth _ _ _ Hi) at 1.
      destruct (Nat.eq_dec k j) as [-> | Hne].
      * assert (sb = sub) by congruence. subst sb.
        rewrite nth_error_update_nth, Hj. simpl.
        rewrite Hd, Nat.eqb_refl, Hpc. simpl.
        destruct (Nat.eqb (snd_pub sd) p); lia.
      * rewrite (nth_error_update_nth_neq _ _ Hne), Hj.
        destruct (Nat.eqb (snd_dest sd) (sub_in sub) && Nat.eqb (snd_pub sd) p); lia.
    + destruct (forward_crash_fields "mismatched type" k sb
                  (with_senders (remove_nth i (senders x)) x))
        as [Hsb [_ [_ [Hsd _]]]].
      rewrite Hsb, Hsd. simpl. unfold senders_to.
      rewrite (filter_remove_nth _ _ _ Hi) at 1.
      pose proof (@holds_update p j k Returned (subs x) sub Hj) as Hu.
      simpl in Hu. specialize (Hu ltac:(lia)).
      destruct (Nat.eqb (snd_dest sd) (sub_in sub) && Nat.eqb (snd_pub sd) p); lia.
  - destruct Hs as [sd [Hi [_ ->]]]. simpl. rewrite Hj. unfold senders_to.
    rewrite (filter_remove_nth _ _ _ Hi) at 1.
    destruct (Nat.eqb (snd_dest sd) (sub_in sub) && Nat.eqb (snd_pub sd) p); lia.
  - destruct Hs as [sd [Hi [_ ->]]]. simpl. rewrite Hj. unfold senders_to.
    rewrite (filter_remove_nth _ _ _ Hi) at 1.
    destruct (Nat.eqb (snd_dest sd) (sub_in sub) && Nat.eqb (snd_pub sd) p); lia.
  - destruct Hs as [sb [_ [_ [_ ->]]]].
    destruct (forward_return_fields k sb x) as [Hsb [_ [_ [Hsd _]]]].
    rewrite Hsb, Hsd.
    pose proof (@holds_update p j k Returned (subs x) sub Hj) as Hu.
    simpl in Hu. specialize (Hu ltac:(lia)). lia.
  - destruct Hs as [sb [_ [_ [_ ->]]]].
    destruct (forward_return_fields k sb x) as [Hsb [_ [_ [Hsd _]]]].
    rewrite Hsb, Hsd.
    pose proof (@holds_update p j k Returned (subs x) sub Hj) as Hu.
    simpl in Hu. specialize (Hu ltac:(lia)). lia.
  - destruct Hs as [[Hm ->] | [k [sb [v [q [Hk [Ho [Hpc [Hr ->]]]]]]]]].
    + rewrite Hj. destruct (Nat.eqb ch (sub_out sub)) eqn:He; [|lia].
      apply Nat.eqb_eq in He. subst ch. unfold receive. rewrite Hm. lia.
    + simpl. destruct (Nat.eqb ch (sub_out sub)) eqn:He.
      * apply Nat.eqb_eq in He. subst ch.
        assert (k = j).
        { eapply (@NoDup_map_nth_error _ _ sub_out (subs x)); eauto using wf_outs. }
        subst k. assert (sb = sub) by congruence. subst sb.
        rewrite Hr, nth_error_update_nth, Hj. simpl. rewrite Hpc. simpl.
        destruct (Nat.eqb q p); lia.
      * assert (Hne : k <> j).
        { intros ->. assert (sb = sub) by congruence. subst sb.
          rewrite Ho, Nat.eqb_refl in He. discriminate. }
        rewrite (nth_error_update_nth_neq _ _ Hne), Hj. lia.
Qed.

Lemma deliveries_bound p j tr :
  forall x sub, wf x -> nth_error (subs x) j = Some sub -> p < npub x ->
                deliveries p (sub_out sub) tr x <= in_flight p j (sub_in sub) x.
Proof.
  induction tr as [|a tr IH]; simpl; intros x sub Hwf Hj Hp; [lia|].
  destruct (step a x) as [x'|] eqn:Ha; [|lia].
  pose proof (@in_flight_step a x x' p j sub Hwf Hj Hp Ha) as Hstep.
  destruct (@step_sub_persist a x x' j sub Ha Hj) as [sub' [Hj' [_ [_ [_ [Ein [Eout _]]]]]]].
  assert (Hwf' : wf x') by (eapply wf_step; eassumption).
  pose proof (@step_npub_mono a x x' Ha) as Hn.
  specialize (IH x' sub' Hwf' Hj' ltac:(lia)).
  rewrite Ein, Eout in IH. lia.
Qed.

(** Whatever happens after a publish call, readers of a subscription's
    channel take a value of that call at most once. *)
Theorem publish_delivers_at_most_once s j sub T ctx e val tr :
  reachable s -> nth_error (subs s) j = Some sub ->
  deliveries (npub s) (sub_out sub) tr
             (outcome_state (PublishToScope T ctx e val s)) <= 1.
Proof.
  intros Hre Hj. pose proof (reachable_wf Hre) as Hwf.
  destruct (publish_fields T ctx e val s) as [Hsubs [_ [Hn _]]].
  assert (Hwf' : wf (outcome_state (PublishToScope T ctx e val s)))
    by now apply wf_publish.
  assert (Hj' : nth_error (subs (outcome_state (PublishToScope T ctx e val s))) j
                = Some sub) by now rewrite Hsubs.
  pose proof (@deliveries_bound (npub s) j tr _ sub Hwf' Hj' ltac:(lia)) as Hb.
  pose proof (@senders_to_publish_new s j sub T ctx e val Hre Hj) as Hnew.
  unfold in_flight in Hb. rewrite Hj' in Hb.
  assert (Hh : holds (npub s) (sub_pc sub) = 0).
  { destruct (sub_pc sub) as [|v q|] eqn:Hpc; simpl; auto.
    pose proof (wf_sub_pub Hwf sub (nth_error_In _ _ Hj) Hpc) as Hlt.
    destruct (Nat.eqb q (npub s)) eqn:E; [|reflexivity].
    apply Nat.eqb_eq in E. lia. }
  lia.
Qed.

Lemma publish_delivers_at_most_once_witness :
  nth_error (subs s_intSub) 0 = Some intSub
  /\ deliveries (npub s_intSub) (sub_out intSub)
                [Deliver 0 0; Receive (sub_out intSub); Receive (sub_out intSub)]
                (outcome_state (PublishToScope TInt Background Global (VInt 5) s_intSub))
     = 1
  /\ deliveries (npub s_intSub) (sub_out intSub)
                [Deliver 0 0; Receive (sub_out intSub); Receive (sub_out intSub)]
                (outcome_state (PublishToScope TInt Background Global (VInt 5) s_intSub))
     <= 1.
Proof.
  split; [reflexivity|]. split; [reflexivity|].
  apply (@publish_delivers_at_most_once s_intSub 0 intSub TInt Background Global
           (VInt 5)
           [Deliver 0 0; Receive (sub_out intSub); Receive (sub_out intSub)]).
  - exists [CallSubscribe TInt callerCtx Global]. reflexivity.
  - reflexivity.
Defined.

(** ** Two publish calls may reach a subscriber in either order *)

Lemma nth_error_remove_nth_lt {A} (l : list A) i k :
  i < k -> nth_error (remove_nth k l) i = nth_error l i.
Proof.
  revert i k. induction l as [|x l IH]; intros [|i] [|k] H; simpl; auto; try lia.
  apply IH. lia.
Qed.

Lemma publish_spawns_late T ctx e val s subMap id c :
  hashable T = true ->
  Load regkey_eqb (e, key_of T) (registry s) = Some subMap ->
  In (id, c) subMap ->
  exists n,
    nth_error (senders (outcome_state (PublishToScope T ctx e val s)))
              (List.length (senders s) + n)
    = Some (mkSender c (to_any T val) ctx (npub s))
    /\ List.length (senders s) + n
       < List.length (senders (outcome_state (PublishToScope T ctx e val s)))
    /\ (forall i sd, nth_error (senders s) i = Some sd ->
          nth_error (senders (outcome_state (PublishToScope T ctx e val s))) i
          = Some sd).
Proof.
  intros Hh HL Hin. unfold PublishToScope. unfold hashable in Hh. rewrite Hh, HL. simpl.
  destruct (In_nth_error _ _ Hin) as [n Hn]. exists n.
  assert (Hlt : n < List.length subMap) by (apply nth_error_Some; congruence).
  split; [|split].
  - rewrite nth_error_app2 by lia.
    replace (List.length (senders s) + n - List.length (senders s)) with n by lia.
    rewrite nth_error_map, Hn. reflexivity.
  - rewrite length_app, length_map. lia.
  - intros i sd Hi. rewrite nth_error_app1; [assumption|].
    apply nth_error_Some. congruence.
Qed.

(** A sender hands its value to a running forwarder, after the reader has
    taken what the forwarder held, and the reader takes that value next. *)
Lemma deliver_then_receive x i j sub sd tv :
  wf x -> crashed x = None ->
  nth_error (senders x) i = Some sd -> nth_error (subs x) j = Some sub ->
  snd_dest sd = sub_in sub -> running (sub_pc sub) = true ->
  type_assert (sub_T sub) (snd_val sd) = Some tv ->
  exists x1 x2,
    run (drain_trace sub ++ [Deliver i j]) x = Some x1
    /\ receive (sub_out sub) x1 = RecvValue tv (snd_pub sd) x2
    /\ wf x2 /\ crashed x2 = None
    /\ nth_error (subs x2) j = Some (set_pc AtSelect sub)
    /\ senders x2 = remove_nth i (senders x).
Proof.
  intros Hwf Hcr Hi Hj Hd Hrun Hta.
  destruct (@drain x j sub Hwf Hcr Hj Hrun)
    as [x' [Htr [Hwf' [Hcr' [Hj' [Hsn [Hcl' _]]]]]]].
  assert (Hdel : deliver i j x'
                 = Some (with_subs
                           (update_nth j (set_pc (AtSend tv (snd_pub sd))) (subs x'))
                           (with_senders (remove_nth i (senders x')) x'))).
  { rewrite (@deliver_eq i j x' sd (set_pc AtSelect sub)); auto.
    - simpl. now rewrite Hta.
    - now rewrite Hsn.
    - apply (@wf_in_open x' (set_pc AtSelect sub)); auto.
      eapply nth_error_In; eassumption. }
  assert (Hstep : step (Deliver i j) x' = deliver i j x').
  { reflexivity. }
  set (x1 := with_subs (update_nth j (set_pc (AtSend tv (snd_pub sd))) (subs x'))
                       (with_senders (remove_nth i (senders x')) x')) in *.
  assert (Hwf1 : wf x1).
  { eapply wf_step; [exact Hwf' | rewrite Hstep; exact Hdel]. }
  assert (Hj1 : nth_error (subs x1) j
                = Some (set_pc (AtSend tv (snd_pub sd)) (set_pc AtSelect sub))).
  { unfold x1. simpl. now rewrite nth_error_update_nth, Hj'. }
  pose proof (@receive_held x1 j _ tv (snd_pub sd) Hwf1 Hj1 eq_refl) as Hr.
  exists x1. eexists. split; [|split; [exact Hr|]].
  - rewrite run_app, Htr. simpl. now rewrite ?Hstep, Hdel.
  - split; [eapply wf_receive; eassumption|].
    split; [exact Hcr'|]. split.
    + simpl. rewrite !nth_error_update_nth, Hj'. reflexivity.
    + simpl. now rewrite Hsn.
Qed.

(** The channel gives no order between publish calls: after two publish
    calls made one after the other, a subscriber may receive the second
    value first and the first value after it. *)
Theorem publishes_may_arrive_reordered s j sub T ctx v1 v2 t1 t2 :
  reachable s -> crashed s = None ->
  nth_error (subs s) j = Some sub -> running (sub_pc sub) = true ->
  registered s sub ->
  hashable T = true -> key_of T = key_of (sub_T sub) ->
  type_assert (sub_T sub) (to_any T v1) = Some t1 ->
  type_assert (sub_T sub) (to_any T v2) = Some t2 ->
  exists tr1 tr2 sa sb sc sd,
    run (CallPublish T ctx (sub_scope sub) v1
           :: CallPublish T ctx (sub_scope sub) v2 :: tr1) s = Some sa
    /\ receive (sub_out sub) sa = RecvValue t2 (S (npub s)) sb
    /\ run tr2 sb = Some sc
    /\ receive (sub_out sub) sc = RecvValue t1 (npub s) sd.
Proof.
  intros Hre Hcr Hj Hrun [sm [HL Hin]] Hh Hk Ht1 Ht2.
  pose proof (reachable_wf Hre) as Hwf. rewrite <- Hk in HL.
  set (s1 := outcome_state (PublishToScope T ctx (sub_scope sub) v1 s)).
  set (s2 := outcome_state (PublishToScope T ctx (sub_scope sub) v2 s1)).
  destruct (publish_fields T ctx (sub_scope sub) v1 s) as [Hs1 [Hr1 [Hn1 [_ Hc1]]]].
  destruct (publish_fields T ctx (sub_scope sub) v2 s1) as [Hs2 [_ [_ [_ Hc2]]]].
  fold s1 in Hs1, Hr1, Hn1, Hc1. fold s2 in Hs2, Hc2.
  destruct (@publish_spawns_late T ctx (sub_scope sub) v1 s sm _ _ Hh HL Hin)
    as [n1 [Hi1 [Hlt1 _]]].
  fold s1 in Hi1, Hlt1.
  assert (HL1 : Load regkey_eqb (sub_scope sub, key_of T) (registry s1) = Some sm)
    by now rewrite Hr1.
  destruct (@publish_spawns_late T ctx (sub_scope sub) v2 s1 sm _ _ Hh HL1 Hin)
    as [n2 [Hi2 [_ Hold]]].
  fold s2 in Hi2, Hold. specialize (Hold _ _ Hi1). rewrite Hn1 in Hi2.
  assert (Hwf2 : wf s2) by (unfold s2, s1; auto using wf_publish).
  assert (Hcr2 : crashed s2 = None) by congruence.
  assert (Hj2 : nth_error (subs s2) j = Some sub) by congruence.
  destruct (@deliver_then_receive s2 (List.length (senders s1) + n2) j sub _ t2
              Hwf2 Hcr2 Hi2 Hj2 eq_refl Hrun Ht2)
    as [x1 [x2 [Htr1 [Hrecv1 [Hwfx [Hcrx [Hjx Hsx]]]]]]].
  assert (Hix : nth_error (senders x2) (List.length (senders s) + n1)
                = Some (mkSender (sub_in sub) (to_any T v1) ctx (npub s))).
  { rewrite Hsx, nth_error_remove_nth_lt by lia. exact Hold. }
  destruct (@deliver_then_receive x2 (List.length (senders s) + n1) j
              (set_pc AtSelect sub) _ t1 Hwfx Hcrx Hix Hjx eq_refl eq_refl Ht1)
    as [y1 [y2 [Htr2 [Hrecv2 _]]]].
  exists (drain_trace sub ++ [Deliver (List.length (senders s1) + n2) j]).
  exists [Deliver (List.length (senders s) + n1) j]. exists x1, x2, y1, y2.
  split; [|split; [exact Hrecv1 | split; [exact Htr2 | exact Hrecv2]]].
  exact Htr1.
Qed.

Lemma publishes_may_arrive_reordered_witness :
  exists tr1 tr2 sa sb sc sd,
    run (CallPublish TInt Background (sub_scope intSub) (VInt 1)
           :: CallPublish TInt Background (sub_scope intSub) (VInt 2) :: tr1) s_intSub
    = Some sa
    /\ receive (sub_out intSub) sa = RecvValue (VInt 2) (S (npub s_intSub)) sb
    /\ run tr2 sb = Some sc
    /\ receive (sub_out intSub) sc = RecvValue (VInt 1) (npub s_intSub) sd.
Proof.
  apply (@publishes_may_arrive_reordered s_intSub 0 intSub TInt Background
           (VInt 1) (VInt 2) (VInt 1) (VInt 2)).
  - exists [CallSubscribe TInt callerCtx Global]. reflexivity.
  - reflexivity.
  - reflexivity.
  - reflexivity.
  - exists [(sub_id intSub, sub_in intSub)]. split; [reflexivity | now left].
  - reflexivity.
  - reflexivity.
  - reflexivity.
  - reflexivity.
Defined.

(** ** The package-level functions on the scope [Global] *)

(** [SubscribeTo] followed by [Publish] of a value of the same comparable
    type (not the nil value of an interface type): the subscription is
    made on [Global], the publish finds it there, and on the schedule
    where the sender meets the forwarder the reader of the returned
    channel receives exactly the published value. *)
Theorem global_subscribe_publish_delivers T ctx pctx v s :
  reachable s -> crashed s = None ->
  comparable T = true -> has_type v T = true ->
  (is_iface T = true -> v <> VNil) ->
  exists ch unsub s1 s2 i s3 s4,
    SubscribeTo T ctx s = Return (ch, unsub) s1
    /\ u_scope unsub = Global
    /\ Publish T pctx v s1 = Return tt s2
    /\ step (Deliver i (List.length (subs s))) s2 = Some s3
    /\ receive ch s3 = RecvValue v (npub s) s4.
Proof.
  intros Hre Hcr Hcmp Hty Hnil. rewrite <- hashable_comparable in Hcmp.
  unfold SubscribeTo, Publish.
  destruct (@subscribe_registers T ctx Global s Hcmp) as [s1 [Hs [Hj [Hreg [Hcr1 Hnp]]]]].
  assert (Hwf1 : wf s1).
  { pose proof (@wf_subscribe T ctx Global s (reachable_wf Hre)) as H.
    now rewrite Hs in H. }
  assert (Hc1 : crashed s1 = None) by congruence.
  destruct (@publish_delivers s1 (List.length (subs s)) (new_sub T ctx Global s)
              T pctx v v Hwf1 Hc1 Hj eq_refl Hreg Hcmp eq_refl
              (@type_assert_to_any T v Hty Hnil))
    as [s2 [i [s3 [s4 [Hp [Hi [Hrun Hrecv]]]]]]].
  simpl in Hrun. rewrite Hnp in *.
  destruct (deliver i (List.length (subs s)) s2) as [s3'|] eqn:Hd; [|discriminate].
  inversion Hrun; subst s3'.
  exists (fresh s), (unsub_of (new_sub T ctx Global s)), s1, s2, i, s3, s4.
  repeat split; assumption.
Qed.

Lemma global_subscribe_publish_delivers_witness :
  exists ch unsub s1 s2 i s3 s4,
    SubscribeTo testStruct Background init = Return (ch, unsub) s1
    /\ u_scope unsub = Global
    /\ Publish testStruct Background (VStruct [VInt 42; VString "test"]) s1
       = Return tt s2
    /\ step (Deliver i (List.length (subs init))) s2 = Some s3
    /\ receive ch s3 = RecvValue (VStruct [VInt 42; VString "test"]) (npub init) s4.
Proof.
  apply (@global_subscribe_publish_delivers testStruct Background Background
           (VStruct [VInt 42; VString "test"]) init).
  - exists []. reflexivity.
  - reflexivity.
  - reflexivity.
  - reflexivity.
  - discriminate.
Defined.
